(** * Vector memory: chunker, embedding client, store, indexer, session
      ingester and search of openclaw-skill-vector-memory, embedded in Rocq.

    Sources embedded: lib.js (shared utilities), index.js (workspace
    indexer), ingest.js (ad-hoc ingestion), ingest-sessions.js (session
    ingestion) and search.js.

    - A JavaScript string is the list of its UTF-16 code units ([list N]).
    - A JavaScript number that holds a similarity score or a vector
      component is an IEEE 754 binary64 value ([PrimFloat.float]); line
      numbers, counts and millisecond timestamps are integers.
    - The data directory is a record of three files; what a run does to the
      outside (requests to the embedding provider, file writes) is appended
      to an event log carried by the same record. *)

From Stdlib Require Import ZArith List Bool Ascii String Floats Lia.
From Stdlib Require Import Sorted Permutation.
From stdpp Require Import base decidable option list gmap.
Import ListNotations.

Local Open Scope Z_scope.

(** ** JavaScript strings *)

Module JsString.

(** An ASCII literal as a list of code units. *)
Definition js (s : string) : list N :=
  List.map N_of_ascii (list_ascii_of_string s).

Definition nl : N := 10%N.
Definition hash : N := 35%N.

(** The characters matched by [\s] and stripped by [String.prototype.trim]:
    WhiteSpace and LineTerminator of ECMAScript. *)
Definition is_space (c : N) : bool :=
  ((9 <=? c) && (c <=? 13) || (c =? 32) || (c =? 160) || (c =? 5760)
   || (8192 <=? c) && (c <=? 8202) || (c =? 8232) || (c =? 8233)
   || (c =? 8239) || (c =? 8287) || (c =? 12288) || (c =? 65279))%N.

Fixpoint trimStart (s : list N) : list N :=
  match s with
  | c :: s' => if is_space c then trimStart s' else s
  | [] => []
  end.

Definition trimEnd (s : list N) : list N := rev (trimStart (rev s)).

Definition trim (s : list N) : list N := trimEnd (trimStart s).

(** [s.split('\n')]: always at least one piece. *)
Fixpoint split_lines_from (cur : list N) (s : list N) : list (list N) :=
  match s with
  | [] => [rev cur]
  | c :: s' =>
      if (c =? nl)%N then rev cur :: split_lines_from [] s'
      else split_lines_from (c :: cur) s'
  end.

Definition split_lines (s : list N) : list (list N) := split_lines_from [] s.

(** [s.split(/\n\n+/)]: the separator is a maximal run of two or more
    newlines.  [in_sep] is set while such a run is being consumed. *)
Fixpoint split_paragraphs_from (in_sep : bool) (cur : list N) (s : list N)
  : list (list N) :=
  match s with
  | [] => [rev cur]
  | c :: s' =>
      if in_sep then
        if (c =? nl)%N then split_paragraphs_from true [] s'
        else split_paragraphs_from false [c] s'
      else
        match s' with
        | c' :: _ =>
            if ((c =? nl) && (c' =? nl))%N
            then rev cur :: split_paragraphs_from true [] s'
            else split_paragraphs_from false (c :: cur) s'
        | [] => split_paragraphs_from false (c :: cur) s'
        end
  end.

Definition split_paragraphs (s : list N) : list (list N) :=
  split_paragraphs_from false [] s.

(** [parts.join(sep)]. *)
Fixpoint join (sep : list N) (parts : list (list N)) : list N :=
  match parts with
  | [] => []
  | [p] => p
  | p :: ps => p ++ sep ++ join sep ps
  end.

(** [s.slice(0, n)] for a non-negative integer [n]. *)
Definition slice0 (n : nat) (s : list N) : list N := firstn n s.

Fixpoint startsWith (p s : list N) : bool :=
  match p, s with
  | [], _ => true
  | a :: p', b :: s' => (a =? b)%N && startsWith p' s'
  | _ :: _, [] => false
  end.

(** [s.includes(p)]. *)
Fixpoint includes (p s : list N) : bool :=
  startsWith p s ||
  match s with
  | [] => false
  | _ :: s' => includes p s'
  end.

(** [s.replace(p, r)] for a string pattern: the first occurrence only. *)
Fixpoint replace_first (p r s : list N) : list N :=
  if startsWith p s then r ++ skipn (length p) s
  else match s with
       | [] => []
       | c :: s' => c :: replace_first p r s'
       end.

Fixpoint drop_while (f : N -> bool) (s : list N) : list N :=
  match s with
  | c :: s' => if f c then drop_while f s' else s
  | [] => []
  end.

End JsString.

Import JsString.

(** ** Chunker ([chunkMarkdown] of lib.js) *)

Module Chunk.
Record t := mk {
  text : list N;
  file : list N;
  startLine : Z;
  endLine : Z;
  heading : list N
}.
End Chunk.

(** The section being accumulated ([current] in [chunkMarkdown]). *)
Module Current.
Record t := mk {
  lines : list (list N);
  startLine : Z;
  heading : list N
}.
End Current.

Definition maxChars : nat := 3000.

(** [/^#{1,3}\s/.test(line)] *)
Definition heading_re (line : list N) : bool :=
  match line with
  | a :: b :: r =>
      (a =? hash)%N &&
      (is_space b ||
       (b =? hash)%N &&
       match r with
       | c :: r' =>
           is_space c ||
           (c =? hash)%N && match r' with d :: _ => is_space d | [] => false end
       | [] => false
       end)
  | _ => false
  end.

(** [line.replace(/^#+\s*/, '')] *)
Definition strip_heading (line : list N) : list N :=
  match line with
  | c :: _ =>
      if (c =? hash)%N
      then drop_while is_space (drop_while (fun c => (c =? hash)%N) line)
      else line
  | [] => []
  end.

Definition para_sep : list N := [nl; nl].

(** Loop state of the paragraph packing in [flush]. *)
Record pack := mkPack {
  chunks : list Chunk.t;
  buf : list N;
  bufStart : Z;
  lineOffset : Z
}.

(** The chunk pushed when the buffer is closed inside the loop. *)
Definition buf_chunk (filePath : list N) (current : Current.t)
    (buf : list N) (bufStart : Z) : Chunk.t :=
  Chunk.mk (trim buf) filePath bufStart
    (bufStart + Z.of_nat (length (split_lines buf)) - 1)
    (Current.heading current).

(** [buf += (buf ? '\n\n' : '') + para] *)
Definition append_para (buf para : list N) : list N :=
  match buf with
  | [] => para
  | _ :: _ => buf ++ para_sep ++ para
  end.

(** One iteration of [for (const para of paragraphs)]. *)
Definition pack_para (filePath : list N) (current : Current.t)
    (st : pack) (para : list N) : pack :=
  let st1 :=
    if (maxChars <? length (buf st) + length para)%nat
       && (100 <? length (buf st))%nat
    then mkPack (chunks st ++ [buf_chunk filePath current (buf st) (bufStart st)])
                []
                (Current.startLine current + lineOffset st)
                (lineOffset st)
    else st in
  mkPack (chunks st1)
         (append_para (buf st1) para)
         (bufStart st1)
         (lineOffset st1 + Z.of_nat (length (split_lines para)) + 1).

(** The trimmed text of the section. *)
Definition content (current : Current.t) : list N :=
  trim (join [nl] (Current.lines current)).

Definition last_line (current : Current.t) : Z :=
  Current.startLine current + Z.of_nat (length (Current.lines current)) - 1.

(** [flush()]: appends the chunks of [current] to [chunks]. *)
Definition flush (filePath : list N) (chunks0 : list Chunk.t)
    (current : Current.t) : list Chunk.t :=
  let content := content current in
  if (length content <? 20)%nat then chunks0
  else if (maxChars <? length content)%nat then
    let st := fold_left (pack_para filePath current)
                (split_paragraphs content)
                (mkPack chunks0 [] (Current.startLine current) 0) in
    if (20 <? length (trim (buf st)))%nat
    then chunks st ++
         [Chunk.mk (trim (buf st)) filePath (bufStart st)
            (last_line current) (Current.heading current)]
    else chunks st
  else chunks0 ++
       [Chunk.mk content filePath (Current.startLine current)
          (last_line current) (Current.heading current)].

(** The [for] loop over the lines; [i] is the 0-based index of the head of
    [lines], and the final [flush()] is the empty case. *)
Fixpoint chunk_lines (filePath : list N) (i : Z) (lines : list (list N))
    (chunks0 : list Chunk.t) (current : Current.t) : list Chunk.t :=
  match lines with
  | [] => flush filePath chunks0 current
  | line :: rest =>
      if heading_re line
         && negb (length (Current.lines current) =? 0)%nat
      then chunk_lines filePath (i + 1) rest
             (flush filePath chunks0 current)
             (Current.mk [line] (i + 1) (strip_heading line))
      else chunk_lines filePath (i + 1) rest chunks0
             (Current.mk (Current.lines current ++ [line])
                (Current.startLine current) (Current.heading current))
  end.

Definition chunkMarkdown (text filePath : list N) : list Chunk.t :=
  chunk_lines filePath 0 (split_lines text) [] (Current.mk [] 1 []).

(** ** Store records, files and effects (lib.js) *)

(** [ensureDataDir] only creates the data directory and is left out; so is
    the reading of the API key, whose failure is a failure of the provider
    call. *)

(** A similarity vector: an array of binary64 numbers. *)
Abbreviation vector := (list float).

(** The [id] of a stored record; the three templates of the sources:
    [file:startLine], [ingest:source:i], [session:sessionId:timestamp:i]. *)
Inductive doc_id :=
| FileId (file : list N) (startLine : Z)
| IngestId (source : list N) (i : nat)
| SessionId (sessionId : list N) (timestamp : Z) (i : nat).

(** [allNewMeta] entries of ingest-sessions.js. *)
Module SessionMeta.
Record t := mk {
  source : list N;
  label : list N;
  sessionId : list N;
  timestamp : Z
}.
End SessionMeta.

(** A record of vectors.json.  [vector] is [None] when [embeddings[i]] was
    undefined (the key is then dropped by [JSON.stringify]). *)
Module Doc.
Record t := mk {
  id : doc_id;
  file : list N;
  startLine : Z;
  endLine : Z;
  heading : list N;
  text : list N;
  vector : option vector;
  indexedAt : Z;
  meta : option SessionMeta.t
}.
End Doc.

(** A JSON file of the data directory: absent, present with a text that
    [JSON.parse] rejects, or present with the value it parses to. *)
Inductive disk (A : Type) :=
| Missing
| Corrupt
| Stored (a : A).
Arguments Missing {A}.
Arguments Corrupt {A}.
Arguments Stored {A} a.

(** The exceptions that reach [main().catch]. *)
Inductive error :=
| SyntaxError     (* JSON.parse *)
| EmbeddingError  (* the provider call rejected *)
| TypeError.      (* a property read on undefined *)

(** A value, or an exception thrown. *)
Inductive result (A : Type) :=
| Ok (a : A)
| Threw (e : error).
Arguments Ok {A} a.
Arguments Threw {A} e.

(** Per-session entry of session-ingest-state.json. *)
Module FileState.
Record t := mk {
  mtime : Z;
  offset : nat
}.
End FileState.

(** What session-ingest-state.json parses to: either field may be absent. *)
Module StateJson.
Record t := mk {
  files : option (gmap (list N) FileState.t);
  lastRun : option Z
}.
End StateJson.

(** What a run does to the outside, in order. *)
Inductive event :=
| Request (input : list (list N))   (* openai.embeddings.create *)
| WriteIndex                        (* writeFileSync(INDEX_FILE) *)
| WriteMeta                         (* writeFileSync(META_FILE) *)
| WriteState.                       (* writeFileSync(STATE_FILE) *)

(** The data directory and the log of effects. *)
Record world := mkWorld {
  index_file : disk (list Doc.t);
  meta_file : disk (gmap (list N) Z);
  state_file : disk StateJson.t;
  events : list event
}.

(** The embedding provider: one call of [openai.embeddings.create] on a
    batch, [None] when the call rejects. *)
Definition provider := list (list N) -> option (list vector).

Definition emit (e : event) (w : world) : world :=
  mkWorld (index_file w) (meta_file w) (state_file w) (events w ++ [e]).

Definition loadIndex (w : world) : result (list Doc.t) :=
  match index_file w with
  | Missing => Ok []
  | Corrupt => Threw SyntaxError
  | Stored docs => Ok docs
  end.

Definition saveIndex (docs : list Doc.t) (w : world) : world :=
  mkWorld (Stored docs) (meta_file w) (state_file w) (events w ++ [WriteIndex]).

(** file-meta.json maps a relative path to [{ mtime }]. *)
Definition loadFileMeta (w : world) : result (gmap (list N) Z) :=
  match meta_file w with
  | Missing => Ok ∅
  | Corrupt => Threw SyntaxError
  | Stored fileMeta => Ok fileMeta
  end.

Definition saveFileMeta (fileMeta : gmap (list N) Z) (w : world) : world :=
  mkWorld (index_file w) (Stored fileMeta) (state_file w) (events w ++ [WriteMeta]).

(** The slices [l.slice(i, i + size)] for [i = 0, size, 2 size, ...]
    below [l.length]. *)
Fixpoint slices {A : Type} (size n : nat) (l : list A) : list (list A) :=
  match n with
  | O => []
  | S n' => firstn size l :: slices size n' (skipn size l)
  end.

Definition in_batches {A : Type} (size : nat) (l : list A) : list (list A) :=
  slices size ((length l + size - 1) / size)%nat l.

Definition BATCH_SIZE : nat := 100.

(** The bound of [text.slice(0, 8000)] in the three ingestion sources. *)
Definition EMBED_CHARS : nat := Z.to_nat 8000.

(** The loop of [getEmbeddings] over its batches: sequential, the first
    rejected call ends it. *)
Fixpoint embed_batches (create : provider) (batches : list (list (list N)))
    (w : world) : option (list vector) * world :=
  match batches with
  | [] => (Some [], w)
  | batch :: rest =>
      let w1 := emit (Request batch) w in
      match create batch with
      | None => (None, w1)
      | Some data =>
          let '(r, w2) := embed_batches create rest w1 in
          (option_map (fun more => data ++ more) r, w2)
      end
  end.

Definition getEmbeddings (create : provider) (texts : list (list N))
    (w : world) : option (list vector) * world :=
  embed_batches create (in_batches BATCH_SIZE texts) w.

(** [const [emb] = await getEmbeddings([text])]. *)
Definition getEmbedding (create : provider) (text : list N)
    (w : world) : option (option vector) * world :=
  let '(r, w1) := getEmbeddings create [text] w in
  (option_map (fun embs => List.hd_error embs) r, w1).

(** The loop of [cosineSimilarity]: [b[i]] is NaN past the end of [b]. *)
Fixpoint cosine_sums (a b : vector) (dot na nb : float) : float * float * float :=
  match a with
  | [] => (dot, na, nb)
  | x :: a' =>
      let y := List.hd nan b in
      cosine_sums a' (List.tl b) (dot + x * y)%float (na + x * x)%float (nb + y * y)%float
  end.

Definition cosine (a b : vector) : float :=
  let '(dot, na, nb) := cosine_sums a b 0%float 0%float 0%float in
  (dot / (sqrt na * sqrt nb))%float.

(** [cosineSimilarity(a, b)]; reading [b[i]] throws when [b] is undefined
    and the loop runs at least once. *)
Definition cosineSimilarity (a : vector) (b : option vector) : result float :=
  match b with
  | Some b => Ok (cosine a b)
  | None => match a with
            | [] => Ok (cosine [] [])
            | _ :: _ => Threw TypeError
            end
  end.

(** ** Workspace indexer (index.js) *)

(** A file found by [findFiles], with what [statSync] and [readFileSync]
    return for it.  [relPath] is its path relative to the workspace. *)
Module Crawled.
Record t := mk {
  relPath : list N;
  mtime : Z;
  content : list N
}.
End Crawled.

(** The object that index.js prints when [main] ends normally. *)
Inductive index_report :=
| NoFilesChanged (totalChunks : nat)
| NoContent (totalChunks : nat)
| Indexed (filesIndexed chunksAdded totalChunks : nat) (files : list (list N)).

Module Index.

(** [!full && fileMeta[relPath] && fileMeta[relPath].mtime >= mtime] *)
Definition unchanged (full : bool) (fileMeta : gmap (list N) Z)
    (f : Crawled.t) : bool :=
  negb full &&
  match fileMeta !! Crawled.relPath f with
  | Some tracked => (Crawled.mtime f <=? tracked)
  | None => false
  end.

Definition toIndex (full : bool) (fileMeta : gmap (list N) Z)
    (files : list Crawled.t) : list Crawled.t :=
  List.filter (fun f => negb (unchanged full fileMeta f)) files.

Definition currentFiles (files : list Crawled.t) : gset (list N) :=
  list_to_set (List.map Crawled.relPath files).

Definition reindexPaths (toIndex : list Crawled.t) : gset (list N) :=
  list_to_set (List.map Crawled.relPath toIndex).

(** [existingDocs.filter(d => !reindexPaths.has(d.file) && currentFiles.has(d.file))] *)
Definition keptDocs (reindex current : gset (list N))
    (existingDocs : list Doc.t) : list Doc.t :=
  List.filter
    (fun d => negb (bool_decide (Doc.file d ∈ reindex))
              && bool_decide (Doc.file d ∈ current))
    existingDocs.

Definition allChunks (toIndex : list Crawled.t) : list Chunk.t :=
  List.flat_map
    (fun f => chunkMarkdown (Crawled.content f) (Crawled.relPath f))
    toIndex.

(** [allChunks.map((chunk, i) => ({ ... }))], from index [i] on. *)
Fixpoint newDocs_from (now : Z) (embeddings : list vector) (i : nat)
    (chunks : list Chunk.t) : list Doc.t :=
  match chunks with
  | [] => []
  | chunk :: rest =>
      Doc.mk (FileId (Chunk.file chunk) (Chunk.startLine chunk))
             (Chunk.file chunk) (Chunk.startLine chunk) (Chunk.endLine chunk)
             (Chunk.heading chunk) (Chunk.text chunk)
             (nth_error embeddings i) now None
      :: newDocs_from now embeddings (S i) rest
  end.

(** The tracker written at the end: entries of absent files deleted, the
    indexed files set to their current modification time. *)
Definition newMeta (fileMeta : gmap (list N) Z) (current : gset (list N))
    (toIndex : list Crawled.t) : gmap (list N) Z :=
  fold_left
    (fun m f => <[Crawled.relPath f := Crawled.mtime f]> m)
    toIndex
    (filter (fun kv => kv.1 ∈ current) fileMeta).

(** [main()], after the arguments are read: [full] is the [--full] flag,
    [files] the crawl in the order of [findFiles], [now] the reading of
    [Date.now()]. *)
Definition main (full : bool) (files : list Crawled.t) (create : provider)
    (now : Z) (w : world) : result index_report * world :=
  match (if full then Ok ∅ else loadFileMeta w) with
  | Threw e => (Threw e, w)
  | Ok fileMeta =>
  match (if full then Ok [] else loadIndex w) with
  | Threw e => (Threw e, w)
  | Ok existingDocs =>
      let toIndex := toIndex full fileMeta files in
      let currentFiles := currentFiles files in
      match toIndex with
      | [] => (Ok (NoFilesChanged (length existingDocs)), w)
      | _ :: _ =>
          let keptDocs := keptDocs (reindexPaths toIndex) currentFiles existingDocs in
          let allChunks := allChunks toIndex in
          match allChunks with
          | [] => (Ok (NoContent (length keptDocs)), saveIndex keptDocs w)
          | _ :: _ =>
              let texts := List.map (fun c => slice0 EMBED_CHARS (Chunk.text c)) allChunks in
              match getEmbeddings create texts w with
              | (None, w1) => (Threw EmbeddingError, w1)
              | (Some embeddings, w1) =>
                  let newDocs := newDocs_from now embeddings 0 allChunks in
                  let finalDocs := keptDocs ++ newDocs in
                  let w2 := saveIndex finalDocs w1 in
                  let w3 := saveFileMeta (newMeta fileMeta currentFiles toIndex) w2 in
                  (Ok (Indexed (length toIndex) (length newDocs)
                         (length finalDocs)
                         (List.map Crawled.relPath toIndex)), w3)
              end
          end
      end
  end
  end.

End Index.

(** ** Ad-hoc ingestion (ingest.js) *)

(** The object that ingest.js prints when [main] ends normally. *)
Inductive ingest_report :=
| NoContentToIngest
| Ingested (chunksIngested totalChunks : nat).

Module Ingest.

Definition ingest_source (source : list N) : list N := js "ingest:" ++ source.

Fixpoint newDocs_from (now : Z) (source : list N) (embeddings : list vector)
    (i : nat) (chunks : list Chunk.t) : list Doc.t :=
  match chunks with
  | [] => []
  | chunk :: rest =>
      Doc.mk (IngestId source i) (ingest_source source)
             (Chunk.startLine chunk) (Chunk.endLine chunk)
             (Chunk.heading chunk) (Chunk.text chunk)
             (nth_error embeddings i) now None
      :: newDocs_from now source embeddings (S i) rest
  end.

(** [main()], with [source] and [text] as they stand after the arguments
    and the optional file are read. *)
Definition main (source text : list N) (create : provider) (now : Z)
    (w : world) : result ingest_report * world :=
  let chunks := chunkMarkdown text (ingest_source source) in
  match chunks with
  | [] => (Ok NoContentToIngest, w)
  | _ :: _ =>
      match getEmbeddings create
              (List.map (fun c => slice0 EMBED_CHARS (Chunk.text c)) chunks) w with
      | (None, w1) => (Threw EmbeddingError, w1)
      | (Some embeddings, w1) =>
          match loadIndex w1 with
          | Threw e => (Threw e, w1)
          | Ok docs =>
              let filtered :=
                List.filter
                  (fun d => negb (bool_decide (Doc.file d = ingest_source source)))
                  docs in
              let newDocs := newDocs_from now source embeddings 0 chunks in
              (Ok (Ingested (length newDocs) (length filtered + length newDocs)),
               saveIndex (filtered ++ newDocs) w1)
          end
      end
  end.

End Ingest.

(** ** Session ingestion (ingest-sessions.js) *)

(** [msg.content]: a string, an array of parts, another truthy value, or
    nothing. *)
Module Part.
Record t := mk {
  type : list N;
  text : option (list N)
}.
End Part.

Inductive content_t :=
| CString (s : list N)
| CParts (parts : list Part.t)
| CObject
| CAbsent.

Module Message.
Record t := mk {
  role : list N;
  content : content_t;
  _timestamp : option Z;
  _id : option (list N)
}.
End Message.

(** A JSON object read from a line of a transcript.  An absent string
    field is the empty string. *)
Module Entry.
Record t := mk {
  type : list N;
  message : option Message.t;
  role : list N;
  content : content_t;
  timestamp : option Z;
  id : option (list N)
}.
End Entry.

(** A line of a transcript: blank, rejected by [JSON.parse], or an object. *)
Inductive jsonl_line :=
| Blank
| Malformed
| Json (entry : Entry.t).

(** An entry of sessions.json under its key.  An absent [sessionId] is the
    empty string. *)
Module IndexEntry.
Record t := mk {
  key : list N;
  sessionId : list N
}.
End IndexEntry.

(** A transcript file on disk. *)
Module Jsonl.
Record t := mk {
  mtimeMs : Z;
  lines : list jsonl_line
}.
End Jsonl.

(** The sessions directory: sessions.json and the transcripts by session
    identifier. *)
Record sessions_dir := mkSessions {
  sessions_index : disk (list IndexEntry.t);
  transcripts : gmap (list N) Jsonl.t
}.

(** An element of [getActiveSessionFiles()]; [lines] stands for the file at
    [path]. *)
Module SessionFile.
Record t := mk {
  key : list N;
  sessionId : list N;
  lines : list jsonl_line;
  mtime : Z;
  label : list N
}.
End SessionFile.

(** The state object in memory. *)
Module State.
Record t := mk {
  files : gmap (list N) FileState.t;
  lastRun : option Z
}.
End State.

(** The object that ingest-sessions.js prints when [main] ends normally. *)
Inductive sessions_report :=
| Skipped
| NoActiveSessions
| NoNewMessages (sessions : nat)
| SessionsIngested (chunksIngested totalIndex sessionsChecked : nat).

Module IngestSessions.

(** [{ files: {}, lastRun: 0 }] *)
Definition default_state : State.t := State.mk ∅ (Some 0).

(** [loadState()]: an absent file and a file that [JSON.parse] rejects
    both give the default state; a state without [files] gets an empty
    one. *)
Definition loadState (w : world) : State.t :=
  match state_file w with
  | Missing => default_state
  | Corrupt => default_state
  | Stored s =>
      State.mk (default ∅ (StateJson.files s)) (StateJson.lastRun s)
  end.

(** [saveState(state)]: sets [lastRun] to the clock and writes the state. *)
Definition saveState (now : Z) (state : State.t) (w : world) : world :=
  mkWorld (index_file w) (meta_file w)
    (Stored (StateJson.mk (Some (State.files state)) (Some now)))
    (events w ++ [WriteState]).

(** The recency window of [getActiveSessionFiles]: 24 hours. *)
Definition day_ms : Z := 24 * 60 * 60 * 1000.

(** The body of the loop over [Object.entries(index)]: an entry without
    [sessionId], without transcript, or with a transcript older than the
    cutoff is passed over. *)
Definition active_file (now : Z) (dir : sessions_dir) (e : IndexEntry.t)
    : option SessionFile.t :=
  match IndexEntry.sessionId e with
  | [] => None
  | sid =>
      match transcripts dir !! sid with
      | None => None
      | Some f =>
          if Jsonl.mtimeMs f <? now - day_ms then None
          else Some (SessionFile.mk (IndexEntry.key e) sid (Jsonl.lines f)
                       (Jsonl.mtimeMs f)
                       (replace_first (js "agent:main:") [] (IndexEntry.key e)))
      end
  end.

(** [getActiveSessionFiles()]: sessions.json is parsed without a guard. *)
Definition getActiveSessionFiles (now : Z) (dir : sessions_dir)
    : result (list SessionFile.t) :=
  match sessions_index dir with
  | Missing => Ok []
  | Corrupt => Threw SyntaxError
  | Stored index => Ok (omap (active_file now dir) index)
  end.

(** The truth value of [entry.content]. *)
Definition truthy (c : content_t) : bool :=
  match c with
  | CString [] => false
  | CAbsent => false
  | _ => true
  end.

(** The body of the loop of [parseJSONL]: the enveloped shape
    [{ type: "message", message }], else the flat shape [{ role, content }],
    else nothing; a line that does not parse is skipped. *)
Definition parse_line (l : jsonl_line) : option Message.t :=
  match l with
  | Json entry =>
      match Entry.message entry with
      | Some msg =>
          if bool_decide (Entry.type entry = js "message")
          then Some (Message.mk (Message.role msg) (Message.content msg)
                       (Entry.timestamp entry) (Entry.id entry))
          else if negb (bool_decide (Entry.role entry = []))
                  && truthy (Entry.content entry)
          then Some (Message.mk (Entry.role entry) (Entry.content entry) None None)
          else None
      | None =>
          if negb (bool_decide (Entry.role entry = []))
             && truthy (Entry.content entry)
          then Some (Message.mk (Entry.role entry) (Entry.content entry) None None)
          else None
      end
  | Blank | Malformed => None
  end.

(** [parseJSONL(filePath)], on the lines of the file. *)
Definition parseJSONL (lines : list jsonl_line) : list Message.t :=
  omap parse_line lines.

(** [extractText(content)] *)
Definition extractText (content : content_t) : list N :=
  match content with
  | CString s => s
  | CParts parts =>
      join [nl]
        (List.map (fun c => default [] (Part.text c))
           (List.filter (fun c => bool_decide (Part.type c = js "text")) parts))
  | CObject | CAbsent => []
  end.

(** [shouldSkipMessage(msg)] *)
Definition shouldSkipMessage (msg : Message.t) : bool :=
  if bool_decide (Message.role msg = js "toolResult")
     || bool_decide (Message.role msg = js "tool")
     || bool_decide (Message.role msg = js "system")
  then true
  else
    let content := extractText (Message.content msg) in
    if (length content <? 10)%nat then true
    else if includes (js "HEARTBEAT_OK") content then true
    else if includes (js "Read HEARTBEAT.md if it exists") content then true
    else if bool_decide (trim content = js "NO_REPLY") then true
    else false.

(** [formatMsg(msg, label)] *)
Definition formatMsg (msg : Message.t) (label : list N) : list N :=
  let role :=
    if bool_decide (Message.role msg = js "user") then js "Human" else js "Assistant" in
  let content := extractText (Message.content msg) in
  let truncated :=
    if (2000 <? length content)%nat then slice0 2000 content ++ js "..."
    else content in
  js "[" ++ label ++ js "] " ++ role ++ js ": " ++ truncated.

Definition MSGS_PER_CHUNK : nat := 5.

(** The messages picked by the loop [for (let i = lastOffset; ...)]. *)
Definition newMessages (lastOffset : nat) (messages : list Message.t)
    : list Message.t :=
  List.filter (fun msg => negb (shouldSkipMessage msg)) (skipn lastOffset messages).

(** The texts pushed to [allNewTexts] for one file. *)
Definition chunkTexts (label : list N) (newMessages : list Message.t)
    : list (list N) :=
  List.filter (fun chunkText => negb (length chunkText <? 30)%nat)
    (List.map
       (fun batch => join para_sep (List.map (fun m => formatMsg m label) batch))
       (in_batches MSGS_PER_CHUNK newMessages)).

(** The accumulators of the loop over the session files. *)
Record acc := mkAcc {
  state : State.t;
  allNewTexts : list (list N);
  allNewMeta : list SessionMeta.t
}.

(** [fileState.mtime || 0] and [fileState.offset || 0], where [fileState]
    is [(state.files || {})[sf.sessionId] || {}]. *)
Definition lastMtime (state : State.t) (sid : list N) : Z :=
  match State.files state !! sid with
  | Some fileState => FileState.mtime fileState
  | None => 0
  end.

Definition lastOffset (state : State.t) (sid : list N) : nat :=
  match State.files state !! sid with
  | Some fileState => FileState.offset fileState
  | None => O
  end.

(** [state.files[sf.sessionId] = fileState] *)
Definition set_file (state : State.t) (sid : list N) (fileState : FileState.t)
    : State.t :=
  State.mk (<[sid := fileState]> (State.files state)) (State.lastRun state).

(** The body of [for (const sf of sessionFiles)]. *)
Definition ingest_file (now : Z) (a : acc) (sf : SessionFile.t) : acc :=
  let sid := SessionFile.sessionId sf in
  if SessionFile.mtime sf <=? lastMtime (state a) sid then a
  else
    let messages := parseJSONL (SessionFile.lines sf) in
    let newMessages := newMessages (lastOffset (state a) sid) messages in
    let state' :=
      set_file (state a) sid (FileState.mk (SessionFile.mtime sf) (length messages)) in
    match newMessages with
    | [] => mkAcc state' (allNewTexts a) (allNewMeta a)
    | _ :: _ =>
        let texts := chunkTexts (SessionFile.label sf) newMessages in
        mkAcc state'
          (allNewTexts a ++ texts)
          (allNewMeta a ++
           List.map
             (fun _ => SessionMeta.mk (js "session:" ++ sid)
                         (SessionFile.label sf) sid now)
             texts)
    end.

(** [allNewTexts.map((text, i) => ({ ... }))], from index [i] on.  [iso]
    renders [new Date(timestamp).toISOString().slice(0, 16)].  The sources
    read [allNewMeta[i]]; both lists grow together, so the walk is over
    their pairs. *)
Fixpoint newDocs_from (iso : Z -> list N) (now : Z) (embeddings : list vector)
    (i : nat) (texts : list (list N * SessionMeta.t)) : list Doc.t :=
  match texts with
  | [] => []
  | (text, m) :: rest =>
      Doc.mk (SessionId (SessionMeta.sessionId m) (SessionMeta.timestamp m) i)
             (SessionMeta.source m) 0 0
             (js "Chat: " ++ SessionMeta.label m ++ js " ("
                ++ iso (SessionMeta.timestamp m) ++ js ")")
             text (nth_error embeddings i) now (Some m)
      :: newDocs_from iso now embeddings (S i) rest
  end.

(** [main()]: [now] is the clock, [dir] the sessions directory. *)
Definition main (iso : Z -> list N) (dir : sessions_dir) (create : provider)
    (now : Z) (w : world) : result sessions_report * world :=
  let state := loadState w in
  if match State.lastRun state with
     | Some lastRun => now - lastRun <? 50000
     | None => false
     end
  then (Ok Skipped, w)
  else
    match getActiveSessionFiles now dir with
    | Threw e => (Threw e, w)
    | Ok [] => (Ok NoActiveSessions, saveState now state w)
    | Ok ((_ :: _) as sessionFiles) =>
        let a := fold_left (ingest_file now) sessionFiles (mkAcc state [] []) in
        match allNewTexts a with
        | [] => (Ok (NoNewMessages (length sessionFiles)), saveState now (IngestSessions.state a) w)
        | _ :: _ =>
            let truncated := List.map (slice0 EMBED_CHARS) (allNewTexts a) in
            match getEmbeddings create truncated w with
            | (None, w1) => (Threw EmbeddingError, w1)
            | (Some embeddings, w1) =>
                match loadIndex w1 with
                | Threw e => (Threw e, w1)
                | Ok docs =>
                    let newDocs :=
                      newDocs_from iso now embeddings 0
                        (combine (allNewTexts a) (allNewMeta a)) in
                    let w2 := saveIndex (docs ++ newDocs) w1 in
                    (Ok (SessionsIngested (length newDocs)
                           (length docs + length newDocs)
                           (length sessionFiles)),
                     saveState now (IngestSessions.state a) w2)
                end
            end
        end
    end.

End IngestSessions.

(** ** Search (search.js) *)

Module Scored.
Record t := mk {
  file : list N;
  startLine : Z;
  endLine : Z;
  heading : list N;
  score : float;
  preview : list N
}.
End Scored.

(** The object that search.js prints when [main] ends normally. *)
Inductive search_report :=
| IndexEmpty
| Results (query : list N) (results : list Scored.t) (totalIndexed : nat).

Module Search.

(** [docs.map(doc => ({ ..., score: cosineSimilarity(queryVec, doc.vector), ... }))] *)
Fixpoint scored (queryVec : vector) (docs : list Doc.t) : result (list Scored.t) :=
  match docs with
  | [] => Ok []
  | doc :: rest =>
      match cosineSimilarity queryVec (Doc.vector doc) with
      | Threw e => Threw e
      | Ok s =>
          match scored queryVec rest with
          | Threw e => Threw e
          | Ok more =>
              Ok (Scored.mk (Doc.file doc) (Doc.startLine doc) (Doc.endLine doc)
                    (Doc.heading doc) s (slice0 300 (Doc.text doc)) :: more)
          end
      end
  end.

(** The comparator [(a, b) => b.score - a.score]. *)
Definition comparefn (a b : Scored.t) : float :=
  (Scored.score b - Scored.score a)%float.

(** [a] has to move behind [b]: the comparator is positive.  A NaN result
    counts as [+0] (SortCompare of ECMAScript), so it is not. *)
Definition sorts_after (a b : Scored.t) : bool :=
  (0 <? comparefn a b)%float.

(** [Array.prototype.sort] as a stable insertion sort: each element, taken
    in array order, moves towards the front past the elements that the
    comparator puts strictly behind it.  [before] holds the part already
    sorted, nearest element first.  For a consistent comparator every
    stable sort yields this list; for an inconsistent one (NaN scores)
    ECMAScript leaves the order to the engine. *)
Fixpoint sift (x : Scored.t) (before : list Scored.t) : list Scored.t :=
  match before with
  | [] => [x]
  | y :: ys => if sorts_after y x then y :: sift x ys else x :: y :: ys
  end.

Definition sort (l : list Scored.t) : list Scored.t :=
  rev (fold_left (fun before x => sift x before) l []).

(** [l.slice(0, limit)]: a negative [limit] counts from the end.  A NaN
    [limit] (from [parseInt]) acts as [0]. *)
Definition slice_to {A : Type} (limit : Z) (l : list A) : list A :=
  if limit <? 0 then firstn (Z.to_nat (Z.of_nat (length l) + limit)) l
  else firstn (Z.to_nat limit) l.

(** [scored.filter(r => r.score >= minScore).slice(0, limit)] after the sort. *)
Definition results (limit : Z) (minScore : float) (scored : list Scored.t)
    : list Scored.t :=
  slice_to limit
    (List.filter (fun r => (minScore <=? Scored.score r)%float) (sort scored)).

(** [main()], with the query (not empty) and the options as read from the
    arguments. *)
Definition main (query : list N) (limit : Z) (minScore : float)
    (create : provider) (w : world) : result search_report * world :=
  match loadIndex w with
  | Threw e => (Threw e, w)
  | Ok [] => (Ok IndexEmpty, w)
  | Ok ((_ :: _) as docs) =>
      match getEmbedding create query w with
      | (None, w1) => (Threw EmbeddingError, w1)
      | (Some None, w1) => (Threw TypeError, w1)
      | (Some (Some queryVec), w1) =>
          match scored queryVec docs with
          | Threw e => (Threw e, w1)
          | Ok scored =>
              (Ok (Results query (results limit minScore scored) (length docs)), w1)
          end
      end
  end.

End Search.

(** ** Configuration (lib.js) *)

(** The reading of the API key and the detection of the workspace, on
    their own: the pipelines above do not depend on them. *)

(** [process.env]: a variable that is not set has no entry. *)
Abbreviation env := (gmap (list N) (list N)).

Module Env.

(** The classes [[A-Z_]] and [[A-Z0-9_]]. *)
Definition name_start (c : N) : bool :=
  ((65 <=? c) && (c <=? 90) || (c =? 95))%N.

Definition name_char (c : N) : bool :=
  (name_start c || (48 <=? c) && (c <=? 57))%N.

(** [.] in a regular expression without the [s] flag: any code unit but
    a line terminator. *)
Definition dot (c : N) : bool :=
  negb ((c =? 10) || (c =? 13) || (c =? 8232) || (c =? 8233))%N.

(** The longest run of name characters at the start of [s], and what
    follows it. *)
Fixpoint span_name (s : list N) : list N * list N :=
  match s with
  | c :: s' =>
      if name_char c
      then let '(name, rest) := span_name s' in (c :: name, rest)
      else ([], s)
  | [] => ([], [])
  end.

(** [line.match(re)], where [re] is anchored at both ends and reads: a
    name (one of [A-Z_], then any number of [A-Z0-9_]), the sign [=], and
    any characters as the value.  The groups are the name and the value.
    The character after the name has to be [=], which is not a name
    character, so the name is the longest run of name characters; the
    value runs to the end of the line (the end anchor, without the [m]
    flag) and holds no line terminator. *)
Definition match_line (line : list N) : option (list N * list N) :=
  match line with
  | c :: s =>
      if name_start c then
        let '(name, rest) := span_name s in
        match rest with
        | e :: value =>
            if (e =? 61)%N && forallb dot value
            then Some (c :: name, value)
            else None
        | [] => None
        end
      else None
  | [] => None
  end.

Definition is_quote (c : N) : bool := ((c =? 34) || (c =? 39))%N.

(** [value.replace(re, '')], where the global [re] matches a single or
    double quote at the start or at the end of the string: a quote at the
    start is removed, and so is a quote at the end of what is left. *)
Definition strip_quotes (value : list N) : list N :=
  let rest :=
    match value with
    | c :: value' => if is_quote c then value' else value
    | [] => []
    end in
  match rev rest with
  | c :: r => if is_quote c then rev r else rest
  | [] => []
  end.

(** The truth value of [process.env[name]]: set, and not empty. *)
Definition is_set (e : env) (name : list N) : bool :=
  match e !! name with
  | Some (_ :: _) => true
  | _ => false
  end.

(** The body of the loop of [loadEnvFile]. *)
Definition load_line (e : env) (line : list N) : env :=
  match match_line line with
  | Some (name, value) =>
      if is_set e name then e else <[name := strip_quotes value]> e
  | None => e
  end.

(** [loadEnvFile(envPath)]; [file] is the content of the file at
    [envPath], [None] when there is no such file. *)
Definition loadEnvFile (file : option (list N)) (e : env) : env :=
  match file with
  | None => e
  | Some content => fold_left load_line (split_lines content) e
  end.

Definition OPENAI_API_KEY : list N := js "OPENAI_API_KEY".

(** [getOpenAI()], up to the construction of the client: the environment
    it leaves.  [envFiles] are the files at the three paths of [envPaths],
    in order. *)
Definition getOpenAI (envFiles : list (option (list N))) (e : env) : env :=
  if is_set e OPENAI_API_KEY then e
  else fold_left (fun e file => loadEnvFile file e) envFiles e.

(** The key given to the client: [process.env.OPENAI_API_KEY]. *)
Definition apiKey (e : env) : option (list N) := e !! OPENAI_API_KEY.

End Env.

(** What [detectWorkspace] returns: the value of the environment variable,
    or a directory. *)
Inductive workspace :=
| FromEnv (value : list N)
| Dir (dir : list (list N)).

Module Workspace.

(** A directory is the list of its components from the root;
    [path.dirname] drops the last one, and the root is its own parent. *)
Definition dirname (dir : list (list N)) : list (list N) := removelast dir.

(** [['AGENTS.md', 'SOUL.md'].some(f => fs.existsSync(path.join(dir, f)))
    || fs.existsSync(path.join(dir, 'memory'))] *)
Definition has_marker (existsSync : list (list N) -> bool)
    (dir : list (list N)) : bool :=
  existsSync (dir ++ [js "AGENTS.md"]) || existsSync (dir ++ [js "SOUL.md"])
  || existsSync (dir ++ [js "memory"]).

(** The loop [for (let i = 0; i < 10; i++)] with [n] iterations left. *)
Fixpoint walk_up (existsSync : list (list N) -> bool) (n : nat)
    (dir : list (list N)) : option (list (list N)) :=
  match n with
  | O => None
  | S n' =>
      if has_marker existsSync dir then Some dir
      else
        let parent := dirname dir in
        if bool_decide (parent = dir) then None
        else walk_up existsSync n' parent
  end.

Definition VECTOR_MEMORY_WORKSPACE : list N := js "VECTOR_MEMORY_WORKSPACE".

(** [detectWorkspace()]; [cwd] is [process.cwd()]. *)
Definition detectWorkspace (e : env) (existsSync : list (list N) -> bool)
    (cwd : list (list N)) : workspace :=
  match e !! VECTOR_MEMORY_WORKSPACE with
  | Some (c :: value) => FromEnv (c :: value)
  | _ =>
      match walk_up existsSync 10 cwd with
      | Some dir => Dir dir
      | None => Dir cwd
      end
  end.

End Workspace.

(** ** The crawl ([findFiles] of index.js) *)

Module Crawl.

(** [x < y] on strings: by code units, a proper prefix first. *)
Fixpoint str_ltb (x y : list N) : bool :=
  match x, y with
  | [], [] => false
  | [], _ :: _ => true
  | _ :: _, [] => false
  | a :: x', b :: y' => (a <? b)%N || (a =? b)%N && str_ltb x' y'
  end.

(** [files.add(f)] on a [Set], kept in insertion order. *)
Definition add (files : list (list N)) (f : list N) : list (list N) :=
  if existsb (fun g => bool_decide (g = f)) files then files else files ++ [f].

(** [Array.prototype.sort] without a comparator, as a stable insertion
    sort: [before] holds the part already sorted, nearest element first,
    and [x] moves towards the front past the strings greater than it.
    The strings of a [Set] are distinct and the order is total, so every
    sort yields the same list. *)
Fixpoint sift (x : list N) (before : list (list N)) : list (list N) :=
  match before with
  | [] => [x]
  | y :: ys => if str_ltb x y then y :: sift x ys else x :: y :: ys
  end.

Definition sort (l : list (list N)) : list (list N) :=
  rev (fold_left (fun before x => sift x before) l []).

(** [findFiles()]; [matches] holds what [glob] returns for each of the
    patterns, in order. *)
Definition findFiles (matches : list (list (list N))) : list (list N) :=
  sort (fold_left add (List.concat matches) []).

End Crawl.

(** * Auxiliary definitions for the statements *)

(** ** Chunker *)

(** The sections that [chunkMarkdown] flushes, in order: the values of
    [current] at each call of [flush()]. *)
Fixpoint sections_from (i : Z) (lines : list (list N)) (current : Current.t)
    : list Current.t :=
  match lines with
  | [] => [current]
  | line :: rest =>
      if heading_re line
         && negb (length (Current.lines current) =? 0)%nat
      then current :: sections_from (i + 1) rest
                        (Current.mk [line] (i + 1) (strip_heading line))
      else sections_from (i + 1) rest
             (Current.mk (Current.lines current ++ [line])
                (Current.startLine current) (Current.heading current))
  end.

Definition sections (text : list N) : list Current.t :=
  sections_from 0 (split_lines text) (Current.mk [] 1 []).

(** The buffer after the paragraphs of [group] were appended to it in
    turn, starting from the empty buffer. *)
Definition pack_join (group : list (list N)) : list N :=
  fold_left append_para group [].

(** What the packing test lets through: a buffer that fits in [maxChars]
    plus one separator, or a buffer whose last paragraph was appended to at
    most 100 characters. *)
Definition packed_group (group : list (list N)) : Prop :=
  (length (pack_join group) <= maxChars + 2)%nat
  \/ exists init last,
       group = init ++ [last] /\ (length (pack_join init) <= 100)%nat.

(** [s] is the trimmed buffer of consecutive whole paragraphs of [paras]. *)
Definition made_of (paras : list (list N)) (s : list N) : Prop :=
  exists pre group post,
    paras = pre ++ group ++ post
    /\ s = trim (pack_join group)
    /\ packed_group group.

(** A chunk of a section is the trimmed section when that is short
    enough, and otherwise made of whole paragraphs of it. *)
Definition chunk_of (current : Current.t) (c : Chunk.t) : Prop :=
  ((length (content current) <= maxChars)%nat
   /\ Chunk.text c = content current)
  \/ made_of (split_paragraphs (content current)) (Chunk.text c).

(** The bound in characters: [s] fits in [maxChars] plus one separator, or
    it is at most 102 characters longer than one of the paragraphs. *)
Definition packed (paras : list (list N)) (s : list N) : Prop :=
  (length s <= maxChars + 2)%nat
  \/ exists para, In para paras /\ (length s <= length para + 102)%nat.

(** ** Data directory and effects *)

(** The files of the data directory. *)
Definition same_files (w w' : world) : Prop :=
  index_file w' = index_file w
  /\ meta_file w' = meta_file w
  /\ state_file w' = state_file w.

(** No record of the store has [p] as its source. *)
Definition evicted (p : list N) (w : world) : Prop :=
  exists docs, index_file w = Stored docs
               /\ forall d, In d docs -> Doc.file d <> p.

(** The tracker has no entry for [p]. *)
Definition untracked (p : list N) (w : world) : Prop :=
  exists fileMeta, meta_file w = Stored fileMeta /\ fileMeta !! p = None.

(** The log grew by requests to the provider only: no file was written. *)
Definition only_requests (w w' : world) : Prop :=
  exists sent, events w' = events w ++ List.map Request sent.

(** An effect that submits no text longer than 8000 characters. *)
Definition bounded_event (e : event) : Prop :=
  match e with
  | Request input => Forall (fun text => (length text <= EMBED_CHARS)%nat) input
  | _ => True
  end.

(** Every effect of the run from [w] to [w'] is bounded. *)
Definition submits_bounded (w w' : world) : Prop :=
  exists new, events w' = events w ++ new /\ Forall bounded_event new.

(** The offset stored for a session, as the next run will read it. *)
Definition offset_of (w : world) (sid : list N) : nat :=
  IngestSessions.lastOffset (IngestSessions.loadState w) sid.

(** The records of the store, as [loadIndex] returns them when it returns. *)
Definition store_docs (w : world) : list Doc.t :=
  match index_file w with
  | Stored docs => docs
  | Missing | Corrupt => []
  end.





(** ** IEEE 754 values *)

(** A zero of either sign, or NaN. *)
Definition zero_or_nan (x : spec_float) : Prop :=
  match x with
  | S754_zero _ | S754_nan => True
  | _ => False
  end.

(** An array whose components are all zero. *)
Definition all_zero (a : vector) : Prop :=
  Forall (fun x => PrimFloat.is_zero x = true) a.

(** [0 < x]: a positive finite value or [+infinity]. *)
Definition positive_sf (x : spec_float) : bool := SFltb (S754_zero false) x.

(** A key whose lexicographic order is the order of the values that are
    not NaN: the class (infinities, finite values by sign, zeros), then the
    exponent, then the mantissa, both negated for negative values. *)
Definition key (x : spec_float) : Z * Z * Z :=
  match x with
  | S754_infinity true => (-2, 0, 0)
  | S754_finite true m e => (-1, - e, Zneg m)
  | S754_zero _ | S754_nan => (0, 0, 0)
  | S754_finite false m e => (1, e, Zpos m)
  | S754_infinity false => (2, 0, 0)
  end.

(** The strict lexicographic order of keys, and the comparison of keys. *)
Definition lex_lt (a b : Z * Z * Z) : Prop :=
  a.1.1 < b.1.1
  \/ (a.1.1 = b.1.1 /\ (a.1.2 < b.1.2 \/ (a.1.2 = b.1.2 /\ a.2 < b.2))).

Definition lex (a b : Z * Z * Z) : comparison :=
  match a.1.1 ?= b.1.1 with
  | Eq => match a.1.2 ?= b.1.2 with
          | Eq => a.2 ?= b.2
          | c => c
          end
  | c => c
  end.

(** ** Ranking *)

(** Scores in descending order: no entry is followed by a larger score. *)
Definition descending (l : list Scored.t) : Prop :=
  StronglySorted
    (fun r1 r2 => (Scored.score r2 <=? Scored.score r1)%float = true) l.

(** The order of the part already sorted, nearest element first. *)
Definition ascending (l : list Scored.t) : Prop :=
  StronglySorted
    (fun r1 r2 => (Scored.score r1 <=? Scored.score r2)%float = true) l.

Definition no_nan (l : list Scored.t) : Prop :=
  Forall (fun r => PrimFloat.is_nan (Scored.score r) = false) l.

(** The entries whose score equals [s], in the order of [l]. *)
Definition ties (s : float) (l : list Scored.t) : list Scored.t :=
  List.filter (fun r => (Scored.score r =? s)%float) l.

(** ** Example inputs *)

(** Two paragraphs of 1500 characters each; a paragraph of 50 characters
    followed by one of 2990. *)
Definition two_paragraphs : list N :=
  repeat 97%N 1500 ++ para_sep ++ repeat 98%N 1500.

Definition short_then_long : list N :=
  repeat 97%N 50 ++ para_sep ++ repeat 98%N 2990.

Definition a_md : list N := js "a.md".
Definition b_md : list N := js "b.md".

Definition note_a : list N := js "# Alpha
The first note of the workspace.".
Definition note_b : list N := js "# Beta
The second note of the workspace.".

(** A provider that answers every text with the same vector, and one that
    rejects every call. *)
Definition unit_provider : provider :=
  fun batch => Some (List.map (fun _ => [1%float; 0%float]) batch).
Definition failing_provider : provider := fun _ => None.

Definition doc_of (file : list N) (text : list N) : Doc.t :=
  Doc.mk (FileId file 1) file 1 2 [] text (Some [1%float; 0%float]) 7 None.

(** A data directory that tracks a.md and b.md, both indexed at time 1. *)
Definition tracked_ab : world :=
  mkWorld (Stored [doc_of a_md note_a; doc_of b_md note_b])
          (Stored (<[a_md := 1]> (<[b_md := 1]> ∅)))
          Missing [].

Definition empty_dir : world := mkWorld Missing Missing Missing [].

(** A crawl whose only file is too short to yield a chunk. *)
Definition tiny_crawl : list Crawled.t := [Crawled.mk a_md 5 (js "hi")].

(** A session identifier, a transcript line said by the user, and a
    sessions directory with one transcript. *)
Definition sid1 : list N := js "s1".

Definition user_says (s : list N) : jsonl_line :=
  Json (Entry.mk (js "message")
          (Some (Message.mk (js "user") (CString s) None None))
          [] CAbsent (Some 1) None).

Definition one_session (mtime : Z) (lines : list jsonl_line) : sessions_dir :=
  mkSessions (Stored [IndexEntry.mk (js "agent:main:main") sid1])
             (<[sid1 := Jsonl.mk mtime lines]> ∅).

Definition iso_stub : Z -> list N := fun _ => js "2026-01-01T00:00".

Definition day1 : Z := 1000000.

Definition chat (n : N) : jsonl_line :=
  user_says (js "message number " ++ [(48 + n)%N] ++ js " of the session").

(** The data directory after a first run over a transcript of three
    messages, at time [day1 + 100000]. *)
Definition after_three : world :=
  snd (IngestSessions.main iso_stub
         (one_session day1 [chat 1; chat 2; chat 3])
         unit_provider (day1 + 100000) empty_dir).

(** A query of 8001 characters. *)
Definition long_query : list N := repeat 97%N (S EMBED_CHARS).

Definition entry (name : string) (score : float) : Scored.t :=
  Scored.mk (js name) 1 2 [] score [].

Definition vec_doc (name : string) (vec : vector) : Doc.t :=
  Doc.mk (FileId (js name) 1) (js name) 1 2 [] [] (Some vec) 7 None.

(** A store whose second record has a zero vector. *)
Definition store_with_zero : world :=
  mkWorld (Stored [vec_doc "a.md" [1; 1]%float;
                   vec_doc "b.md" [0; 0]%float;
                   vec_doc "c.md" [1; 0]%float])
          Missing Missing [].

(** ** Sections of a document *)

(** [body] is a section of the document whose lines are [all]: a block of
    consecutive lines that follows [pre] and is followed by [post].  No
    line of the block after its first is a heading line; the block starts
    at a heading line unless it is the first one; the line after the block,
    if any, is a heading line. *)
Definition section_block (all pre body post : list (list N)) : Prop :=
  all = pre ++ body ++ post
  /\ Forall (fun l => heading_re l = false) (tl body)
  /\ (pre <> [] -> heading_re (hd [] body) = true)
  /\ match post with [] => True | l :: _ => heading_re l = true end.

(** The heading recorded for a section: empty for the first block, else
    the text of the heading line that opens it. *)
Definition block_heading (pre body : list (list N)) : list N :=
  match pre with
  | [] => []
  | _ :: _ => strip_heading (hd [] body)
  end.

(** The section [cur], as [chunkMarkdown] holds it when it flushes it, is a
    block of the document: its lines, its start line and its heading. *)
Definition block_of (all : list (list N)) (cur : Current.t) : Prop :=
  exists pre post,
    section_block all pre (Current.lines cur) post
    /\ Current.startLine cur = Z.of_nat (length pre) + 1
    /\ Current.heading cur = block_heading pre (Current.lines cur).

(** A note with a title line and one subsection. *)
Definition two_sections : list N := js "# Title
The introduction of the note.
## Details
The details of the note, at length.".

(** ** Reports, occurrences and stores *)

(** The count printed as [totalChunks]. *)
Definition totalChunks (r : index_report) : nat :=
  match r with
  | NoFilesChanged n | NoContent n | Indexed _ _ n _ => n
  end.

(** [p] occurs in [s]. *)
Definition occurs (p s : list N) : Prop := exists pre post, s = pre ++ p ++ post.

(** A store of two records with orthogonal vectors. *)
Definition store_ab : world :=
  mkWorld (Stored [vec_doc "a.md" [0; 1]%float; vec_doc "b.md" [1; 0]%float])
          Missing Missing [].


(** ** Configuration *)

(** The value that [line] gives to [name], if it sets it. *)
Definition defines (name line : list N) : option (list N) :=
  match Env.match_line line with
  | Some (n, value) =>
      if bool_decide (n = name) then Some (Env.strip_quotes value) else None
  | None => None
  end.

(** The first value that is not empty among those that the lines of the
    file give to [name]. *)
Definition first_value (name : list N) (file : option (list N))
    : option (list N) :=
  match file with
  | None => None
  | Some content =>
      List.find (fun v => negb (bool_decide (v = [])))
        (omap (defines name) (split_lines content))
  end.

(** The ancestor of [dir] that is [k] levels up. *)
Definition ancestor (k : nat) (dir : list (list N)) : list (list N) :=
  Nat.iter k Workspace.dirname dir.

(** An environment file of three lines, and one with a carriage return at
    the end of each line. *)
Definition env_file : list N := js "# keys
OPENAI_API_KEY='sk-file'
HOME=/tmp".

Definition env_file_crlf : list N :=
  js "OPENAI_API_KEY=sk-file" ++ [13%N; 10%N] ++ js "HOME=/tmp" ++ [13%N; 10%N].

(** ** The crawl *)

(** The part already sorted is in descending order, nearest element
    first, without repetition. *)
Definition descending_strings (l : list (list N)) : Prop :=
  StronglySorted (fun x y => Crawl.str_ltb y x = true) l.

(** ** Line numbers of the chunks *)

(** The number of newlines of a string. *)
Definition count_nl (s : list N) : nat :=
  length (List.filter (fun c => (c =? nl)%N) s).

(** The lines that the packing loop counts for paragraphs: for each, its
    newlines and 2 (its lines and one more). *)
Definition para_cost (paras : list (list N)) : nat :=
  list_sum (List.map (fun p => (count_nl p + 2)%nat) paras).

(** [flush()] with chunks already pushed: the loop state carries them in
    front. *)
Definition with_chunks (cs : list Chunk.t) (st : pack) : pack :=
  mkPack (cs ++ chunks st) (buf st) (bufStart st) (lineOffset st).

(** The line range of a chunk lies within the lines of the section. *)
Definition within (current : Current.t) (c : Chunk.t) : Prop :=
  Current.startLine current <= Chunk.startLine c
  /\ Chunk.startLine c <= Chunk.endLine c
  /\ Chunk.endLine c <= last_line current.

(** ** Rejected requests *)

(** The provider rejected a request that the run from [w] to [w'] sent. *)
Definition rejected_request (create : provider) (w w' : world) : Prop :=
  exists batch,
    In (Request batch) (skipn (length (events w)) (events w'))
    /\ create batch = None.
(** * Properties *)

(** ** Strings *)

Lemma length_trimStart s : (length (trimStart s) <= length s)%nat.
Proof.
induction s as [|c s IH]; simpl; [lia|].
destruct (is_space c); simpl; lia.
Qed.

Lemma length_trim s : (length (trim s) <= length s)%nat.
Proof.
unfold trim, trimEnd. rewrite length_rev.
etransitivity; [apply length_trimStart|].
rewrite length_rev. apply length_trimStart.
Qed.

(** ** Chunk size (chunkMarkdown) *)

Lemma chunk_lines_sections filePath lines : forall i chunks0 current,
  chunk_lines filePath i lines chunks0 current
  = fold_left (flush filePath) (sections_from i lines current) chunks0.
Proof.
  induction lines as [|line rest IH]; intros i chunks0 current; simpl.
  - reflexivity.
  - destruct (heading_re line && _); simpl; apply IH.
Qed.

Lemma pack_join_snoc group para :
  pack_join (group ++ [para]) = append_para (pack_join group) para.
Proof. unfold pack_join. rewrite fold_left_app. reflexivity. Qed.

Lemma length_append_para buf para :
  (length (append_para buf para) <= length buf + 2 + length para)%nat.
Proof.
  destruct buf as [|b0 bs]; simpl; [lia|].
  rewrite !length_app. unfold para_sep. simpl. lia.
Qed.

Lemma made_of_mono paras para s : made_of paras s -> made_of (paras ++ [para]) s.
Proof.
  intros (pre & group & post & -> & Hs & Hg).
  exists pre, group, (post ++ [para]). rewrite <- !app_assoc. auto.
Qed.

(** The bound in characters follows from the shape of the buffer. *)
Lemma made_of_packed paras s : made_of paras s -> packed paras s.
Proof.
  intros (pre & group & post & -> & -> & Hg).
  pose proof (length_trim (pack_join group)) as Htrim.
  destruct Hg as [Hfit | (init & last & -> & Hinit)].
  - left. lia.
  - right. exists last. split.
    + apply in_or_app. right. apply in_or_app. left.
      apply in_or_app. right. left. reflexivity.
    + rewrite pack_join_snoc in *.
      pose proof (length_append_para (pack_join init) last). lia.
Qed.

(** The loop invariant of the packing: every chunk pushed so far is made
    of whole paragraphs among those consumed, and the buffer holds the
    last group of them. *)
Lemma pack_para_made_of filePath current chunks0 :
  forall paras done st,
    (forall c, In c (chunks st) -> In c chunks0 \/ made_of done (Chunk.text c)) ->
    (exists pre group,
        done = pre ++ group /\ buf st = pack_join group /\ packed_group group) ->
    let st' := fold_left (pack_para filePath current) paras st in
    (forall c, In c (chunks st') ->
       In c chunks0 \/ made_of (done ++ paras) (Chunk.text c))
    /\ exists pre group,
         done ++ paras = pre ++ group
         /\ buf st' = pack_join group /\ packed_group group.
Proof.
  induction paras as [|para paras IH]; intros done st Hch Hbuf; simpl.
  - rewrite app_nil_r. split; assumption.
  - replace (done ++ para :: paras) with ((done ++ [para]) ++ paras)
      by (rewrite <- app_assoc; reflexivity).
    destruct Hbuf as (pre & group & Hdone & Hjoin & Hgroup).
    apply IH.
    + intros c Hc. unfold pack_para in Hc.
      destruct ((maxChars <? length (buf st) + length para)%nat
                && (100 <? length (buf st))%nat); simpl in Hc.
      * apply in_app_or in Hc. destruct Hc as [Hc | [<- | []]].
        -- destruct (Hch c Hc) as [? | ?]; [left; assumption|].
           right. apply made_of_mono. assumption.
        -- right. cbn [Chunk.text buf_chunk]. apply made_of_mono.
           exists pre, group, []. rewrite app_nil_r, Hjoin. auto.
      * destruct (Hch c Hc) as [? | ?]; [left; assumption|].
        right. apply made_of_mono. assumption.
    + unfold pack_para.
      destruct ((maxChars <? length (buf st) + length para)%nat
                && (100 <? length (buf st))%nat) eqn:Hclose; cbn [buf].
      * exists done, [para]. repeat split.
        right. exists [], para. split; [reflexivity | simpl; lia].
      * exists pre, (group ++ [para]). rewrite Hdone, <- app_assoc.
        split; [reflexivity|]. rewrite pack_join_snoc, Hjoin.
        split; [reflexivity|].
        apply andb_false_iff in Hclose. rewrite Hjoin in Hclose.
        destruct Hclose as [H | H]; apply Nat.ltb_ge in H.
        -- left. rewrite pack_join_snoc.
           pose proof (length_append_para (pack_join group) para). lia.
        -- right. exists group, para. split; [reflexivity | exact H].
Qed.

Lemma flush_chunk_of filePath chunks0 current c :
  In c (flush filePath chunks0 current) ->
  In c chunks0 \/ chunk_of current c.
Proof.
  unfold flush.
  destruct (length (content current) <? 20)%nat; [left; assumption|].
  destruct (maxChars <? length (content current))%nat eqn:Hbig.
  - pose proof (pack_para_made_of filePath current chunks0
                  (split_paragraphs (content current)) []
                  (mkPack chunks0 [] (Current.startLine current) 0)) as Hinv.
    simpl in Hinv.
    destruct Hinv as [Hch (pre & group & Hparas & Hjoin & Hgroup)].
    + intros c0 Hc0. left. assumption.
    + exists [], []. repeat split. left. simpl. lia.
    + destruct (20 <? length (trim (buf _)))%nat.
      * intros Hc. apply in_app_or in Hc. destruct Hc as [Hc | [<- | []]].
        -- destruct (Hch c Hc) as [? | ?]; [left | right; right]; assumption.
        -- right. right. cbn [Chunk.text].
           exists pre, group, []. rewrite app_nil_r, Hjoin. auto.
      * intros Hc.
        destruct (Hch c Hc) as [? | ?]; [left | right; right]; assumption.
  - intros Hc. apply in_app_or in Hc. destruct Hc as [Hc | [<- | []]].
    + left. assumption.
    + right. left. cbn [Chunk.text]. apply Nat.ltb_ge in Hbig. auto.
Qed.

Lemma fold_flush_chunk_of filePath : forall secs chunks0 c,
  In c (fold_left (flush filePath) secs chunks0) ->
  In c chunks0 \/ exists current, In current secs /\ chunk_of current c.
Proof.
  induction secs as [|current secs IH]; intros chunks0 c Hc; simpl in Hc.
  - left. assumption.
  - destruct (IH _ _ Hc) as [Hc' | (cur & Hin & Hp)].
    + destruct (flush_chunk_of _ _ _ _ Hc') as [? | Hp]; [left; assumption|].
      right. exists current. split; [left; reflexivity | assumption].
    + right. exists cur. split; [right; assumption | assumption].
Qed.

(** C5, as amended.  Every chunk emitted by [chunkMarkdown] comes from one
    section of the document: it is the trimmed text of the section when
    that has at most 3000 characters, and otherwise the trimmed buffer of
    consecutive whole paragraphs of it, so that no paragraph is split.
    Its text has at most 3002 characters (the maximum of 3000 and one
    paragraph separator, which the packing test does not count), except
    when its last paragraph was appended to a buffer of at most 100
    characters (a single paragraph is the case of the empty buffer): the
    chunk is then at most 102 characters longer than that paragraph. *)
Theorem chunk_size_bound (text filePath : list N) (c : Chunk.t) :
  In c (chunkMarkdown text filePath) ->
  exists current,
    In current (sections text)
    /\ chunk_of current c
    /\ ((length (Chunk.text c) <= 3002)%nat
        \/ exists para,
             In para (split_paragraphs (content current))
             /\ (length (Chunk.text c) <= length para + 102)%nat).
Proof.
  unfold chunkMarkdown, sections. rewrite chunk_lines_sections. intros Hc.
  destruct (fold_flush_chunk_of _ _ _ _ Hc) as [[] | (cur & Hin & Hof)].
  exists cur. split; [exact Hin|]. split; [exact Hof|].
  destruct Hof as [[Hshort ->] | Hmade].
  - left. unfold maxChars in Hshort. lia.
  - exact (made_of_packed _ _ Hmade).
Qed.

Lemma chunk_size_bound_witness :
  let c := Chunk.mk two_paragraphs (js "notes.md") 1 3 [] in
  In c (chunkMarkdown two_paragraphs (js "notes.md"))
  /\ exists current,
       In current (sections two_paragraphs)
       /\ chunk_of current c
       /\ ((length (Chunk.text c) <= 3002)%nat
           \/ exists para,
                In para (split_paragraphs (content current))
                /\ (length (Chunk.text c) <= length para + 102)%nat).
Proof.
  assert (H : In (Chunk.mk two_paragraphs (js "notes.md") 1 3 [])
                (chunkMarkdown two_paragraphs (js "notes.md")))
    by (vm_compute; left; reflexivity).
  split; [exact H | exact (chunk_size_bound _ _ _ H)].
Defined.

(** C5 fails as stated: a chunk of 3002 characters made of two paragraphs
    of 1500, and a chunk of 3042 characters made of paragraphs of 50 and
    2990; no paragraph exceeds 3000. *)
Lemma chunk_size_counterexample :
  (chunkMarkdown two_paragraphs (js "notes.md")
   = [Chunk.mk two_paragraphs (js "notes.md") 1 3 []]
   /\ length two_paragraphs = 3002%nat
   /\ List.map length (split_paragraphs two_paragraphs) = [1500; 1500]%nat)
  /\ (chunkMarkdown short_then_long (js "notes.md")
      = [Chunk.mk short_then_long (js "notes.md") 1 3 []]
      /\ length short_then_long = 3042%nat
      /\ List.map length (split_paragraphs short_then_long) = [50; 2990]%nat).
Proof. vm_compute. repeat split; reflexivity. Qed.

(** ** Embedding client *)

Lemma same_files_refl w : same_files w w.
Proof. repeat split. Qed.

(** [getEmbeddings] touches no file; it appends to the log one request per
    batch submitted, in order, and nothing else. *)
Lemma embed_batches_effects create : forall batches w,
  same_files w (snd (embed_batches create batches w))
  /\ exists sent rest,
       batches = sent ++ rest
       /\ events (snd (embed_batches create batches w))
          = events w ++ List.map Request sent.
Proof.
  induction batches as [|batch batches IH]; intros w; simpl.
  - split; [apply same_files_refl|]. exists [], []. simpl.
    rewrite app_nil_r. split; reflexivity.
  - destruct (create batch) as [data|]; simpl.
    + specialize (IH (emit (Request batch) w)).
      destruct (embed_batches create batches (emit (Request batch) w)) as [r w2].
      simpl in *. destruct IH as [Hf (sent & rest & -> & Hev)].
      split; [exact Hf|]. exists (batch :: sent), rest.
      split; [reflexivity|]. rewrite Hev. simpl.
      rewrite <- app_assoc. reflexivity.
    + split; [repeat split|]. exists [batch], batches.
      split; reflexivity.
Qed.

Lemma getEmbeddings_files create texts w :
  same_files w (snd (getEmbeddings create texts w)).
Proof. apply embed_batches_effects. Qed.

(** The run of the loop of [getEmbeddings].  When it returns, every batch
    was submitted in order and the result joins the answers in order; when
    it throws, the batches were submitted up to the first one that the
    provider rejected. *)
Lemma embed_batches_trace create : forall batches w,
  match fst (embed_batches create batches w) with
  | Some data =>
      events (snd (embed_batches create batches w))
      = events w ++ List.map Request batches
      /\ exists answers,
           Forall2 (fun batch answer => create batch = Some answer) batches answers
           /\ data = List.concat answers
  | None =>
      exists sent bad rest,
        batches = sent ++ bad :: rest
        /\ create bad = None
        /\ Forall (fun batch => create batch <> None) sent
        /\ events (snd (embed_batches create batches w))
           = events w ++ List.map Request (sent ++ [bad])
  end.
Proof.
  induction batches as [|batch batches IH]; intros w; simpl.
  - split; [rewrite app_nil_r; reflexivity|]. exists []. split; [constructor | reflexivity].
  - destruct (create batch) as [data|] eqn:Hbatch; simpl.
    + specialize (IH (emit (Request batch) w)).
      destruct (embed_batches create batches (emit (Request batch) w)) as [[more|] w2];
        simpl in *.
      * destruct IH as [Hev (answers & Hall & ->)]. split.
        -- rewrite Hev, <- app_assoc. reflexivity.
        -- exists (data :: answers). split; [constructor; assumption | reflexivity].
      * destruct IH as (sent & bad & rest & -> & Hbad & Hsent & Hev).
        exists (batch :: sent), bad, rest. split; [reflexivity|].
        split; [exact Hbad|]. split; [constructor; [congruence | exact Hsent]|].
        rewrite Hev, <- app_assoc. reflexivity.
    + exists [], batch, batches. repeat split; [exact Hbatch | constructor].
Qed.

(** What [getEmbeddings] did when it returns and when it throws: it
    returns only when the provider accepted every request sent, and it
    throws only after a request that the provider rejected. *)
Lemma getEmbeddings_outcome create texts w :
  same_files w (snd (getEmbeddings create texts w))
  /\ exists sent,
       events (snd (getEmbeddings create texts w))
       = events w ++ List.map Request sent
       /\ match fst (getEmbeddings create texts w) with
          | Some _ => Forall (fun batch => create batch <> None) sent
          | None => exists batch, In batch sent /\ create batch = None
          end.
Proof.
  split; [apply getEmbeddings_files|]. unfold getEmbeddings.
  pose proof (embed_batches_trace create (in_batches BATCH_SIZE texts) w) as Htrace.
  destruct (fst (embed_batches create (in_batches BATCH_SIZE texts) w)).
  - destruct Htrace as [Hev (answers & Hall & _)].
    exists (in_batches BATCH_SIZE texts). split; [exact Hev|].
    clear Hev. induction Hall as [|batch answer batches answers' Hb _ IH].
    + constructor.
    + constructor; [congruence | exact IH].
  - destruct Htrace as (sent & bad & rest & _ & Hbad & _ & Hev).
    exists (sent ++ [bad]). split; [exact Hev|].
    exists bad. split; [apply in_or_app; right; left; reflexivity | exact Hbad].
Qed.

(** ** Chunks carry the path they were cut from *)

Lemma pack_para_file filePath current (P : Chunk.t -> Prop) :
  (forall text s e h, P (Chunk.mk text filePath s e h)) ->
  forall paras st,
    Forall P (chunks st) ->
    Forall P (chunks (fold_left (pack_para filePath current) paras st)).
Proof.
  intros HP. induction paras as [|para paras IH]; intros st Hst; simpl.
  - exact Hst.
  - apply IH. unfold pack_para.
    destruct (_ && _); simpl; [|exact Hst].
    apply Forall_app. split; [exact Hst|].
    constructor; [apply HP | constructor].
Qed.

Lemma flush_file filePath (P : Chunk.t -> Prop) chunks0 current :
  (forall text s e h, P (Chunk.mk text filePath s e h)) ->
  Forall P chunks0 -> Forall P (flush filePath chunks0 current).
Proof.
  intros HP H0. unfold flush.
  destruct (_ <? 20)%nat; [exact H0|].
  destruct (maxChars <? _)%nat.
  - pose proof (pack_para_file filePath current P HP
                  (split_paragraphs (content current))
                  (mkPack chunks0 [] (Current.startLine current) 0) H0) as Hp.
    destruct (20 <? _)%nat; [|exact Hp].
    apply Forall_app. split; [exact Hp|]. constructor; [apply HP | constructor].
  - apply Forall_app. split; [exact H0|]. constructor; [apply HP | constructor].
Qed.

Lemma chunkMarkdown_file text filePath :
  Forall (fun c => Chunk.file c = filePath) (chunkMarkdown text filePath).
Proof.
  unfold chunkMarkdown. rewrite chunk_lines_sections.
  generalize (sections_from 0 (split_lines text) (Current.mk [] 1 [])).
  intros secs.
  assert (H : Forall (fun c => Chunk.file c = filePath) (@nil Chunk.t)) by constructor.
  revert H. generalize (@nil Chunk.t).
  induction secs as [|cur secs IH]; intros chunks0 H0; simpl; [exact H0|].
  apply IH. apply flush_file; [reflexivity | exact H0].
Qed.

(** ** Workspace indexer *)

Lemma elem_of_currentFiles files p :
  p ∈ Index.currentFiles files <-> In p (List.map Crawled.relPath files).
Proof.
  unfold Index.currentFiles. rewrite elem_of_list_to_set.
  apply list_elem_of_In.
Qed.

Lemma elem_of_reindexPaths toIndex p :
  p ∈ Index.reindexPaths toIndex <-> In p (List.map Crawled.relPath toIndex).
Proof.
  unfold Index.reindexPaths. rewrite elem_of_list_to_set.
  apply list_elem_of_In.
Qed.

Lemma in_keptDocs reindex current docs d :
  In d (Index.keptDocs reindex current docs)
  <-> In d docs /\ (Doc.file d ∉ reindex) /\ (Doc.file d ∈ current).
Proof.
  unfold Index.keptDocs. rewrite filter_In, andb_true_iff, negb_true_iff.
  rewrite bool_decide_eq_false, bool_decide_eq_true. reflexivity.
Qed.

Lemma allChunks_file toIndex :
  Forall (fun c => In (Chunk.file c) (List.map Crawled.relPath toIndex))
    (Index.allChunks toIndex).
Proof.
  unfold Index.allChunks. induction toIndex as [|f fs IH]; simpl.
  - constructor.
  - apply Forall_app. split.
    + eapply List.Forall_impl; [|apply chunkMarkdown_file].
      intros c Hc. simpl in Hc. left. symmetry. exact Hc.
    + eapply List.Forall_impl; [|exact IH]. intros c Hc. right. exact Hc.
Qed.

Lemma index_newDocs_file now embeddings : forall cs i d,
  In d (Index.newDocs_from now embeddings i cs) ->
  exists c, In c cs /\ Doc.file d = Chunk.file c.
Proof.
  induction cs as [|c cs IH]; intros i d Hd; simpl in Hd; [destruct Hd|].
  destruct Hd as [<- | Hd].
  - exists c. split; [left; reflexivity | reflexivity].
  - destruct (IH _ _ Hd) as (c' & Hin & Hf). exists c'. split; [right|]; assumption.
Qed.

(** Every new record belongs to a file that is being indexed. *)
Lemma index_newDocs_reindexed now embeddings toIndex d :
  In d (Index.newDocs_from now embeddings 0 (Index.allChunks toIndex)) ->
  In (Doc.file d) (List.map Crawled.relPath toIndex).
Proof.
  intros Hd. destruct (index_newDocs_file _ _ _ _ _ Hd) as (c & Hc & ->).
  pose proof (allChunks_file toIndex) as Hall.
  rewrite List.Forall_forall in Hall. apply Hall. exact Hc.
Qed.

Lemma in_toIndex full fileMeta files f :
  In f (Index.toIndex full fileMeta files)
  <-> In f files /\ Index.unchanged full fileMeta f = false.
Proof.
  unfold Index.toIndex. rewrite filter_In, negb_true_iff. reflexivity.
Qed.

(** The tracker written by a run that reaches the end. *)
Lemma newMeta_lookup fileMeta current : forall toIndex p,
  Index.newMeta fileMeta current toIndex !! p
  = match List.find (fun f => bool_decide (Crawled.relPath f = p)) (rev toIndex) with
    | Some f => Some (Crawled.mtime f)
    | None => if decide (p ∈ current) then fileMeta !! p else None
    end.
Proof.
  unfold Index.newMeta.
  induction toIndex as [|f fs IH] using rev_ind; intros p.
  - simpl. rewrite map_lookup_filter. destruct (fileMeta !! p) as [t|] eqn:Hp; simpl.
    + destruct (decide (p ∈ current)) as [Hin | Hout].
      * rewrite option_guard_True by exact Hin. reflexivity.
      * rewrite option_guard_False by exact Hout. reflexivity.
    + destruct (decide (p ∈ current)); reflexivity.
  - rewrite fold_left_app, rev_app_distr. simpl.
    destruct (bool_decide (Crawled.relPath f = p)) eqn:Hf.
    + apply bool_decide_eq_true in Hf. subst p. apply lookup_insert_eq.
    + apply bool_decide_eq_false in Hf. rewrite lookup_insert_ne by exact Hf.
      apply IH.
Qed.

Lemma filter_keptDocs_other reindex current docs (G : list N) :
  G ∉ reindex -> G ∈ current ->
  List.filter (fun d => bool_decide (Doc.file d = G))
    (Index.keptDocs reindex current docs)
  = List.filter (fun d => bool_decide (Doc.file d = G)) docs.
Proof.
  intros Hre Hcur. unfold Index.keptDocs.
  induction docs as [|d docs IH]; simpl; [reflexivity|].
  destruct (bool_decide (Doc.file d = G)) eqn:HG.
  - apply bool_decide_eq_true in HG.
    rewrite (bool_decide_eq_false_2 (Doc.file d ∈ reindex)) by (rewrite HG; exact Hre).
    rewrite (bool_decide_eq_true_2 (Doc.file d ∈ current)) by (rewrite HG; exact Hcur).
    simpl. rewrite (bool_decide_eq_true_2 _ HG). f_equal. exact IH.
  - destruct (negb _ && _); simpl; [rewrite HG|]; exact IH.
Qed.

Lemma filter_none {A : Type} (f : A -> bool) (l : list A) :
  (forall x, In x l -> f x = false) -> List.filter f l = [].
Proof.
  induction l as [|x l IH]; intros H; simpl; [reflexivity|].
  rewrite (H x (or_introl eq_refl)). apply IH.
  intros y Hy. apply H. right. exact Hy.
Qed.

Lemma filter_all {A : Type} (f : A -> bool) (l : list A) :
  Forall (fun x => f x = true) l -> List.filter f l = l.
Proof.
  induction 1 as [|x l Hx _ IH]; simpl; [reflexivity|].
  rewrite Hx, IH. reflexivity.
Qed.

Lemma relPath_inj files f g :
  List.NoDup (List.map Crawled.relPath files) ->
  In f files -> In g files -> Crawled.relPath f = Crawled.relPath g -> f = g.
Proof.
  induction files as [|h files IH]; simpl; intros Hnd Hf Hg Heq; [destruct Hf|].
  apply List.NoDup_cons_iff in Hnd. destruct Hnd as [Hh Hnd].
  destruct Hf as [<- | Hf], Hg as [<- | Hg].
  - reflexivity.
  - exfalso. apply Hh. rewrite Heq. apply in_map. exact Hg.
  - exfalso. apply Hh. rewrite <- Heq. apply in_map. exact Hf.
  - apply IH; assumption.
Qed.

(** The records of the other files.  When every crawled file other than
    [F] is tracked with a modification time that has not advanced, every
    record of the resulting store whose source is not [F] was in the store
    before, and the records of every other crawled file are the same
    before and after. *)
Lemma incremental_others (files : list Crawled.t) (F : list N)
    (fileMeta : gmap (list N) Z) (docs : list Doc.t)
    (create : provider) (now : Z) (w : world) :
  meta_file w = Stored fileMeta ->
  index_file w = Stored docs ->
  (forall f, In f files -> Crawled.relPath f <> F ->
     exists tracked, fileMeta !! Crawled.relPath f = Some tracked
                     /\ Crawled.mtime f <= tracked) ->
  exists docs',
    index_file (snd (Index.main false files create now w)) = Stored docs'
    /\ (forall d, In d docs' -> Doc.file d <> F -> In d docs)
    /\ (forall G, G <> F -> In G (List.map Crawled.relPath files) ->
          List.filter (fun d => bool_decide (Doc.file d = G)) docs'
          = List.filter (fun d => bool_decide (Doc.file d = G)) docs).
Proof.
  intros Hmeta Hindex Htracked.
  assert (HF : forall p, In p (List.map Crawled.relPath (Index.toIndex false fileMeta files))
                         -> p = F).
  { intros p Hp. apply in_map_iff in Hp. destruct Hp as (f & <- & Hf).
    apply in_toIndex in Hf. destruct Hf as [Hin Hch].
    destruct (decide (Crawled.relPath f = F)) as [|Hne]; [assumption|].
    destruct (Htracked f Hin Hne) as (tracked & Hl & Hle).
    unfold Index.unchanged in Hch. rewrite Hl in Hch. simpl in Hch.
    apply Z.leb_gt in Hch. lia. }
  assert (Hsame : forall d, In d docs -> Doc.file d <> F -> In d docs) by auto.
  unfold Index.main, loadFileMeta, loadIndex. rewrite Hmeta, Hindex.
  destruct (Index.toIndex false fileMeta files) as [|f0 fs] eqn:Hti.
  { exists docs. simpl. repeat split; auto. }
  rewrite <- Hti in *. clear Hti f0 fs.
  set (kept := Index.keptDocs _ _ docs).
  assert (Hkept : forall d, In d kept -> In d docs).
  { intros d Hd. apply in_keptDocs in Hd. tauto. }
  assert (Hother : forall G, G <> F -> In G (List.map Crawled.relPath files) ->
            List.filter (fun d => bool_decide (Doc.file d = G)) kept
            = List.filter (fun d => bool_decide (Doc.file d = G)) docs).
  { intros G HG Hin. apply filter_keptDocs_other.
    - rewrite elem_of_reindexPaths. intros Hre. apply HG, HF, Hre.
    - apply elem_of_currentFiles, Hin. }
  destruct (Index.allChunks (Index.toIndex false fileMeta files)) as [|c0 cs] eqn:Hchunks.
  { exists kept. simpl. repeat split; auto. }
  rewrite <- Hchunks. clear Hchunks c0 cs.
  pose proof (getEmbeddings_files create
    (List.map (fun c => slice0 EMBED_CHARS (Chunk.text c))
       (Index.allChunks (Index.toIndex false fileMeta files))) w) as Hfiles.
  destruct (getEmbeddings create _ w) as [[embeddings|] w1]; simpl in *.
  - exists (kept ++ Index.newDocs_from now embeddings 0
                      (Index.allChunks (Index.toIndex false fileMeta files))).
    split; [reflexivity|]. split.
    + intros d Hd Hne. apply in_app_or in Hd. destruct Hd as [Hd | Hd]; [auto|].
      apply index_newDocs_reindexed, HF in Hd. contradiction.
    + intros G HG Hin. rewrite List.filter_app, (Hother G HG Hin).
      rewrite (filter_none _ (Index.newDocs_from _ _ _ _)); [apply app_nil_r|].
      intros d Hd. apply bool_decide_eq_false. intros Hfile.
      apply index_newDocs_reindexed, HF in Hd. congruence.
  - exists docs. destruct Hfiles as (Hi & _ & _).
    split; [rewrite Hi; exact Hindex|]. split; auto.
Qed.

Lemma filter_single {A : Type} (p : A -> bool) (x : A) : forall l,
  List.NoDup l -> In x l -> p x = true ->
  (forall y, In y l -> y <> x -> p y = false) ->
  List.filter p l = [x].
Proof.
  induction l as [|h l IH]; intros Hnd Hin Hx Hothers; [destruct Hin|].
  apply List.NoDup_cons_iff in Hnd. destruct Hnd as [Hh Hnd]. simpl.
  destruct Hin as [-> | Hin].
  - rewrite Hx. f_equal. apply filter_none. intros y Hy.
    apply Hothers; [right; exact Hy | intros ->; contradiction].
  - rewrite (Hothers h (or_introl eq_refl)) by (intros ->; contradiction).
    apply IH; auto. intros y Hy. apply Hothers. right. exact Hy.
Qed.

(** The crawl has one changed file. *)
Lemma toIndex_single files f fileMeta :
  List.NoDup (List.map Crawled.relPath files) ->
  In f files ->
  (forall tracked, fileMeta !! Crawled.relPath f = Some tracked ->
     tracked < Crawled.mtime f) ->
  (forall g, In g files -> Crawled.relPath g <> Crawled.relPath f ->
     exists tracked, fileMeta !! Crawled.relPath g = Some tracked
                     /\ Crawled.mtime g <= tracked) ->
  Index.toIndex false fileMeta files = [f].
Proof.
  intros Hnd Hin Hadv Htracked. unfold Index.toIndex. apply filter_single.
  - apply (List.NoDup_map_inv Crawled.relPath). exact Hnd.
  - exact Hin.
  - unfold Index.unchanged. simpl.
    destruct (fileMeta !! Crawled.relPath f) as [tracked|] eqn:Hl; [|reflexivity].
    specialize (Hadv tracked eq_refl). apply negb_true_iff, Z.leb_gt. exact Hadv.
  - intros g Hg Hne.
    destruct (Htracked g Hg) as (tracked & Hl & Hle).
    { intros Heq. apply Hne. apply (relPath_inj files); assumption. }
    unfold Index.unchanged. rewrite Hl. simpl.
    apply negb_false_iff, Z.leb_le. exact Hle.
Qed.

Lemma newDocs_from_chunks now embeddings : forall cs i,
  Forall2
    (fun c d =>
       exists vec,
         d = Doc.mk (FileId (Chunk.file c) (Chunk.startLine c)) (Chunk.file c)
               (Chunk.startLine c) (Chunk.endLine c) (Chunk.heading c)
               (Chunk.text c) vec now None)
    cs (Index.newDocs_from now embeddings i cs).
Proof.
  induction cs as [|c cs IH]; intros i; simpl; constructor; [|apply IH].
  eexists. reflexivity.
Qed.

(** The store after an incremental run whose only changed file is [f],
    with a provider that answers every request. *)
Lemma index_main_single files f fileMeta docs create now w :
  meta_file w = Stored fileMeta ->
  index_file w = Stored docs ->
  Index.toIndex false fileMeta files = [f] ->
  (forall batch, create batch <> None) ->
  exists new,
    index_file (snd (Index.main false files create now w))
    = Stored (Index.keptDocs {[Crawled.relPath f]} (Index.currentFiles files) docs
              ++ new)
    /\ Forall2
         (fun c d =>
            exists vec,
              d = Doc.mk (FileId (Chunk.file c) (Chunk.startLine c)) (Chunk.file c)
                    (Chunk.startLine c) (Chunk.endLine c) (Chunk.heading c)
                    (Chunk.text c) vec now None)
         (chunkMarkdown (Crawled.content f) (Crawled.relPath f)) new.
Proof.
  intros Hmeta Hindex Hti Hacc.
  unfold Index.main, loadFileMeta, loadIndex. rewrite Hmeta, Hindex, Hti.
  assert (Hre : Index.reindexPaths [f] = {[Crawled.relPath f]}).
  { unfold Index.reindexPaths. simpl. apply union_empty_r_L. }
  rewrite Hre. unfold Index.allChunks. cbn [flat_map]. rewrite app_nil_r.
  destruct (chunkMarkdown (Crawled.content f) (Crawled.relPath f)) as [|c0 cs] eqn:Hcs.
  { exists []. cbn [snd index_file saveIndex]. rewrite app_nil_r.
    split; [reflexivity | constructor]. }
  rewrite <- Hcs. clear Hcs c0 cs.
  pose proof (getEmbeddings_outcome create
    (List.map (fun c => slice0 EMBED_CHARS (Chunk.text c))
       (chunkMarkdown (Crawled.content f) (Crawled.relPath f))) w) as [_ Hout].
  destruct (getEmbeddings create _ w) as [[embeddings|] w1]; cbn [fst snd] in *.
  - eexists. split; [reflexivity|]. apply newDocs_from_chunks.
  - destruct Hout as (sent & _ & batch & _ & Hbad). exfalso. exact (Hacc batch Hbad).
Qed.

(** C6.  When every crawled file other than [F] is tracked with a
    modification time that has not advanced, an incremental run leaves the
    records of the other files as they were: every record of the resulting
    store whose source is not [F] was in the store before, and for every
    other crawled file [G] the records of [G], in order and with all their
    fields, are the same before and after.  When moreover [F] is a file
    [f] of the crawl, of paths that are all different, whose modification
    time has advanced, and the provider answers every request, the records
    of [F] are replaced: the records of the resulting store whose source
    is [F] are, in order, one record per chunk of the present content of
    [f], stamped with the time of the run, and none of the records that
    [F] had before is kept beside them.  Every record of the resulting
    store then has a crawled file as its source: the records of any other
    source, a file that was deleted or a session or an ad-hoc text, are
    dropped. *)
Theorem incremental_frame (files : list Crawled.t) (F : list N)
    (fileMeta : gmap (list N) Z) (docs : list Doc.t)
    (create : provider) (now : Z) (w : world) :
  meta_file w = Stored fileMeta ->
  index_file w = Stored docs ->
  (forall f, In f files -> Crawled.relPath f <> F ->
     exists tracked, fileMeta !! Crawled.relPath f = Some tracked
                     /\ Crawled.mtime f <= tracked) ->
  exists docs',
    index_file (snd (Index.main false files create now w)) = Stored docs'
    /\ (forall d, In d docs' -> Doc.file d <> F -> In d docs)
    /\ (forall G, G <> F -> In G (List.map Crawled.relPath files) ->
          List.filter (fun d => bool_decide (Doc.file d = G)) docs'
          = List.filter (fun d => bool_decide (Doc.file d = G)) docs)
    /\ (forall f,
          In f files -> Crawled.relPath f = F ->
          List.NoDup (List.map Crawled.relPath files) ->
          (forall tracked, fileMeta !! F = Some tracked -> tracked < Crawled.mtime f) ->
          (forall batch, create batch <> None) ->
          Forall2
            (fun c d =>
               exists vec,
                 d = Doc.mk (FileId F (Chunk.startLine c)) F
                       (Chunk.startLine c) (Chunk.endLine c) (Chunk.heading c)
                       (Chunk.text c) vec now None)
            (chunkMarkdown (Crawled.content f) F)
            (List.filter (fun d => bool_decide (Doc.file d = F)) docs')
          /\ (forall d, In d docs' ->
                In (Doc.file d) (List.map Crawled.relPath files))).
Proof.
  intros Hmeta Hindex Htracked.
  destruct (incremental_others files F fileMeta docs create now w Hmeta Hindex Htracked)
    as (docs' & Hstore & Hsame & Hother).
  exists docs'. split; [exact Hstore|]. split; [exact Hsame|]. split; [exact Hother|].
  intros f Hin HF Hnd Hadv Hacc. subst F.
  assert (Hti : Index.toIndex false fileMeta files = [f]).
  { apply toIndex_single; assumption. }
  destruct (index_main_single files f fileMeta docs create now w
              Hmeta Hindex Hti Hacc) as (new & Hstore' & Hnew).
  rewrite Hstore in Hstore'. inversion Hstore'; subst docs'. clear Hstore'.
  assert (Hfile : Forall (fun d => Doc.file d = Crawled.relPath f) new).
  { pose proof (chunkMarkdown_file (Crawled.content f) (Crawled.relPath f)) as Hcf.
    clear - Hnew Hcf. induction Hnew as [|c d cs ds (vec & ->) _ IH]; constructor.
    - inversion Hcf; subst. simpl. assumption.
    - apply IH. inversion Hcf; assumption. }
  assert (Hrec : Forall2
            (fun c d =>
               exists vec,
                 d = Doc.mk (FileId (Crawled.relPath f) (Chunk.startLine c))
                       (Crawled.relPath f)
                       (Chunk.startLine c) (Chunk.endLine c) (Chunk.heading c)
                       (Chunk.text c) vec now None)
            (chunkMarkdown (Crawled.content f) (Crawled.relPath f)) new).
  { pose proof (chunkMarkdown_file (Crawled.content f) (Crawled.relPath f)) as Hcf.
    clear - Hnew Hcf. induction Hnew as [|c d cs ds (vec & ->) _ IH]; constructor.
    - inversion Hcf as [|? ? Hc _]; subst. exists vec. rewrite Hc. reflexivity.
    - apply IH. inversion Hcf; assumption. }
  split.
  - rewrite List.filter_app.
    rewrite (filter_none _ (Index.keptDocs _ _ _)).
    + rewrite filter_all; [exact Hrec|].
      eapply List.Forall_impl; [|exact Hfile]. intros d Hd. simpl.
      apply bool_decide_eq_true. exact Hd.
    + intros d Hd. apply in_keptDocs in Hd. destruct Hd as (_ & Hre & _).
      apply bool_decide_eq_false. intros Hd. apply Hre. rewrite Hd.
      apply elem_of_singleton. reflexivity.
  - intros d Hd. apply in_app_or in Hd. destruct Hd as [Hd | Hd].
    + apply in_keptDocs in Hd. destruct Hd as (_ & _ & Hcur).
      apply elem_of_currentFiles. exact Hcur.
    + rewrite List.Forall_forall in Hfile. rewrite (Hfile d Hd).
      apply in_map. exact Hin.
Qed.

Lemma incremental_frame_witness :
  exists docs',
    index_file
      (snd (Index.main false
              [Crawled.mk a_md 1 note_a; Crawled.mk b_md 5 note_b]
              unit_provider 9 tracked_ab)) = Stored docs'
    /\ (forall d, In d docs' -> Doc.file d <> b_md ->
          In d [doc_of a_md note_a; doc_of b_md note_b])
    /\ (forall G, G <> b_md ->
          In G (List.map Crawled.relPath
                  [Crawled.mk a_md 1 note_a; Crawled.mk b_md 5 note_b]) ->
          List.filter (fun d => bool_decide (Doc.file d = G)) docs'
          = List.filter (fun d => bool_decide (Doc.file d = G))
              [doc_of a_md note_a; doc_of b_md note_b])
    /\ Forall2
         (fun c d =>
            exists vec,
              d = Doc.mk (FileId b_md (Chunk.startLine c)) b_md
                    (Chunk.startLine c) (Chunk.endLine c) (Chunk.heading c)
                    (Chunk.text c) vec 9 None)
         (chunkMarkdown note_b b_md)
         (List.filter (fun d => bool_decide (Doc.file d = b_md)) docs')
    /\ (forall d, In d docs' ->
          In (Doc.file d)
             (List.map Crawled.relPath
                [Crawled.mk a_md 1 note_a; Crawled.mk b_md 5 note_b])).
Proof.
  destruct (incremental_frame
              [Crawled.mk a_md 1 note_a; Crawled.mk b_md 5 note_b] b_md
              (<[a_md := 1]> (<[b_md := 1]> ∅))
              [doc_of a_md note_a; doc_of b_md note_b]
              unit_provider 9 tracked_ab)
    as (docs' & Hstore & Hsame & Hother & Hreplaced).
  - reflexivity.
  - reflexivity.
  - intros f [<- | [<- | []]] Hne.
    + exists 1. split; [vm_compute; reflexivity | simpl; lia].
    + exfalso. apply Hne. reflexivity.
  - exists docs'. split; [exact Hstore|]. split; [exact Hsame|].
    split; [exact Hother|].
    apply (Hreplaced (Crawled.mk b_md 5 note_b)).
    + right. left. reflexivity.
    + reflexivity.
    + repeat constructor; simpl; intros H;
        repeat (destruct H as [H | H]; [vm_compute in H; discriminate|]);
        exact H.
    + intros tracked H. vm_compute in H. inversion H; subst tracked. simpl. lia.
    + intros batch. discriminate.
Defined.

(** C1, as amended.  A run that ends normally does one of three things to
    a file that is absent from the crawl.  When it finds no changed file,
    it writes nothing: store and tracker are as before.  When it finds a
    changed file, every record whose source is absent from the crawl is
    removed from the store.  When, in addition, the changed files yield a
    chunk, so that the run reaches its end, the entry of every absent file
    is removed from the tracker. *)
Theorem absent_file_pruned (full : bool) (files : list Crawled.t)
    (create : provider) (now : Z) (w w' : world) (r : index_report)
    (p : list N) :
  Index.main full files create now w = (Ok r, w') ->
  ~ In p (List.map Crawled.relPath files) ->
  match r with
  | NoFilesChanged _ => w' = w
  | NoContent _ => evicted p w'
  | Indexed _ _ _ _ => evicted p w' /\ untracked p w'
  end.
Proof.
  intros Hrun Habsent. unfold Index.main in Hrun.
  destruct (if full then Ok ∅ else loadFileMeta w) as [fileMeta|e]; [|discriminate].
  destruct (if full then Ok [] else loadIndex w) as [docs|e]; [|discriminate].
  assert (Hkept : forall ti d,
            In d (Index.keptDocs (Index.reindexPaths ti) (Index.currentFiles files) docs)
            -> Doc.file d <> p).
  { intros ti d Hd Hp. apply in_keptDocs in Hd. destruct Hd as (_ & _ & Hcur).
    apply elem_of_currentFiles in Hcur. congruence. }
  destruct (Index.toIndex full fileMeta files) as [|f0 fs] eqn:Hti.
  { inversion Hrun; subst. reflexivity. }
  rewrite <- Hti in *.
  destruct (Index.allChunks (Index.toIndex full fileMeta files)) as [|c0 cs] eqn:Hchunks.
  { inversion Hrun; subst. eexists. split; [reflexivity|]. apply Hkept. }
  rewrite <- Hchunks in *.
  destruct (getEmbeddings create _ w) as [[embeddings|] w1]; [|discriminate].
  inversion Hrun; subst. clear Hrun. split.
  - eexists. split; [reflexivity|]. intros d Hd Hp.
    apply in_app_or in Hd. destruct Hd as [Hd | Hd].
    + exact (Hkept _ d Hd Hp).
    + apply index_newDocs_reindexed in Hd. rewrite Hp in Hd.
      apply in_map_iff in Hd. destruct Hd as (f & Hf & Hin).
      apply in_toIndex in Hin. apply Habsent, in_map_iff. exists f. tauto.
  - eexists. split; [reflexivity|].
    rewrite newMeta_lookup.
    destruct (List.find _ _) as [f|] eqn:Hfind.
    + apply find_some in Hfind. destruct Hfind as [Hin Hp].
      apply bool_decide_eq_true in Hp. apply in_rev, in_toIndex in Hin.
      exfalso. apply Habsent, in_map_iff. exists f. tauto.
    + destruct (decide (p ∈ Index.currentFiles files)) as [Hcur|]; [|reflexivity].
      apply elem_of_currentFiles in Hcur. contradiction.
Qed.

Lemma absent_file_pruned_witness :
  evicted a_md
    (snd (Index.main false [Crawled.mk b_md 5 note_b] unit_provider 9 tracked_ab))
  /\ untracked a_md
       (snd (Index.main false [Crawled.mk b_md 5 note_b] unit_provider 9
               tracked_ab)).
Proof.
  apply (absent_file_pruned false [Crawled.mk b_md 5 note_b] unit_provider 9
           tracked_ab _ (Indexed 1 1 1 [b_md]) a_md).
  - vm_compute. reflexivity.
  - vm_compute. intros [H | []]. discriminate H.
Defined.

(** C1 fails as stated.  b.md has a record in the store and an entry in the
    tracker and is absent from the crawl; a.md has not changed.  The run
    reports that no file changed and leaves the store, the tracker and the
    log as they were: the record and the entry of b.md are still there. *)
Lemma absent_file_survives_unchanged_crawl :
  Index.main false [Crawled.mk a_md 1 note_a] unit_provider 9 tracked_ab
  = (Ok (NoFilesChanged 2), tracked_ab)
  /\ ~ evicted b_md tracked_ab
  /\ ~ untracked b_md tracked_ab.
Proof.
  split; [vm_compute; reflexivity|]. split.
  - intros (docs & Hdocs & Hnone). inversion Hdocs; subst.
    apply (Hnone (doc_of b_md note_b)); [right; left; reflexivity | reflexivity].
  - intros (fileMeta & Hmeta & Hnone). inversion Hmeta; subst.
    vm_compute in Hnone. discriminate Hnone.
Qed.

(** A run that finds no changed file writes nothing and asks the provider
    nothing. *)
Lemma index_unchanged_is_noop (full : bool) (files : list Crawled.t)
    (create : provider) (now : Z) (w : world)
    (fileMeta : gmap (list N) Z) (docs : list Doc.t) :
  (if full then Ok ∅ else loadFileMeta w) = Ok fileMeta ->
  (if full then Ok [] else loadIndex w) = Ok docs ->
  Index.toIndex full fileMeta files = [] ->
  Index.main full files create now w = (Ok (NoFilesChanged (length docs)), w).
Proof.
  intros Hm Hi Hti. unfold Index.main. rewrite Hm, Hi, Hti. reflexivity.
Qed.

(** X15.  Idempotent re-indexing.  After a run that indexed files and
    reached the end, an incremental run over the same crawl (of paths
    that are all different, as [findFiles] returns them) finds no changed
    file: it reports so with the same count, asks the provider nothing and
    leaves the data directory and the log as they are. *)
Lemma index_rerun_after_indexed full files create now w w' a b c fs
    create' now' :
  List.NoDup (List.map Crawled.relPath files) ->
  Index.main full files create now w = (Ok (Indexed a b c fs), w') ->
  Index.main false files create' now' w' = (Ok (NoFilesChanged c), w').
Proof.
  intros Hnd Hrun. unfold Index.main in Hrun.
  destruct (if full then Ok ∅ else loadFileMeta w) as [fileMeta|e]; [|discriminate].
  destruct (if full then Ok [] else loadIndex w) as [docs|e]; [|discriminate].
  destruct (Index.toIndex full fileMeta files) as [|f0 fs0] eqn:Hti; [discriminate|].
  rewrite <- Hti in *.
  destruct (Index.allChunks (Index.toIndex full fileMeta files)) as [|c0 cs];
    [discriminate|].
  destruct (getEmbeddings create _ w) as [[embeddings|] w1]; [|discriminate].
  inversion Hrun; subst. clear Hrun.
  eapply index_unchanged_is_noop; [reflexivity | reflexivity |].
  apply filter_none. intros f Hf. apply negb_false_iff.
  unfold Index.unchanged. rewrite newMeta_lookup. simpl.
  destruct (List.find _ _) as [g|] eqn:Hfind.
  - apply find_some in Hfind. destruct Hfind as [Hin Hp].
    apply bool_decide_eq_true in Hp. apply in_rev, in_toIndex in Hin.
    rewrite (relPath_inj files g f Hnd (proj1 Hin) Hf Hp). apply Z.leb_refl.
  - assert (Hun : Index.unchanged full fileMeta f = true).
    { destruct (Index.unchanged full fileMeta f) eqn:Hun; [reflexivity|].
      exfalso.
      assert (Hin : In f (rev (Index.toIndex full fileMeta files)))
        by (apply in_rev; rewrite rev_involutive; apply in_toIndex; tauto).
      pose proof (find_none _ _ Hfind f Hin) as Hno. simpl in Hno.
      apply bool_decide_eq_false in Hno. apply Hno. reflexivity. }
    unfold Index.unchanged in Hun.
    apply andb_true_iff in Hun. destruct Hun as [_ Hun].
    rewrite decide_True
      by (apply elem_of_currentFiles, in_map; exact Hf).
    exact Hun.
Qed.

(** C7, at the failing input.  The only file of the crawl is too short to
    yield a chunk.  The first run writes the store and not the tracker, so
    the second run over the same crawl finds the file changed again: it
    reports [NoContent] instead of [NoFilesChanged] and writes the store a
    second time. *)
Theorem index_twice_without_content :
  let run1 := Index.main false tiny_crawl unit_provider 9 empty_dir in
  let run2 := Index.main false tiny_crawl unit_provider 10 (snd run1) in
  fst run1 = Ok (NoContent 0)
  /\ meta_file (snd run1) = Missing
  /\ fst run2 = Ok (NoContent 0)
  /\ (forall n, fst run2 <> Ok (NoFilesChanged n))
  /\ events (snd run2) = [WriteIndex; WriteIndex].
Proof.
  vm_compute. repeat split; try reflexivity. intros n. discriminate.
Qed.

(** ** Corrupt files *)

(** C4, on the code.  A corrupt session state loads as an absent one; a
    corrupt store or tracker makes the load throw, and the indexer ends
    with that error where it would go on with an absent file. *)
Theorem corrupt_files_loading :
  (forall i m ev,
      IngestSessions.loadState (mkWorld i m Corrupt ev)
      = IngestSessions.loadState (mkWorld i m Missing ev))
  /\ (forall m s ev,
        loadIndex (mkWorld Corrupt m s ev) = Threw SyntaxError
        /\ loadIndex (mkWorld Missing m s ev) = Ok [])
  /\ (forall i s ev,
        loadFileMeta (mkWorld i Corrupt s ev) = Threw SyntaxError
        /\ loadFileMeta (mkWorld i Missing s ev) = Ok ∅)
  /\ Index.main false tiny_crawl unit_provider 9 (mkWorld Missing Corrupt Missing [])
     = (Threw SyntaxError, mkWorld Missing Corrupt Missing [])
  /\ Index.main false tiny_crawl unit_provider 9 (mkWorld Corrupt Missing Missing [])
     = (Threw SyntaxError, mkWorld Corrupt Missing Missing [])
  /\ fst (Index.main false tiny_crawl unit_provider 9 empty_dir) = Ok (NoContent 0).
Proof.
  repeat split; vm_compute; reflexivity.
Qed.

(** ** Failure of the embedding call *)

Lemma only_requests_refl w : only_requests w w.
Proof. exists []. simpl. rewrite app_nil_r. reflexivity. Qed.

Lemma getEmbeddings_effects create texts w :
  same_files w (snd (getEmbeddings create texts w))
  /\ only_requests w (snd (getEmbeddings create texts w)).
Proof.
  unfold getEmbeddings.
  destruct (embed_batches_effects create (in_batches BATCH_SIZE texts) w)
    as [Hf (sent & rest & _ & Hev)].
  split; [exact Hf | exists sent; exact Hev].
Qed.

Lemma skipn_events w (new : list event) :
  skipn (length (events w)) (events w ++ new) = new.
Proof. rewrite skipn_app, skipn_all, Nat.sub_diag. reflexivity. Qed.

(** A run whose requests were all accepted was not rejected a request. *)
Lemma accepted_not_rejected create w w' sent writes :
  events w' = events w ++ List.map Request sent ++ writes ->
  Forall (fun batch => create batch <> None) sent ->
  Forall (fun e => forall batch, e <> Request batch) writes ->
  ~ rejected_request create w w'.
Proof.
  intros Hev Hsent Hwrites (batch & Hin & Hrej).
  rewrite Hev, skipn_events in Hin. apply in_app_or in Hin.
  destruct Hin as [Hin | Hin].
  - apply in_map_iff in Hin. destruct Hin as (b & Hb & Hin).
    inversion Hb; subst b. rewrite List.Forall_forall in Hsent.
    exact (Hsent batch Hin Hrej).
  - rewrite List.Forall_forall in Hwrites. exact (Hwrites _ Hin batch eq_refl).
Qed.

Lemma rejected_after_requests create w w' sent batch :
  events w' = events w ++ List.map Request sent ->
  In batch sent -> create batch = None ->
  rejected_request create w w'.
Proof.
  intros Hev Hin Hrej. exists batch. split; [|exact Hrej].
  rewrite Hev, skipn_events. apply in_map. exact Hin.
Qed.

(** Case analysis on the call of [getEmbeddings] in the goal, with what
    the provider answered. *)
Ltac case_outcome H :=
  match goal with
  | |- context [getEmbeddings ?create ?texts ?w] =>
      pose proof (getEmbeddings_outcome create texts w) as H;
      destruct (getEmbeddings create texts w) as [[?embeddings|] ?w1];
      cbn [fst snd] in H;
      destruct H as [?Hfiles (?sent & ?Hev & ?Hsent)]
  end.

(** The run sent no request, or only requests that were accepted: it was
    not rejected one.  [writes] are the writes of the run. *)
Ltac no_request writes :=
  let Hno := fresh in
  intros Hno; exfalso;
  first
    [ refine (accepted_not_rejected _ _ _ [] writes _ _ _ Hno);
      [ cbn [List.map app events saveIndex saveFileMeta IngestSessions.saveState];
        rewrite ?app_nil_r; reflexivity
      | constructor
      | repeat first [constructor | discriminate] ]
    | match goal with
      | Hev : events _ = events _ ++ List.map Request ?sent |- _ =>
          refine (accepted_not_rejected _ _ _ sent writes _ _ _ Hno);
          [ cbn [events saveIndex saveFileMeta IngestSessions.saveState];
            rewrite Hev, <- ?app_assoc, ?app_nil_r; reflexivity
          | assumption
          | repeat first [constructor | discriminate] ]
      end ].

Lemma index_rejected full files create now w :
  (fst (Index.main full files create now w) = Threw EmbeddingError
   <-> rejected_request create w (snd (Index.main full files create now w)))
  /\ (rejected_request create w (snd (Index.main full files create now w)) ->
      same_files w (snd (Index.main full files create now w))
      /\ only_requests w (snd (Index.main full files create now w))).
Proof.
  assert (Hnone : forall (r : result index_report),
            r <> Threw EmbeddingError ->
            (fst (r, w) = Threw EmbeddingError <-> rejected_request create w (snd (r, w)))
            /\ (rejected_request create w (snd (r, w)) ->
                same_files w (snd (r, w)) /\ only_requests w (snd (r, w)))).
  { intros r Hr. cbn [fst snd].
    split; [split; [congruence|] |]; no_request (@nil event). }
  unfold Index.main, loadFileMeta, loadIndex.
  destruct (if full then Ok ∅ else
              match meta_file w with
              | Missing => Ok ∅ | Corrupt => Threw SyntaxError
              | Stored fileMeta => Ok fileMeta end) as [fileMeta|e] eqn:Hmeta.
  2:{ apply Hnone. destruct full; [discriminate|].
      destruct (meta_file w); inversion Hmeta; discriminate. }
  destruct (if full then Ok [] else
              match index_file w with
              | Missing => Ok [] | Corrupt => Threw SyntaxError
              | Stored docs => Ok docs end) as [docs|e] eqn:Hindex.
  2:{ apply Hnone. destruct full; [discriminate|].
      destruct (index_file w); inversion Hindex; discriminate. }
  destruct (Index.toIndex full fileMeta files) as [|f0 fs]; [apply Hnone; discriminate|].
  destruct (Index.allChunks (f0 :: fs)) as [|c0 cs].
  { cbn [fst snd]. split; [split; [discriminate|] |]; no_request [WriteIndex]. }
  case_outcome H; cbn [fst snd].
  - split; [split; [discriminate|] |]; no_request [WriteIndex; WriteMeta].
  - destruct Hsent as (batch & Hin & Hrej).
    split; [split; [intros _ | reflexivity] |].
    + eapply rejected_after_requests; eassumption.
    + intros _. split; [exact Hfiles | exists sent; exact Hev].
Qed.

Lemma ingest_rejected source text create now w :
  (fst (Ingest.main source text create now w) = Threw EmbeddingError
   <-> rejected_request create w (snd (Ingest.main source text create now w)))
  /\ (rejected_request create w (snd (Ingest.main source text create now w)) ->
      same_files w (snd (Ingest.main source text create now w))
      /\ only_requests w (snd (Ingest.main source text create now w))).
Proof.
  unfold Ingest.main.
  destruct (chunkMarkdown text (Ingest.ingest_source source)) as [|c0 cs].
  { cbn [fst snd]. split; [split; [discriminate|] |]; no_request (@nil event). }
  case_outcome H; cbn [fst snd].
  - unfold loadIndex. destruct (index_file w1) as [| |docs]; cbn [fst snd];
      (split; [split; [discriminate|] |]);
      first [no_request [WriteIndex] | no_request (@nil event)].
  - destruct Hsent as (batch & Hin & Hrej).
    split; [split; [intros _ | reflexivity] |].
    + eapply rejected_after_requests; eassumption.
    + intros _. split; [exact Hfiles | exists sent; exact Hev].
Qed.

Lemma sessions_rejected iso dir create now w :
  (fst (IngestSessions.main iso dir create now w) = Threw EmbeddingError
   <-> rejected_request create w (snd (IngestSessions.main iso dir create now w)))
  /\ (rejected_request create w (snd (IngestSessions.main iso dir create now w)) ->
      same_files w (snd (IngestSessions.main iso dir create now w))
      /\ only_requests w (snd (IngestSessions.main iso dir create now w))).
Proof.
  unfold IngestSessions.main.
  destruct (match State.lastRun (IngestSessions.loadState w) with
            | Some lastRun => now - lastRun <? 50000
            | None => false
            end).
  { cbn [fst snd]. split; [split; [discriminate|] |]; no_request (@nil event). }
  unfold IngestSessions.getActiveSessionFiles.
  destruct (sessions_index dir) as [| |index]; cbn [fst snd];
    try (split; [split; [discriminate|] |];
         first [no_request [WriteState] | no_request (@nil event)]).
  destruct (omap (IngestSessions.active_file now dir) index) as [|sf sfs];
    cbn [fst snd]; [split; [split; [discriminate|] |]; no_request [WriteState]|].
  destruct (IngestSessions.allNewTexts _) as [|t0 ts]; cbn [fst snd];
    [split; [split; [discriminate|] |]; no_request [WriteState]|].
  case_outcome H; cbn [fst snd].
  - unfold loadIndex. destruct (index_file w1) as [| |docs]; cbn [fst snd];
      (split; [split; [discriminate|] |]);
      first [no_request [WriteIndex; WriteState] | no_request (@nil event)].
  - destruct Hsent as (batch & Hin & Hrej).
    split; [split; [intros _ | reflexivity] |].
    + eapply rejected_after_requests; eassumption.
    + intros _. split; [exact Hfiles | exists sent; exact Hev].
Qed.

(** C3.  In each of the three pipelines, a run ends with the error of the
    embedding call exactly when the provider rejected one of the requests
    that the run sent to it; and a run that was rejected a request has
    written nothing: the store file, and the two tracker files, are as
    before the run, and the only effects are the requests sent to the
    provider. *)
Theorem embedding_failure_keeps_store (create : provider) (now : Z) (w : world) :
  (forall full files,
      let run := Index.main full files create now w in
      (rejected_request create w (snd run)
       <-> fst run = Threw EmbeddingError)
      /\ (rejected_request create w (snd run) ->
          index_file (snd run) = index_file w
          /\ same_files w (snd run) /\ only_requests w (snd run)))
  /\ (forall source text,
        let run := Ingest.main source text create now w in
        (rejected_request create w (snd run)
         <-> fst run = Threw EmbeddingError)
        /\ (rejected_request create w (snd run) ->
            index_file (snd run) = index_file w
            /\ same_files w (snd run) /\ only_requests w (snd run)))
  /\ (forall iso dir,
        let run := IngestSessions.main iso dir create now w in
        (rejected_request create w (snd run)
         <-> fst run = Threw EmbeddingError)
        /\ (rejected_request create w (snd run) ->
            index_file (snd run) = index_file w
            /\ same_files w (snd run) /\ only_requests w (snd run))).
Proof.
  split; [|split].
  - intros full files run. destruct (index_rejected full files create now w) as [Hiff Heff].
    split; [symmetry; exact Hiff|]. intros H. destruct (Heff H) as [Hf Hr].
    split; [apply Hf | split; assumption].
  - intros source text run. destruct (ingest_rejected source text create now w) as [Hiff Heff].
    split; [symmetry; exact Hiff|]. intros H. destruct (Heff H) as [Hf Hr].
    split; [apply Hf | split; assumption].
  - intros iso dir run. destruct (sessions_rejected iso dir create now w) as [Hiff Heff].
    split; [symmetry; exact Hiff|]. intros H. destruct (Heff H) as [Hf Hr].
    split; [apply Hf | split; assumption].
Qed.

Lemma embedding_failure_keeps_store_witness :
  (fst (Index.main false [Crawled.mk b_md 5 note_b] failing_provider 9 tracked_ab)
   = Threw EmbeddingError
   /\ index_file
        (snd (Index.main false [Crawled.mk b_md 5 note_b] failing_provider 9 tracked_ab))
      = index_file tracked_ab)
  /\ (fst (Ingest.main (js "memo") note_a failing_provider 9 tracked_ab)
      = Threw EmbeddingError
      /\ index_file (snd (Ingest.main (js "memo") note_a failing_provider 9 tracked_ab))
         = index_file tracked_ab)
  /\ (fst (IngestSessions.main iso_stub
             (one_session day1 [user_says (js "please remember the launch date")])
             failing_provider (day1 + 100000) tracked_ab)
      = Threw EmbeddingError
      /\ index_file
           (snd (IngestSessions.main iso_stub
                   (one_session day1 [user_says (js "please remember the launch date")])
                   failing_provider (day1 + 100000) tracked_ab))
         = index_file tracked_ab).
Proof.
  destruct (embedding_failure_keeps_store failing_provider 9 tracked_ab)
    as (Hindex & Hingest & _).
  destruct (embedding_failure_keeps_store failing_provider (day1 + 100000) tracked_ab)
    as (_ & _ & Hsessions).
  split; [|split].
  - destruct (Hindex false [Crawled.mk b_md 5 note_b]) as [Hiff Hkeep].
    assert (Hrej : rejected_request failing_provider tracked_ab
                     (snd (Index.main false [Crawled.mk b_md 5 note_b]
                             failing_provider 9 tracked_ab))).
    { unfold rejected_request. set (sent := skipn _ _). vm_compute in sent.
      subst sent. eexists. split; [left; reflexivity | reflexivity]. }
    split; [apply Hiff, Hrej | apply (Hkeep Hrej)].
  - destruct (Hingest (js "memo") note_a) as [Hiff Hkeep].
    assert (Hrej : rejected_request failing_provider tracked_ab
                     (snd (Ingest.main (js "memo") note_a failing_provider 9 tracked_ab))).
    { unfold rejected_request. set (sent := skipn _ _). vm_compute in sent.
      subst sent. eexists. split; [left; reflexivity | reflexivity]. }
    split; [apply Hiff, Hrej | apply (Hkeep Hrej)].
  - destruct (Hsessions iso_stub
                (one_session day1 [user_says (js "please remember the launch date")]))
      as [Hiff Hkeep].
    assert (Hrej : rejected_request failing_provider tracked_ab
                     (snd (IngestSessions.main iso_stub
                             (one_session day1
                                [user_says (js "please remember the launch date")])
                             failing_provider (day1 + 100000) tracked_ab))).
    { unfold rejected_request. set (sent := skipn _ _). vm_compute in sent.
      subst sent. eexists. split; [left; reflexivity | reflexivity]. }
    split; [apply Hiff, Hrej | apply (Hkeep Hrej)].
Defined.

(** ** Length of the submitted texts *)

Lemma submits_bounded_refl w : submits_bounded w w.
Proof. exists []. rewrite app_nil_r. split; [reflexivity | constructor]. Qed.

Lemma submits_bounded_trans w1 w2 w3 :
  submits_bounded w1 w2 -> submits_bounded w2 w3 -> submits_bounded w1 w3.
Proof.
  intros (n1 & E1 & B1) (n2 & E2 & B2). exists (n1 ++ n2).
  split; [rewrite E2, E1, app_assoc; reflexivity | apply Forall_app; split; assumption].
Qed.

Lemma submits_bounded_saveIndex docs w : submits_bounded w (saveIndex docs w).
Proof. exists [WriteIndex]. split; [reflexivity | repeat constructor]. Qed.

Lemma submits_bounded_saveFileMeta m w : submits_bounded w (saveFileMeta m w).
Proof. exists [WriteMeta]. split; [reflexivity | repeat constructor]. Qed.

Lemma submits_bounded_saveState now st w :
  submits_bounded w (IngestSessions.saveState now st w).
Proof. exists [WriteState]. split; [reflexivity | repeat constructor]. Qed.

Lemma in_firstn {A : Type} n (l : list A) x : In x (firstn n l) -> In x l.
Proof.
  intros H. rewrite <- (firstn_skipn n l). apply in_or_app. left. exact H.
Qed.

Lemma in_skipn {A : Type} n (l : list A) x : In x (skipn n l) -> In x l.
Proof.
  intros H. rewrite <- (firstn_skipn n l). apply in_or_app. right. exact H.
Qed.

Lemma slices_bounded {A : Type} (P : A -> Prop) size : forall n (l : list A),
  Forall P l -> Forall (Forall P) (slices size n l).
Proof.
  induction n as [|n IH]; intros l Hl; simpl; constructor.
  - rewrite List.Forall_forall in *. intros x Hx. apply Hl.
    eapply in_firstn. exact Hx.
  - apply IH. rewrite List.Forall_forall in *. intros x Hx. apply Hl.
    eapply in_skipn. exact Hx.
Qed.

Lemma embed_batches_bounded create : forall batches w,
  Forall (Forall (fun text => (length text <= EMBED_CHARS)%nat)) batches ->
  submits_bounded w (snd (embed_batches create batches w)).
Proof.
  induction batches as [|batch batches IH]; intros w Hb; simpl.
  - apply submits_bounded_refl.
  - apply List.Forall_cons_iff in Hb. destruct Hb as [Hbatch Hb].
    assert (H1 : submits_bounded w (emit (Request batch) w)).
    { exists [Request batch]. split; [reflexivity|]. repeat constructor. exact Hbatch. }
    destruct (create batch) as [data|]; simpl; [|exact H1].
    specialize (IH (emit (Request batch) w) Hb).
    destruct (embed_batches create batches (emit (Request batch) w)) as [r w2].
    simpl in *. eapply submits_bounded_trans; eassumption.
Qed.

(** What the three ingestion sources pass to [getEmbeddings]: texts cut by
    [slice(0, 8000)]. *)
Lemma getEmbeddings_sliced create (texts : list (list N)) w :
  submits_bounded w
    (snd (getEmbeddings create (List.map (slice0 EMBED_CHARS) texts) w)).
Proof.
  apply embed_batches_bounded. unfold in_batches. apply slices_bounded.
  apply List.Forall_forall. intros text Htext. apply in_map_iff in Htext.
  destruct Htext as (t & <- & _). unfold slice0, EMBED_CHARS.
  rewrite length_firstn. lia.
Qed.

Lemma index_submits_bounded full files create now w :
  submits_bounded w (snd (Index.main full files create now w)).
Proof.
  unfold Index.main.
  destruct (if full then Ok ∅ else loadFileMeta w) as [fileMeta|e];
    [|apply submits_bounded_refl].
  destruct (if full then Ok [] else loadIndex w) as [docs|e];
    [|apply submits_bounded_refl].
  destruct (Index.toIndex full fileMeta files) as [|f0 fs];
    [apply submits_bounded_refl|].
  destruct (Index.allChunks (f0 :: fs)) as [|c0 cs];
    [apply submits_bounded_saveIndex|].
  rewrite <- (map_map Chunk.text (slice0 EMBED_CHARS)).
  pose proof (getEmbeddings_sliced create (List.map Chunk.text (c0 :: cs)) w) as Hb.
  destruct (getEmbeddings create _ w) as [[embeddings|] w1]; simpl in *; [|exact Hb].
  eapply submits_bounded_trans; [exact Hb|].
  eapply submits_bounded_trans;
    [apply submits_bounded_saveIndex | apply submits_bounded_saveFileMeta].
Qed.

Lemma ingest_submits_bounded source text create now w :
  submits_bounded w (snd (Ingest.main source text create now w)).
Proof.
  unfold Ingest.main.
  destruct (chunkMarkdown text (Ingest.ingest_source source)) as [|c0 cs];
    [apply submits_bounded_refl|].
  rewrite <- (map_map Chunk.text (slice0 EMBED_CHARS)).
  pose proof (getEmbeddings_sliced create (List.map Chunk.text (c0 :: cs)) w) as Hb.
  destruct (getEmbeddings create _ w) as [[embeddings|] w1]; simpl in *; [|exact Hb].
  destruct (loadIndex w1) as [docs|e]; [|exact Hb].
  eapply submits_bounded_trans; [exact Hb | apply submits_bounded_saveIndex].
Qed.

Lemma sessions_submits_bounded iso dir create now w :
  submits_bounded w (snd (IngestSessions.main iso dir create now w)).
Proof.
  unfold IngestSessions.main.
  destruct (match State.lastRun (IngestSessions.loadState w) with
            | Some lastRun => now - lastRun <? 50000
            | None => false
            end); [apply submits_bounded_refl|].
  destruct (IngestSessions.getActiveSessionFiles now dir) as [[|sf sfs]|e];
    [apply submits_bounded_saveState | | apply submits_bounded_refl].
  destruct (IngestSessions.allNewTexts _) as [|t0 ts] eqn:Htexts;
    [apply submits_bounded_saveState|].
  pose proof (getEmbeddings_sliced create (t0 :: ts) w) as Hb.
  destruct (getEmbeddings create _ w) as [[embeddings|] w1]; simpl in *; [|exact Hb].
  destruct (loadIndex w1) as [docs|e]; [|exact Hb].
  eapply submits_bounded_trans; [exact Hb|].
  eapply submits_bounded_trans;
    [apply submits_bounded_saveIndex | apply submits_bounded_saveState].
Qed.

(** C9, as amended.  In a run of the workspace indexer, of the ad-hoc
    ingester or of the session ingester, every text of every request sent
    to the embedding provider has at most 8000 characters: each of the
    three cuts its texts before it calls the embedding client. *)
Theorem ingestion_submits_bounded (create : provider) (now : Z) (w : world) :
  (forall full files,
      submits_bounded w (snd (Index.main full files create now w)))
  /\ (forall source text,
        submits_bounded w (snd (Ingest.main source text create now w)))
  /\ (forall iso dir,
        submits_bounded w (snd (IngestSessions.main iso dir create now w))).
Proof.
  split; [|split]; intros.
  - apply index_submits_bounded.
  - apply ingest_submits_bounded.
  - apply sessions_submits_bounded.
Qed.

(** C9 fails as stated: the embedding client does not cut the texts it is
    given, and search passes it the query as it is.  A query of 8001
    characters is submitted whole. *)
Lemma search_submits_long_query :
  events (snd (Search.main long_query 10 0 unit_provider tracked_ab))
  = [Request [long_query]]
  /\ length long_query = S EMBED_CHARS
  /\ ~ submits_bounded tracked_ab
         (snd (Search.main long_query 10 0 unit_provider tracked_ab)).
Proof.
  assert (Hev : events (snd (Search.main long_query 10 0 unit_provider tracked_ab))
                = [Request [long_query]]) by (vm_compute; reflexivity).
  assert (Hlen : length long_query = S EMBED_CHARS) by (vm_compute; reflexivity).
  split; [exact Hev|]. split; [exact Hlen|].
  intros (new & Hnew & Hb). rewrite Hev in Hnew. simpl in Hnew. subst new.
  apply List.Forall_cons_iff in Hb. destruct Hb as [Hb _]. simpl in Hb.
  apply List.Forall_cons_iff in Hb. destruct Hb as [Hb _].
  rewrite Hlen in Hb. lia.
Qed.

(** ** Session offsets *)












(** With a log that was only appended to, the messages picked are picked
    among the appended ones. *)
Lemma newMessages_appended (old added : list Message.t) :
  IngestSessions.newMessages (length old) (old ++ added)
  = IngestSessions.newMessages 0 added.
Proof.
  unfold IngestSessions.newMessages. rewrite skipn_app, skipn_all, Nat.sub_diag.
  reflexivity.
Qed.








(** ** Binary64 arithmetic on zeros and NaN *)

Lemma SFcompare_refl x : x <> S754_nan -> SFcompare x x = Some Eq.
Proof.
  destruct x as [s|s| |s m e]; intros Hx; simpl; try reflexivity.
  - destruct s; reflexivity.
  - contradiction.
  - destruct s; rewrite Z.compare_refl, Pos.compare_cont_refl; reflexivity.
Qed.

Lemma is_nan_spec x : PrimFloat.is_nan x = true <-> Prim2SF x = S754_nan.
Proof.
  unfold PrimFloat.is_nan. rewrite FloatAxioms.eqb_spec. unfold SFeqb. split.
  - intros H. destruct (Prim2SF x) eqn:Hx; try reflexivity;
      rewrite SFcompare_refl in H by discriminate; discriminate H.
  - intros ->. reflexivity.
Qed.

Lemma is_nan_false x : PrimFloat.is_nan x = false <-> Prim2SF x <> S754_nan.
Proof.
  rewrite <- is_nan_spec. destruct (PrimFloat.is_nan x); split; congruence.
Qed.

Lemma is_zero_spec x :
  PrimFloat.is_zero x = true -> exists s, Prim2SF x = S754_zero s.
Proof.
  unfold PrimFloat.is_zero. rewrite FloatAxioms.eqb_spec.
  change (Prim2SF zero) with (S754_zero false). unfold SFeqb.
  destruct (Prim2SF x) as [s|s| |s m e]; simpl; try discriminate.
  - intros _. exists s. reflexivity.
  - destruct s; discriminate.
  - destruct s; discriminate.
Qed.

Lemma zero_or_nan_mul_l x y : zero_or_nan x -> zero_or_nan (SF64mul x y).
Proof. destruct x, y; simpl; intros H; try exact I; destruct H. Qed.

Lemma zero_or_nan_mul_r x y : zero_or_nan y -> zero_or_nan (SF64mul x y).
Proof. destruct x, y; simpl; intros H; try exact I; destruct H. Qed.

Lemma zero_or_nan_add x y :
  zero_or_nan x -> zero_or_nan y -> zero_or_nan (SF64add x y).
Proof.
  destruct x as [sx| | |], y as [sy| | |]; simpl; intros Hx Hy;
    try exact I; try destruct Hx; try destruct Hy.
  destruct sx, sy; exact I.
Qed.

Lemma zero_or_nan_sqrt x : zero_or_nan x -> zero_or_nan (SF64sqrt x).
Proof. destruct x; simpl; intros H; try exact I; destruct H. Qed.

Lemma zero_or_nan_div x y :
  zero_or_nan x -> zero_or_nan y -> SF64div x y = S754_nan.
Proof.
  destruct x, y; simpl; intros Hx Hy; try reflexivity; try destruct Hx; destruct Hy.
Qed.

(** The sums of [cosineSimilarity] when the components of [a] are zeros. *)
Lemma cosine_sums_zero_a : forall a b dot na nb,
  all_zero a ->
  zero_or_nan (Prim2SF dot) -> zero_or_nan (Prim2SF na) ->
  zero_or_nan (Prim2SF (cosine_sums a b dot na nb).1.1)
  /\ zero_or_nan (Prim2SF (cosine_sums a b dot na nb).1.2).
Proof.
  induction a as [|x a IH]; intros b dot na nb Ha Hdot Hna; simpl.
  - split; assumption.
  - apply List.Forall_cons_iff in Ha. destruct Ha as [Hx Ha].
    destruct (is_zero_spec x Hx) as [s Hs].
    apply IH; [exact Ha | |]; rewrite FloatAxioms.add_spec;
      apply zero_or_nan_add; try assumption; rewrite FloatAxioms.mul_spec;
      apply zero_or_nan_mul_l; rewrite Hs; exact I.
Qed.

(** The same when the components of [b] are zeros; past the end of [b]
    the component read is NaN. *)
Lemma cosine_sums_zero_b : forall a b dot na nb,
  all_zero b ->
  zero_or_nan (Prim2SF dot) -> zero_or_nan (Prim2SF nb) ->
  zero_or_nan (Prim2SF (cosine_sums a b dot na nb).1.1)
  /\ zero_or_nan (Prim2SF (cosine_sums a b dot na nb).2).
Proof.
  induction a as [|x a IH]; intros b dot na nb Hb Hdot Hnb; simpl.
  - split; assumption.
  - assert (Hy : zero_or_nan (Prim2SF (List.hd nan b))).
    { destruct b as [|y b]; simpl; [exact I|].
      apply List.Forall_cons_iff in Hb. destruct Hb as [Hy _].
      destruct (is_zero_spec y Hy) as [s ->]. exact I. }
    assert (Htl : all_zero (List.tl b)).
    { destruct b as [|y b]; simpl; [constructor|].
      apply List.Forall_cons_iff in Hb. apply Hb. }
    apply IH; [exact Htl | |]; rewrite FloatAxioms.add_spec;
      apply zero_or_nan_add; try assumption; rewrite FloatAxioms.mul_spec;
      apply zero_or_nan_mul_r; exact Hy.
Qed.

Lemma cosine_zero_nan a b :
  all_zero a \/ all_zero b -> PrimFloat.is_nan (cosine a b) = true.
Proof.
  intros H. apply is_nan_spec. unfold cosine.
  assert (H0 : zero_or_nan (Prim2SF 0)) by exact I.
  destruct H as [Ha | Hb].
  - pose proof (cosine_sums_zero_a a b 0 0 0 Ha H0 H0) as [Hdot Hna].
    destruct (cosine_sums a b 0 0 0) as [[dot na] nb]. simpl in *.
    rewrite FloatAxioms.div_spec. apply zero_or_nan_div; [exact Hdot|].
    rewrite FloatAxioms.mul_spec. apply zero_or_nan_mul_l.
    rewrite FloatAxioms.sqrt_spec. apply zero_or_nan_sqrt. exact Hna.
  - pose proof (cosine_sums_zero_b a b 0 0 0 Hb H0 H0) as [Hdot Hnb].
    destruct (cosine_sums a b 0 0 0) as [[dot na] nb]. simpl in *.
    rewrite FloatAxioms.div_spec. apply zero_or_nan_div; [exact Hdot|].
    rewrite FloatAxioms.mul_spec. apply zero_or_nan_mul_r.
    rewrite FloatAxioms.sqrt_spec. apply zero_or_nan_sqrt. exact Hnb.
Qed.

(** [score >= minScore] is false for a NaN score. *)
Lemma leb_not_nan (x y : float) : (x <=? y)%float = true -> PrimFloat.is_nan y = false.
Proof.
  rewrite FloatAxioms.leb_spec. intros H. apply is_nan_false. intros Hy.
  rewrite Hy in H. unfold SFleb in H. destruct (Prim2SF x); discriminate H.
Qed.

(** ** Search results *)

Lemma in_slice_to {A : Type} limit (l : list A) x :
  In x (Search.slice_to limit l) -> In x l.
Proof. unfold Search.slice_to. destruct (limit <? 0); apply in_firstn. Qed.

Lemma results_meet_minScore limit minScore scored r :
  In r (Search.results limit minScore scored) ->
  (minScore <=? Scored.score r)%float = true.
Proof.
  unfold Search.results. intros H. apply in_slice_to, filter_In in H. apply H.
Qed.

(** What [main] answers is [results] of the scored records of the store. *)
Lemma search_main_results query limit minScore create w q rs n :
  fst (Search.main query limit minScore create w) = Ok (Results q rs n) ->
  exists docs queryVec scored,
    loadIndex w = Ok docs
    /\ Search.scored queryVec docs = Ok scored
    /\ rs = Search.results limit minScore scored
    /\ q = query /\ n = length docs.
Proof.
  unfold Search.main. intros Hrun.
  destruct (loadIndex w) as [[|d0 docs]|e]; try discriminate.
  destruct (getEmbedding create query w) as [[[queryVec|]|] w1]; try discriminate.
  destruct (Search.scored queryVec (d0 :: docs)) as [scored|e] eqn:Hscored;
    try discriminate.
  simpl in Hrun. inversion Hrun; subst.
  exists (d0 :: docs), queryVec, scored. auto.
Qed.

(** C10.  [cosineSimilarity] divides by the product of the norms without a
    guard: when every component of the query, or of the stored vector, is a
    zero, the score is NaN.  No entry of a search result has a NaN score:
    the filter [score >= minScore] is false for NaN. *)
Theorem zero_vector_scores_nan :
  (forall a b : vector,
      all_zero a \/ all_zero b ->
      cosineSimilarity a (Some b) = Ok (cosine a b)
      /\ PrimFloat.is_nan (cosine a b) = true)
  /\ (forall query limit minScore create w q rs n,
        fst (Search.main query limit minScore create w) = Ok (Results q rs n) ->
        forall r, In r rs -> PrimFloat.is_nan (Scored.score r) = false).
Proof.
  split.
  - intros a b H. split; [reflexivity | apply cosine_zero_nan; exact H].
  - intros query limit minScore create w q rs n Hrun r Hr.
    destruct (search_main_results _ _ _ _ _ _ _ _ Hrun)
      as (docs & queryVec & scored & _ & _ & -> & _).
    eapply leb_not_nan, results_meet_minScore. exact Hr.
Qed.

(** ** Rounding keeps the sign of a difference *)

(** Digits of a shifted mantissa. *)
Lemma Zdigits2_shr_1 s :
  Zdigits2 (shr_m (shr_1 s)) = Z.max 0 (Zdigits2 (shr_m s) - 1).
Proof.
  destruct s as [m r b]. destruct m as [|p|p]; [reflexivity| |];
    destruct p; cbn [shr_1 shr_m Zdigits2 digits2_pos];
    rewrite ?Pos2Z.inj_succ; lia.
Qed.

Lemma Zdigits2_iter_shr_1 : forall p s,
  Zdigits2 (shr_m (SpecFloat.iter_pos shr_1 p s)) = Z.max 0 (Zdigits2 (shr_m s) - Zpos p).
Proof.
  induction p as [p IH|p IH|]; intros s; simpl.
  - rewrite !IH, Zdigits2_shr_1. lia.
  - rewrite !IH. lia.
  - apply Zdigits2_shr_1.
Qed.

Lemma shr_1_nonneg s : 0 <= shr_m s -> 0 <= shr_m (shr_1 s).
Proof.
  destruct s as [m r b]. destruct m as [|p|p]; simpl; intros H; try lia;
    destruct p; simpl; lia.
Qed.

Lemma iter_shr_1_nonneg : forall p s,
  0 <= shr_m s -> 0 <= shr_m (SpecFloat.iter_pos shr_1 p s).
Proof.
  induction p as [p IH|p IH|]; intros s H; simpl.
  - apply IH, IH, shr_1_nonneg, H.
  - apply IH, IH, H.
  - apply shr_1_nonneg, H.
Qed.

Lemma Zdigits2_pos_mantissa z :
  0 <= z -> 0 < Zdigits2 z -> exists m, z = Zpos m.
Proof.
  destruct z as [|m|m]; simpl; intros H0 Hd; try lia. exists m. reflexivity.
Qed.

Lemma shr_m_of_loc m l : shr_m (shr_record_of_loc m l) = m.
Proof. destruct l as [|[| |]]; reflexivity. Qed.

(** A positive mantissa at an exponent not below [emin] stays positive
    through [shr_fexp]. *)
Lemma shr_fexp_positive m e l :
  emin <= e ->
  exists m', shr_m (fst (shr_fexp prec emax (Zpos m) e l)) = Zpos m'
             /\ emin <= snd (shr_fexp prec emax (Zpos m) e l).
Proof.
  intros He. unfold shr_fexp, shr.
  set (n := fexp prec emax (Zdigits2 (Zpos m) + e) - e).
  destruct n as [|p|p] eqn:Hn; simpl fst; simpl snd.
  - rewrite shr_m_of_loc. exists m. split; [reflexivity | exact He].
  - assert (Hd : Zdigits2 (shr_m (SpecFloat.iter_pos shr_1 p (shr_record_of_loc (Zpos m) l)))
                 = prec).
    { rewrite Zdigits2_iter_shr_1, shr_m_of_loc.
      unfold n, fexp in Hn. fold emin in Hn. unfold prec in *. lia. }
    destruct (Zdigits2_pos_mantissa _
                (iter_shr_1_nonneg p (shr_record_of_loc (Zpos m) l)
                   ltac:(rewrite shr_m_of_loc; lia))
                ltac:(rewrite Hd; reflexivity)) as [m' Hm'].
    exists m'. split; [exact Hm' | lia].
  - rewrite shr_m_of_loc. exists m. split; [reflexivity | exact He].
Qed.

Lemma round_nearest_even_positive m l :
  exists m', round_nearest_even (Zpos m) l = Zpos m'.
Proof.
  destruct l as [|[| |]]; simpl.
  - exists m. reflexivity.
  - destruct m; [exists (m~1 + 1)%positive | exists m~0%positive | exists (1 + 1)%positive];
      reflexivity.
  - exists m. reflexivity.
  - exists (m + 1)%positive. reflexivity.
Qed.

(** What rounding returns is positive for a positive mantissa at an
    exponent not below [emin], and never positive under the sign bit. *)
Lemma binary_round_aux_positive m e l :
  emin <= e -> positive_sf (binary_round_aux prec emax false (Zpos m) e l) = true.
Proof.
  intros He. unfold binary_round_aux.
  destruct (shr_fexp_positive m e l He) as (m1 & Hm1 & He1).
  destruct (shr_fexp prec emax (Zpos m) e l) as [mrs1 e1]. simpl in Hm1, He1.
  rewrite Hm1.
  destruct (round_nearest_even_positive m1 (loc_of_shr_record mrs1)) as [m2 ->].
  destruct (shr_fexp_positive m2 e1 loc_Exact He1) as (m3 & Hm3 & _).
  destruct (shr_fexp prec emax (Zpos m2) e1 loc_Exact) as [mrs3 e3]. simpl in Hm3.
  rewrite Hm3. destruct (e3 <=? emax - prec); reflexivity.
Qed.

Lemma binary_round_aux_negative m e l :
  positive_sf (binary_round_aux prec emax true m e l) = false.
Proof.
  unfold binary_round_aux.
  destruct (shr_fexp prec emax m e l) as [mrs1 e1].
  destruct (shr_fexp prec emax _ e1 loc_Exact) as [mrs3 e3].
  destruct (shr_m mrs3); [reflexivity | | reflexivity].
  destruct (e3 <=? emax - prec); reflexivity.
Qed.

Lemma fexp_ge_emin k : emin <= fexp prec emax k.
Proof. unfold fexp. fold emin. lia. Qed.

Lemma binary_round_positive m e :
  emin <= e -> positive_sf (binary_round prec emax false m e) = true.
Proof.
  intros He. unfold binary_round, shl_align.
  destruct (fexp prec emax (Zpos (digits2_pos m) + e) - e) eqn:Hd;
    apply binary_round_aux_positive; try exact He.
  apply fexp_ge_emin.
Qed.

Lemma binary_round_negative m e :
  positive_sf (binary_round prec emax true m e) = false.
Proof.
  unfold binary_round.
  destruct (shl_align m e _) as [mz ez]. apply binary_round_aux_negative.
Qed.

(** The sign of [binary_normalize] is the sign of its integer argument. *)
Lemma binary_normalize_positive z e :
  emin <= e -> positive_sf (binary_normalize prec emax z e false) = (0 <? z).
Proof.
  intros He. destruct z as [|p|p]; simpl.
  - reflexivity.
  - apply binary_round_positive. exact He.
  - apply binary_round_negative.
Qed.

(** ** The integer difference computed by [SFsub] *)

Lemma iter_xO_value m : forall d, Zpos (Pos.iter xO m d) = Zpos m * 2 ^ Zpos d.
Proof.
  induction d as [|d IH] using Pos.peano_ind.
  - simpl. lia.
  - rewrite Pos.iter_succ, Pos2Z.inj_xO, IH, Pos2Z.inj_succ, Z.pow_succ_r; lia.
Qed.

Lemma shl_align_value m e ez :
  ez <= e -> Zpos (fst (shl_align m e ez)) = Zpos m * 2 ^ (e - ez).
Proof.
  intros H. unfold shl_align. destruct (ez - e) as [|d|d] eqn:Hd; simpl fst.
  - replace (e - ez) with 0 by lia. lia.
  - lia.
  - rewrite iter_xO_value. f_equal. f_equal. lia.
Qed.

Lemma digits2_pos_bounds m :
  2 ^ (Zpos (digits2_pos m) - 1) <= Zpos m < 2 ^ Zpos (digits2_pos m).
Proof.
  induction m as [m IH|m IH|]; cbn [digits2_pos].
  - rewrite Pos2Z.inj_succ.
    replace (Z.succ (Zpos (digits2_pos m)) - 1) with (Z.succ (Zpos (digits2_pos m) - 1)) by lia.
    rewrite !Z.pow_succ_r by lia. lia.
  - rewrite Pos2Z.inj_succ.
    replace (Z.succ (Zpos (digits2_pos m)) - 1) with (Z.succ (Zpos (digits2_pos m) - 1)) by lia.
    rewrite !Z.pow_succ_r by lia. lia.
  - simpl. lia.
Qed.

(** What validity says of a finite value: at most [prec] digits, an
    exponent not below [emin], and exactly [prec] digits above [emin]. *)
Lemma bounded_canonical m e :
  bounded prec emax m e = true ->
  emin <= e
  /\ Zpos (digits2_pos m) <= prec
  /\ (emin < e -> Zpos (digits2_pos m) = prec).
Proof.
  unfold bounded, canonical_mantissa, fexp. fold emin. intros H.
  apply andb_true_iff in H. destruct H as [H _]. apply Z.eqb_eq in H. lia.
Qed.

(** Of two valid positive magnitudes, the one with the larger exponent is
    the larger. *)
Lemma exponent_dominates m1 e1 m2 e2 :
  bounded prec emax m1 e1 = true -> bounded prec emax m2 e2 = true ->
  e1 < e2 -> Zpos m1 < Zpos m2 * 2 ^ (e2 - e1).
Proof.
  intros H1 H2 Hlt.
  destruct (bounded_canonical _ _ H1) as (He1 & Hd1 & _).
  destruct (bounded_canonical _ _ H2) as (_ & _ & Hd2).
  specialize (Hd2 ltac:(lia)).
  pose proof (digits2_pos_bounds m1) as [_ Hm1].
  pose proof (digits2_pos_bounds m2) as [Hm2 _]. rewrite Hd2 in Hm2.
  assert (Hp1 : 2 ^ Zpos (digits2_pos m1) <= 2 ^ prec)
    by (apply Z.pow_le_mono_r; lia).
  assert (Hp2 : 2 ^ 1 <= 2 ^ (e2 - e1)) by (apply Z.pow_le_mono_r; lia).
  assert (Hprec : 2 ^ prec = 2 ^ (prec - 1) * 2 ^ 1)
    by (rewrite <- Z.pow_add_r by (unfold prec; lia); f_equal; lia).
  assert (H2pos : 0 < 2 ^ (prec - 1)) by (apply Z.pow_pos_nonneg; unfold prec; lia).
  nia.
Qed.

Lemma diff_sign sx mx ex sy my ey :
  bounded prec emax mx ex = true -> bounded prec emax my ey = true ->
  (0 <? cond_Zopp sy (Zpos (fst (shl_align my ey (Z.min ey ex))))
        - cond_Zopp sx (Zpos (fst (shl_align mx ex (Z.min ey ex)))))
  = SFltb (S754_finite sx mx ex) (S754_finite sy my ey).
Proof.
  intros Hx Hy.
  rewrite !shl_align_value by lia.
  unfold SFltb, SFcompare.
  assert (HA : 0 < Zpos my * 2 ^ (ey - Z.min ey ex))
    by (apply Z.mul_pos_pos; [lia | apply Z.pow_pos_nonneg; lia]).
  assert (HB : 0 < Zpos mx * 2 ^ (ex - Z.min ey ex))
    by (apply Z.mul_pos_pos; [lia | apply Z.pow_pos_nonneg; lia]).
  destruct (Z.compare_spec ex ey) as [Heq | Hlt | Hgt].
  - subst ey. rewrite Z.min_id, Z.sub_diag in *. simpl Z.pow in *.
    rewrite !Z.mul_1_r in *.
    change (Pos.compare_cont Eq mx my) with (Pos.compare mx my).
    destruct (Pos.compare_spec mx my) as [-> | H | H]; destruct sx, sy;
      cbn [cond_Zopp CompOpp];
      first [apply Z.ltb_lt; lia | apply Z.ltb_ge; lia].
  - pose proof (exponent_dominates mx ex my ey Hx Hy Hlt) as Hdom.
    rewrite Z.min_r in * by lia. rewrite Z.sub_diag in *. simpl Z.pow in *.
    rewrite Z.mul_1_r in *.
    destruct sx, sy; cbn [cond_Zopp];
      first [apply Z.ltb_lt; lia | apply Z.ltb_ge; lia].
  - pose proof (exponent_dominates my ey mx ex Hy Hx ltac:(lia)) as Hdom.
    rewrite Z.min_l in * by lia. rewrite Z.sub_diag in *. simpl Z.pow in *.
    rewrite Z.mul_1_r in *.
    destruct sx, sy; cbn [cond_Zopp];
      first [apply Z.ltb_lt; lia | apply Z.ltb_ge; lia].
Qed.

(** ** The sign of a difference is the order of its operands *)

Lemma SFsub_positive x y :
  valid_binary x = true -> valid_binary y = true ->
  positive_sf (SF64sub y x) = SFltb x y.
Proof.
  intros Hx Hy.
  destruct x as [sx|sx| |sx mx ex], y as [sy|sy| |sy my ey];
    try reflexivity;
    try (destruct sx; reflexivity);
    try (destruct sy; reflexivity);
    try (destruct sx, sy; reflexivity).
  simpl in Hx, Hy. unfold SF64sub, SFsub.
  rewrite binary_normalize_positive.
  - apply diff_sign; assumption.
  - destruct (bounded_canonical _ _ Hx) as (? & _).
    destruct (bounded_canonical _ _ Hy) as (? & _). lia.
Qed.

(** [0 < y - x] exactly when [x < y]; both are false when an operand is
    NaN. *)
Lemma sub_positive (x y : float) : (0 <? y - x)%float = (x <? y)%float.
Proof.
  rewrite !FloatAxioms.ltb_spec, FloatAxioms.sub_spec.
  change (Prim2SF 0) with (S754_zero false).
  apply SFsub_positive; apply Prim2SF_valid.
Qed.

(** ** The order of binary64 values *)

Lemma lex_spec a b :
  match lex a b with
  | Lt => lex_lt a b
  | Eq => a = b
  | Gt => lex_lt b a
  end.
Proof.
  destruct a as [[a1 a2] a3], b as [[b1 b2] b3]. unfold lex, lex_lt. simpl.
  destruct (Z.compare_spec a1 b1); [|lia|lia].
  destruct (Z.compare_spec a2 b2); [|lia|lia].
  destruct (Z.compare_spec a3 b3); [congruence|lia|lia].
Qed.

Lemma SFcompare_key x y :
  x <> S754_nan -> y <> S754_nan -> SFcompare x y = Some (lex (key x) (key y)).
Proof.
  intros Hx Hy.
  destruct x as [sx|sx| |sx mx ex], y as [sy|sy| |sy my ey];
    try contradiction;
    try reflexivity;
    try (destruct sx; reflexivity);
    try (destruct sy; reflexivity);
    try (destruct sx, sy; reflexivity).
  destruct sx, sy; try reflexivity; unfold SFcompare, key, lex; simpl.
  rewrite Z.compare_opp, (Z.compare_antisym ex ey).
  destruct (ex ?= ey); reflexivity.
Qed.

Lemma lex_lt_trans a b c : lex_lt a b -> lex_lt b c -> lex_lt a c.
Proof.
  destruct a as [[a1 a2] a3], b as [[b1 b2] b3], c as [[c1 c2] c3].
  unfold lex_lt. simpl. lia.
Qed.

Lemma lex_lt_irrefl a : ~ lex_lt a a.
Proof. destruct a as [[a1 a2] a3]. unfold lex_lt. simpl. lia. Qed.

(** The comparisons of two values, read on their keys. *)
Lemma SFcompare_nan_l x y : SFcompare x y <> None -> x <> S754_nan.
Proof. intros H ->. apply H. reflexivity. Qed.

Lemma SFcompare_nan_r x y : SFcompare x y <> None -> y <> S754_nan.
Proof. intros H ->. apply H. destruct x; reflexivity. Qed.

Lemma SFltb_key x y : SFltb x y = true <-> x <> S754_nan /\ y <> S754_nan /\ lex_lt (key x) (key y).
Proof.
  unfold SFltb. split.
  - intros H.
    assert (Hc : SFcompare x y <> None) by (destruct (SFcompare x y); [discriminate | discriminate H]).
    pose proof (SFcompare_nan_l _ _ Hc) as Hx. pose proof (SFcompare_nan_r _ _ Hc) as Hy.
    rewrite SFcompare_key in H by assumption.
    pose proof (lex_spec (key x) (key y)) as Hs.
    destruct (lex (key x) (key y)); try discriminate H. auto.
  - intros (Hx & Hy & Hlt). rewrite SFcompare_key by assumption.
    pose proof (lex_spec (key x) (key y)) as Hs.
    destruct (lex (key x) (key y)); [|reflexivity|].
    + rewrite Hs in Hlt. destruct (lex_lt_irrefl _ Hlt).
    + destruct (lex_lt_irrefl _ (lex_lt_trans _ _ _ Hlt Hs)).
Qed.

Lemma SFleb_key x y : SFleb x y = true <-> x <> S754_nan /\ y <> S754_nan /\ ~ lex_lt (key y) (key x).
Proof.
  unfold SFleb. split.
  - intros H.
    assert (Hc : SFcompare x y <> None) by (destruct (SFcompare x y); [discriminate | discriminate H]).
    pose proof (SFcompare_nan_l _ _ Hc) as Hx. pose proof (SFcompare_nan_r _ _ Hc) as Hy.
    rewrite SFcompare_key in H by assumption.
    pose proof (lex_spec (key x) (key y)) as Hs.
    destruct (lex (key x) (key y)); try discriminate H; repeat split; try assumption.
    + rewrite Hs. apply lex_lt_irrefl.
    + intros Hlt. destruct (lex_lt_irrefl _ (lex_lt_trans _ _ _ Hlt Hs)).
  - intros (Hx & Hy & Hle). rewrite SFcompare_key by assumption.
    pose proof (lex_spec (key x) (key y)) as Hs.
    destruct (lex (key x) (key y)); [reflexivity | reflexivity | contradiction].
Qed.

Lemma SFeqb_key x y : SFeqb x y = true <-> x <> S754_nan /\ y <> S754_nan /\ key x = key y.
Proof.
  unfold SFeqb. split.
  - intros H.
    assert (Hc : SFcompare x y <> None) by (destruct (SFcompare x y); [discriminate | discriminate H]).
    pose proof (SFcompare_nan_l _ _ Hc) as Hx. pose proof (SFcompare_nan_r _ _ Hc) as Hy.
    rewrite SFcompare_key in H by assumption.
    pose proof (lex_spec (key x) (key y)) as Hs.
    destruct (lex (key x) (key y)); try discriminate H. auto.
  - intros (Hx & Hy & Heq). rewrite SFcompare_key by assumption.
    pose proof (lex_spec (key x) (key y)) as Hs.
    destruct (lex (key x) (key y)); [reflexivity | |]; rewrite Heq in Hs;
      destruct (lex_lt_irrefl _ Hs).
Qed.

Lemma lex_total a b : lex_lt a b \/ a = b \/ lex_lt b a.
Proof.
  pose proof (lex_spec a b) as H. destruct (lex a b); auto.
Qed.

(** Facts about [<?], [<=?] and [=?] on binary64 values. *)
Lemma ltb_false_leb (x y : float) :
  PrimFloat.is_nan x = false -> PrimFloat.is_nan y = false ->
  (x <? y)%float = false -> (y <=? x)%float = true.
Proof.
  rewrite !is_nan_false, FloatAxioms.ltb_spec, FloatAxioms.leb_spec.
  intros Hx Hy Hlt. apply SFleb_key. repeat split; try assumption.
  intros H. rewrite (proj2 (SFltb_key _ _)) in Hlt by auto. discriminate Hlt.
Qed.

Lemma leb_trans (x y z : float) :
  (x <=? y)%float = true -> (y <=? z)%float = true -> (x <=? z)%float = true.
Proof.
  rewrite !FloatAxioms.leb_spec, !SFleb_key.
  intros (Hx & Hy & Hxy) (_ & Hz & Hyz). repeat split; try assumption.
  intros Hzx. destruct (lex_total (key (Prim2SF x)) (key (Prim2SF y))) as [H | [H | H]].
  - apply Hyz. eapply lex_lt_trans; eassumption.
  - apply Hyz. rewrite <- H. exact Hzx.
  - contradiction.
Qed.

Lemma ltb_leb (x y : float) : (x <? y)%float = true -> (x <=? y)%float = true.
Proof.
  rewrite FloatAxioms.ltb_spec, FloatAxioms.leb_spec, SFltb_key, SFleb_key.
  intros (Hx & Hy & Hlt). repeat split; try assumption.
  intros H. destruct (lex_lt_irrefl _ (lex_lt_trans _ _ _ Hlt H)).
Qed.

(** Two values that compare equal to the same value are not ordered. *)
Lemma ltb_eqb_absurd (x y s : float) :
  (y <? x)%float = true -> (y =? s)%float = true -> (x =? s)%float = true -> False.
Proof.
  rewrite FloatAxioms.ltb_spec, !FloatAxioms.eqb_spec, SFltb_key, !SFeqb_key.
  intros (_ & _ & Hlt) (_ & _ & Hy) (_ & _ & Hx).
  rewrite Hy, Hx in Hlt. exact (lex_lt_irrefl _ Hlt).
Qed.

(** ** The sort of search.js *)

(** The comparator is positive exactly when the first score is the
    smaller one. *)
Lemma sorts_after_ltb a b :
  Search.sorts_after a b = (Scored.score a <? Scored.score b)%float.
Proof. unfold Search.sorts_after, Search.comparefn. apply sub_positive. Qed.

Lemma sift_perm x : forall before,
  Permutation (Search.sift x before) (x :: before).
Proof.
  induction before as [|y ys IH]; simpl; [reflexivity|].
  destruct (Search.sorts_after y x); [|reflexivity].
  rewrite IH. apply perm_swap.
Qed.

Lemma sift_ascending x : forall before,
  no_nan (x :: before) -> ascending before -> ascending (Search.sift x before).
Proof.
  unfold ascending, no_nan.
  induction before as [|y ys IH]; intros Hnan Hsorted; simpl.
  - repeat constructor.
  - apply List.Forall_cons_iff in Hnan. destruct Hnan as [Hx Hnan].
    apply List.Forall_cons_iff in Hnan. destruct Hnan as [Hy Hnan].
    apply StronglySorted_inv in Hsorted. destruct Hsorted as [Hys Hall].
    rewrite sorts_after_ltb. destruct (Scored.score y <? Scored.score x)%float eqn:Hlt.
    + constructor.
      * apply IH; [constructor; assumption | exact Hys].
      * eapply Permutation_Forall; [symmetry; apply sift_perm|].
        constructor; [apply ltb_leb; exact Hlt | exact Hall].
    + assert (Hxy : (Scored.score x <=? Scored.score y)%float = true)
        by (apply ltb_false_leb; assumption).
      constructor; [constructor; assumption|].
      constructor; [exact Hxy|].
      eapply List.Forall_impl; [|exact Hall].
      intros z Hz. simpl in Hz. eapply leb_trans; eassumption.
Qed.

Lemma fold_sift_perm : forall l before,
  Permutation (fold_left (fun b x => Search.sift x b) l before) (l ++ before).
Proof.
  induction l as [|x l IH]; intros before; simpl; [reflexivity|].
  rewrite IH, sift_perm. symmetry. apply Permutation_middle.
Qed.

Lemma fold_sift_ascending : forall l before,
  no_nan (l ++ before) -> ascending before ->
  ascending (fold_left (fun b x => Search.sift x b) l before).
Proof.
  induction l as [|x l IH]; intros before Hnan Hsorted; simpl; [exact Hsorted|].
  apply IH.
  - unfold no_nan in *. eapply Permutation_Forall; [|exact Hnan].
    simpl. rewrite sift_perm. apply Permutation_middle.
  - apply sift_ascending; [|exact Hsorted].
    unfold no_nan in *. simpl in Hnan.
    apply List.Forall_cons_iff in Hnan. destruct Hnan as [Hx Hnan].
    apply Forall_app in Hnan. constructor; [exact Hx | apply Hnan].
Qed.

Lemma StronglySorted_snoc {A : Type} (R : A -> A -> Prop) l x :
  StronglySorted R l -> Forall (fun y => R y x) l -> StronglySorted R (l ++ [x]).
Proof.
  induction l as [|y l IH]; intros Hs Hall; simpl.
  - repeat constructor.
  - apply StronglySorted_inv in Hs. destruct Hs as [Hs Hy].
    apply List.Forall_cons_iff in Hall. destruct Hall as [Hyx Hall].
    constructor; [apply IH; assumption|].
    apply Forall_app. split; [exact Hy | repeat constructor; exact Hyx].
Qed.

Lemma ascending_rev l : ascending l -> descending (rev l).
Proof.
  unfold ascending, descending. induction l as [|x l IH]; intros Hs; simpl.
  - constructor.
  - apply StronglySorted_inv in Hs. destruct Hs as [Hs Hx].
    apply StronglySorted_snoc; [apply IH; exact Hs|].
    apply List.Forall_forall. intros y Hy. apply in_rev in Hy.
    rewrite List.Forall_forall in Hx. apply Hx. exact Hy.
Qed.

Lemma StronglySorted_filter {A : Type} (R : A -> A -> Prop) f l :
  StronglySorted R l -> StronglySorted R (List.filter f l).
Proof.
  induction l as [|x l IH]; intros Hs; simpl; [constructor|].
  apply StronglySorted_inv in Hs. destruct Hs as [Hs Hx].
  destruct (f x); [|apply IH; exact Hs].
  constructor; [apply IH; exact Hs|].
  apply List.Forall_forall. intros y Hy. apply filter_In in Hy.
  rewrite List.Forall_forall in Hx. apply Hx, Hy.
Qed.

Lemma StronglySorted_firstn {A : Type} (R : A -> A -> Prop) : forall n l,
  StronglySorted R l -> StronglySorted R (firstn n l).
Proof.
  induction n as [|n IH]; intros l Hs; simpl; [constructor|].
  destruct l as [|x l]; [constructor|].
  apply StronglySorted_inv in Hs. destruct Hs as [Hs Hx].
  constructor; [apply IH; exact Hs|].
  apply List.Forall_forall. intros y Hy. apply in_firstn in Hy.
  rewrite List.Forall_forall in Hx. apply Hx, Hy.
Qed.

(** Stability: an element moves past strictly smaller scores only, so the
    entries of any one score keep their order. *)
Lemma ties_app s l1 l2 : ties s (l1 ++ l2) = ties s l1 ++ ties s l2.
Proof. apply List.filter_app. Qed.

Lemma sift_ties s x : forall before,
  ties s (rev (Search.sift x before)) = ties s (rev before ++ [x]).
Proof.
  induction before as [|y ys IH]; simpl; [reflexivity|].
  rewrite sorts_after_ltb.
  destruct (Scored.score y <? Scored.score x)%float eqn:Hlt; [|reflexivity].
  simpl. rewrite !ties_app, IH, !ties_app, <- !app_assoc. f_equal.
  unfold ties. simpl.
  destruct (Scored.score x =? s)%float eqn:Hx, (Scored.score y =? s)%float eqn:Hy;
    try reflexivity.
  destruct (ltb_eqb_absurd _ _ _ Hlt Hy Hx).
Qed.

Lemma fold_sift_ties s : forall l before,
  ties s (rev (fold_left (fun b x => Search.sift x b) l before))
  = ties s (rev before ++ l).
Proof.
  induction l as [|x l IH]; intros before; simpl.
  - rewrite app_nil_r. reflexivity.
  - rewrite IH, ties_app, sift_ties, <- ties_app, <- app_assoc. reflexivity.
Qed.

Lemma slice_to_nat {A : Type} (k : nat) (l : list A) :
  Search.slice_to (Z.of_nat k) l = firstn k l.
Proof.
  unfold Search.slice_to.
  destruct (Z.of_nat k <? 0) eqn:H; [apply Z.ltb_lt in H; lia|].
  rewrite Nat2Z.id. reflexivity.
Qed.

(** C8, as amended.  When no score is NaN: the sort returns the entries
    in descending order of score, the entries of equal score in the order
    of the store; the result is the first [k] of the sorted entries whose
    score is at least [minScore] (the filter comes before the cut), so it
    is in descending order and holds no entry below [minScore]. *)
Theorem search_ranking (k : nat) (minScore : float) (scored : list Scored.t) :
  no_nan scored ->
  Permutation (Search.sort scored) scored
  /\ descending (Search.sort scored)
  /\ (forall s, ties s (Search.sort scored) = ties s scored)
  /\ Search.results (Z.of_nat k) minScore scored
     = firstn k
         (List.filter (fun r => (minScore <=? Scored.score r)%float)
            (Search.sort scored))
  /\ descending (Search.results (Z.of_nat k) minScore scored)
  /\ (forall r, In r (Search.results (Z.of_nat k) minScore scored) ->
        (minScore <=? Scored.score r)%float = true).
Proof.
  intros Hnan.
  assert (Hperm : Permutation (Search.sort scored) scored).
  { unfold Search.sort. rewrite <- Permutation_rev, fold_sift_perm, app_nil_r.
    reflexivity. }
  assert (Hdesc : descending (Search.sort scored)).
  { unfold Search.sort. apply ascending_rev, fold_sift_ascending.
    - rewrite app_nil_r. exact Hnan.
    - constructor. }
  assert (Hres : Search.results (Z.of_nat k) minScore scored
                 = firstn k
                     (List.filter (fun r => (minScore <=? Scored.score r)%float)
                        (Search.sort scored))).
  { unfold Search.results. apply slice_to_nat. }
  repeat split; try assumption.
  - intros s. unfold Search.sort. rewrite fold_sift_ties. reflexivity.
  - rewrite Hres. apply StronglySorted_firstn, StronglySorted_filter. exact Hdesc.
  - apply results_meet_minScore.
Qed.

Lemma search_ranking_witness :
  Permutation
    (Search.sort [entry "a.md" 0.5; entry "b.md" 1; entry "c.md" 0.5])
    [entry "a.md" 0.5; entry "b.md" 1; entry "c.md" 0.5]
  /\ descending (Search.sort [entry "a.md" 0.5; entry "b.md" 1; entry "c.md" 0.5])
  /\ (forall s,
        ties s (Search.sort [entry "a.md" 0.5; entry "b.md" 1; entry "c.md" 0.5])
        = ties s [entry "a.md" 0.5; entry "b.md" 1; entry "c.md" 0.5])
  /\ Search.results (Z.of_nat 2) 0.25
       [entry "a.md" 0.5; entry "b.md" 1; entry "c.md" 0.5]
     = firstn 2
         (List.filter (fun r => (0.25 <=? Scored.score r)%float)
            (Search.sort [entry "a.md" 0.5; entry "b.md" 1; entry "c.md" 0.5]))
  /\ descending
       (Search.results (Z.of_nat 2) 0.25
          [entry "a.md" 0.5; entry "b.md" 1; entry "c.md" 0.5])
  /\ (forall r,
        In r (Search.results (Z.of_nat 2) 0.25
                [entry "a.md" 0.5; entry "b.md" 1; entry "c.md" 0.5]) ->
        (0.25 <=? Scored.score r)%float = true).
Proof.
  apply (search_ranking 2 0.25
           [entry "a.md" 0.5; entry "b.md" 1; entry "c.md" 0.5]).
  repeat constructor.
Defined.

(** C8 fails as stated.  The second record of the store has a zero vector,
    so its score is NaN and the comparator answers NaN for it; the sort
    leaves the three entries where they are, and after the filter the
    result lists a.md (score 0.707...) before c.md (score 1). *)
Lemma search_unsorted_with_nan :
  exists r1 r2,
    fst (Search.main (js "q") 10 0.25 unit_provider store_with_zero)
    = Ok (Results (js "q") [r1; r2] 3)
    /\ Scored.file r1 = js "a.md"
    /\ Scored.file r2 = js "c.md"
    /\ (Scored.score r1 <? Scored.score r2)%float = true
    /\ ~ descending [r1; r2].
Proof.
  exists (Scored.mk (js "a.md") 1 2 [] (cosine [1; 0]%float [1; 1]%float) []),
         (Scored.mk (js "c.md") 1 2 [] (cosine [1; 0]%float [1; 0]%float) []).
  split; [vm_compute; reflexivity|].
  split; [reflexivity|]. split; [reflexivity|].
  split; [vm_compute; reflexivity|].
  intros H. apply StronglySorted_inv in H. destruct H as [_ H].
  apply List.Forall_cons_iff in H. destruct H as [H _].
  vm_compute in H. discriminate H.
Qed.

(** * Further properties *)

(** ** Lines and trimming *)

Lemma split_lines_from_nonempty : forall s cur, split_lines_from cur s <> [].
Proof.
  induction s as [|c s IH]; intros cur; simpl; [discriminate|].
  destruct (c =? nl)%N; [discriminate | apply IH].
Qed.

Lemma join_cons sep p ps :
  ps <> [] -> join sep (p :: ps) = p ++ sep ++ join sep ps.
Proof. destruct ps; [congruence | reflexivity]. Qed.

Lemma join_split_lines_from : forall s cur,
  join [nl] (split_lines_from cur s) = rev cur ++ s.
Proof.
  induction s as [|c s IH]; intros cur; simpl.
  - rewrite app_nil_r. reflexivity.
  - destruct (c =? nl)%N eqn:Hc.
    + rewrite join_cons by apply split_lines_from_nonempty.
      rewrite IH. apply N.eqb_eq in Hc. subst c. reflexivity.
    + rewrite IH. simpl. rewrite <- app_assoc. reflexivity.
Qed.

(** Joining the lines of a text with newlines gives the text back. *)
Lemma join_split_lines s : join [nl] (split_lines s) = s.
Proof. apply join_split_lines_from. Qed.

Lemma length_join_app_r sep (a b : list (list N)) :
  (length (join sep b) <= length (join sep (a ++ b)))%nat.
Proof.
  induction a as [|x a IH]; [simpl; lia|].
  destruct (a ++ b) as [|y r] eqn:Hab.
  - destruct a; [|discriminate]. simpl in Hab. subst b. simpl. lia.
  - change ((x :: a) ++ b) with (x :: (a ++ b)). rewrite Hab.
    rewrite join_cons by discriminate. rewrite !length_app. lia.
Qed.

Lemma length_join_app_l sep (a b : list (list N)) :
  (length (join sep a) <= length (join sep (a ++ b)))%nat.
Proof.
  induction a as [|x a IH]; [simpl; lia|].
  destruct a as [|y a].
  - destruct b; simpl; [lia|]. rewrite !length_app. apply Nat.le_add_r.
  - change ((x :: y :: a) ++ b) with (x :: y :: (a ++ b)).
    change ((y :: a) ++ b) with (y :: (a ++ b)) in IH.
    rewrite (join_cons sep x (y :: a)), (join_cons sep x (y :: (a ++ b)))
      by discriminate.
    rewrite !length_app. lia.
Qed.

Lemma trimStart_head s :
  match trimStart s with c :: _ => is_space c = false | [] => True end.
Proof.
  induction s as [|c s IH]; simpl; [exact I|].
  destruct (is_space c) eqn:Hc; [exact IH | exact Hc].
Qed.

Lemma trimStart_suffix s : exists t, s = t ++ trimStart s.
Proof.
  induction s as [|c s [t IH]]; simpl; [exists []; reflexivity|].
  destruct (is_space c).
  - exists (c :: t). simpl. f_equal. exact IH.
  - exists []. reflexivity.
Qed.

Lemma trimEnd_prefix s : exists t, s = trimEnd s ++ t.
Proof.
  unfold trimEnd. destruct (trimStart_suffix (rev s)) as [t Ht].
  exists (rev t). rewrite <- rev_app_distr, <- Ht, rev_involutive. reflexivity.
Qed.

(** A trimmed string neither starts nor ends with a whitespace character. *)
Lemma trim_ends s :
  (forall c r, trim s = c :: r -> is_space c = false)
  /\ (forall r c, trim s = r ++ [c] -> is_space c = false).
Proof.
  split.
  - intros c r H. unfold trim in H.
    destruct (trimEnd_prefix (trimStart s)) as [t Ht].
    rewrite H in Ht. pose proof (trimStart_head s) as Hh.
    rewrite Ht in Hh. exact Hh.
  - intros r c H. unfold trim, trimEnd in H.
    pose proof (trimStart_head (rev (trimStart s))) as Hh.
    apply (f_equal (@rev N)) in H. rewrite rev_involutive, rev_app_distr in H.
    simpl in H. rewrite H in Hh. exact Hh.
Qed.

(** ** Sections of a document *)

Lemma sections_from_blocks all : forall rest cur i pre,
  all = pre ++ Current.lines cur ++ rest ->
  i = Z.of_nat (length pre + length (Current.lines cur)) ->
  Current.startLine cur = Z.of_nat (length pre) + 1 ->
  Forall (fun l => heading_re l = false) (tl (Current.lines cur)) ->
  (pre <> [] -> heading_re (hd [] (Current.lines cur)) = true) ->
  (Current.lines cur = [] -> pre = []) ->
  Current.heading cur = block_heading pre (Current.lines cur) ->
  forall s, In s (sections_from i rest cur) -> block_of all s.
Proof.
  induction rest as [|line rest IH];
    intros cur i pre Hall Hi Hstart Htl Hhd Hnil Hheading s Hs; simpl in Hs.
  - destruct Hs as [<- | []]. exists pre, [].
    split; [|split; assumption]. repeat split; assumption.
  - destruct (heading_re line) eqn:Hline;
      destruct (length (Current.lines cur) =? 0)%nat eqn:Hlen; simpl in Hs.
    + (* the first line of the document *)
      apply Nat.eqb_eq, length_zero_iff_nil in Hlen.
      pose proof (Hnil Hlen) as Hpre. subst pre.
      eapply (IH _ _ []); [| | | | | | | exact Hs];
        cbn [Current.lines Current.startLine Current.heading].
      * rewrite Hall, Hlen. reflexivity.
      * rewrite Hi, Hlen. simpl. lia.
      * exact Hstart.
      * rewrite Hlen. constructor.
      * congruence.
      * rewrite Hlen. discriminate.
      * rewrite Hheading. reflexivity.
    + (* a heading line closes the section *)
      apply Nat.eqb_neq in Hlen.
      destruct Hs as [<- | Hs].
      * exists pre, (line :: rest).
        split; [|split; assumption]. repeat split; assumption.
      * assert (Hne : pre ++ Current.lines cur <> []).
        { intros H. apply app_eq_nil in H. destruct H as [_ H].
          rewrite H in Hlen. apply Hlen. reflexivity. }
        eapply (IH _ _ (pre ++ Current.lines cur)); [| | | | | | | exact Hs];
          cbn [Current.lines Current.startLine Current.heading].
        -- rewrite Hall, <- app_assoc. reflexivity.
        -- rewrite Hi, length_app. simpl. lia.
        -- rewrite Hi, length_app. lia.
        -- constructor.
        -- intros _. exact Hline.
        -- discriminate.
        -- unfold block_heading.
           destruct (pre ++ Current.lines cur); [congruence | reflexivity].
    + apply Nat.eqb_eq, length_zero_iff_nil in Hlen.
      pose proof (Hnil Hlen) as Hpre. subst pre.
      eapply (IH _ _ []); [| | | | | | | exact Hs];
        cbn [Current.lines Current.startLine Current.heading].
      * rewrite Hall, Hlen. reflexivity.
      * rewrite Hi, Hlen. simpl. lia.
      * exact Hstart.
      * rewrite Hlen. constructor.
      * congruence.
      * rewrite Hlen. discriminate.
      * rewrite Hheading. reflexivity.
    + apply Nat.eqb_neq in Hlen.
      assert (Hne : Current.lines cur <> [])
        by (intros H; rewrite H in Hlen; apply Hlen; reflexivity).
      destruct (Current.lines cur) as [|l0 ls] eqn:Hlines; [congruence|].
      eapply (IH _ _ pre); [| | | | | | | exact Hs];
        cbn [Current.lines Current.startLine Current.heading].
      * rewrite Hall. simpl. rewrite <- app_assoc. reflexivity.
      * rewrite Hi. simpl. rewrite length_app. simpl. lia.
      * exact Hstart.
      * simpl. apply Forall_app. split; [exact Htl|].
        constructor; [exact Hline | constructor].
      * exact Hhd.
      * discriminate.
      * rewrite Hheading. unfold block_heading. destruct pre; reflexivity.
Qed.

(** Every section flushed by [chunkMarkdown] is a block of the document. *)
Lemma sections_blocks text s :
  In s (sections text) -> block_of (split_lines text) s.
Proof.
  unfold sections.
  apply (sections_from_blocks (split_lines text) (split_lines text)
           (Current.mk [] 1 []) 0 []); simpl; try reflexivity; try constructor;
    congruence.
Qed.

(** ** Chunks and their sections *)

Lemma pack_para_new filePath current (P : Chunk.t -> Prop) chunks0 :
  (forall text s e, Current.startLine current <= s ->
     P (Chunk.mk text filePath s e (Current.heading current))) ->
  forall paras st,
    (forall c, In c (chunks st) -> In c chunks0 \/ P c) ->
    Current.startLine current <= bufStart st -> 0 <= lineOffset st ->
    (forall c, In c (chunks (fold_left (pack_para filePath current) paras st)) ->
       In c chunks0 \/ P c)
    /\ Current.startLine current
       <= bufStart (fold_left (pack_para filePath current) paras st).
Proof.
  intros HP. induction paras as [|para paras IH]; intros st Hch Hstart Hoff; simpl.
  - split; assumption.
  - apply IH; unfold pack_para;
      destruct ((maxChars <? length (buf st) + length para)%nat
                && (100 <? length (buf st))%nat); cbn [chunks bufStart lineOffset];
      try assumption; try lia.
    intros c Hc. apply in_app_or in Hc. destruct Hc as [Hc | [<- | []]].
    + apply Hch. exact Hc.
    + right. apply HP. exact Hstart.
Qed.

(** What [flush()] appends for a section carries the path, the heading of
    the section, and a start line at or below the first line of the
    section. *)
Lemma flush_new filePath current (P : Chunk.t -> Prop) chunks0 c :
  (forall text s e, Current.startLine current <= s ->
     P (Chunk.mk text filePath s e (Current.heading current))) ->
  In c (flush filePath chunks0 current) -> In c chunks0 \/ P c.
Proof.
  intros HP. unfold flush.
  destruct (length (content current) <? 20)%nat; [left; assumption|].
  destruct (maxChars <? length (content current))%nat.
  - destruct (pack_para_new filePath current P chunks0 HP
                (split_paragraphs (content current))
                (mkPack chunks0 [] (Current.startLine current) 0))
      as [Hch Hstart]; cbn [chunks bufStart lineOffset]; try lia.
    { intros c0 Hc0. left. exact Hc0. }
    destruct (20 <? _)%nat; [|apply Hch].
    intros Hc. apply in_app_or in Hc. destruct Hc as [Hc | [<- | []]].
    + apply Hch. exact Hc.
    + right. apply HP. exact Hstart.
  - intros Hc. apply in_app_or in Hc. destruct Hc as [Hc | [<- | []]].
    + left. exact Hc.
    + right. apply HP. lia.
Qed.

Lemma fold_flush_new filePath (P : Current.t -> Chunk.t -> Prop) :
  (forall current text s e, Current.startLine current <= s ->
     P current (Chunk.mk text filePath s e (Current.heading current))) ->
  forall secs chunks0 c,
    In c (fold_left (flush filePath) secs chunks0) ->
    In c chunks0 \/ exists current, In current secs /\ P current c.
Proof.
  intros HP. induction secs as [|current secs IH]; intros chunks0 c Hc; simpl in Hc.
  - left. exact Hc.
  - destruct (IH _ _ Hc) as [Hc' | (cur & Hin & Hp)].
    + destruct (flush_new filePath current (P current) chunks0 c (HP current) Hc')
        as [? | Hp]; [left; assumption|].
      right. exists current. split; [left; reflexivity | exact Hp].
    + right. exists cur. split; [right; exact Hin | exact Hp].
Qed.

(** The trimmed text of a section is no longer than the document. *)
Lemma block_content_length text s :
  block_of (split_lines text) s -> (length (content s) <= length text)%nat.
Proof.
  intros (pre & post & (Hall & _) & _).
  unfold content. etransitivity; [apply length_trim|].
  rewrite <- (join_split_lines text), Hall.
  etransitivity; [|apply length_join_app_r]. apply length_join_app_l.
Qed.

(** [flush()] on a section of at most [maxChars] characters. *)
Lemma flush_small filePath chunks0 current :
  (length (content current) <= maxChars)%nat ->
  flush filePath chunks0 current
  = if (length (content current) <? 20)%nat then chunks0
    else chunks0 ++ [Chunk.mk (content current) filePath
                       (Current.startLine current) (last_line current)
                       (Current.heading current)].
Proof.
  intros Hsmall. unfold flush.
  destruct (length (content current) <? 20)%nat; [reflexivity|].
  apply Nat.ltb_ge in Hsmall. rewrite Hsmall. reflexivity.
Qed.

Lemma fold_flush_small filePath : forall secs chunks0 c,
  (forall s, In s secs -> (length (content s) <= maxChars)%nat) ->
  In c (fold_left (flush filePath) secs chunks0) ->
  In c chunks0
  \/ exists s, In s secs /\ (20 <= length (content s))%nat
               /\ c = Chunk.mk (content s) filePath (Current.startLine s)
                        (last_line s) (Current.heading s).
Proof.
  induction secs as [|cur secs IH]; intros chunks0 c Hsmall Hc; simpl in Hc.
  - left. exact Hc.
  - destruct (IH _ _ (fun s Hs => Hsmall s (or_intror Hs)) Hc)
      as [Hc' | (s & Hin & Hp)].
    + rewrite flush_small in Hc' by (apply Hsmall; left; reflexivity).
      destruct (length (content cur) <? 20)%nat eqn:Hlen; [left; exact Hc'|].
      apply in_app_or in Hc'. destruct Hc' as [Hc' | [<- | []]];
        [left; exact Hc'|].
      right. exists cur. apply Nat.ltb_ge in Hlen.
      split; [left; reflexivity | split; [exact Hlen | reflexivity]].
    + right. exists s. split; [right; exact Hin | exact Hp].
Qed.

Lemma fold_flush_none filePath : forall secs chunks0,
  (forall s, In s secs -> (length (content s) < 20)%nat) ->
  fold_left (flush filePath) secs chunks0 = chunks0.
Proof.
  induction secs as [|cur secs IH]; intros chunks0 Hshort; simpl; [reflexivity|].
  rewrite IH by (intros s Hs; apply Hshort; right; exact Hs).
  unfold flush.
  pose proof (Hshort cur (or_introl eq_refl)) as Hcur.
  apply Nat.ltb_lt in Hcur. rewrite Hcur. reflexivity.
Qed.

(** The only section of a document whose lines after the first are not
    heading lines. *)
Lemma sections_from_plain : forall rest cur i,
  Forall (fun l => heading_re l = false) rest ->
  sections_from i rest cur
  = [Current.mk (Current.lines cur ++ rest) (Current.startLine cur)
       (Current.heading cur)].
Proof.
  induction rest as [|line rest IH]; intros cur i Hrest; simpl.
  - rewrite app_nil_r. destruct cur; reflexivity.
  - apply List.Forall_cons_iff in Hrest. destruct Hrest as [Hline Hrest].
    rewrite Hline. simpl. rewrite IH by exact Hrest. simpl.
    rewrite <- app_assoc. reflexivity.
Qed.

(** ** Line numbers of the chunks *)

Lemma count_nl_app a b : count_nl (a ++ b) = (count_nl a + count_nl b)%nat.
Proof. unfold count_nl. rewrite List.filter_app, length_app. reflexivity. Qed.

Lemma count_nl_rev s : count_nl (rev s) = count_nl s.
Proof.
  induction s as [|c s IH]; [reflexivity|]. simpl rev.
  rewrite count_nl_app, IH. unfold count_nl. simpl.
  destruct (c =? nl)%N; simpl; lia.
Qed.

Lemma count_nl_cons c s :
  count_nl (c :: s) = ((if (c =? nl)%N then 1 else 0) + count_nl s)%nat.
Proof. unfold count_nl. simpl. destruct (c =? nl)%N; reflexivity. Qed.

Lemma count_nl_trimStart s : (count_nl (trimStart s) <= count_nl s)%nat.
Proof.
  induction s as [|c s IH]; simpl; [lia|].
  destruct (is_space c); [|lia]. rewrite count_nl_cons. lia.
Qed.

Lemma count_nl_trim s : (count_nl (trim s) <= count_nl s)%nat.
Proof.
  unfold trim, trimEnd. rewrite count_nl_rev.
  etransitivity; [apply count_nl_trimStart|]. rewrite count_nl_rev.
  apply count_nl_trimStart.
Qed.

Lemma length_split_lines_from : forall s cur,
  length (split_lines_from cur s) = S (count_nl s).
Proof.
  induction s as [|c s IH]; intros cur; simpl; [reflexivity|].
  rewrite count_nl_cons. destruct (c =? nl)%N; simpl; rewrite IH; reflexivity.
Qed.

Lemma split_lines_from_no_nl : forall s cur,
  count_nl cur = O ->
  Forall (fun l => count_nl l = O) (split_lines_from cur s).
Proof.
  induction s as [|c s IH]; intros cur Hcur; simpl.
  - constructor; [rewrite count_nl_rev; exact Hcur | constructor].
  - destruct (c =? nl)%N eqn:Hc.
    + constructor; [rewrite count_nl_rev; exact Hcur | apply IH; reflexivity].
    + apply IH. rewrite count_nl_cons, Hc. exact Hcur.
Qed.

Lemma count_nl_join : forall lines,
  Forall (fun l => count_nl l = O) lines ->
  count_nl (join [nl] lines) = pred (length lines).
Proof.
  induction 1 as [|l lines Hl Hlines IH]; [reflexivity|].
  destruct lines as [|l' lines].
  - simpl. exact Hl.
  - rewrite join_cons by discriminate.
    rewrite !count_nl_app, Hl, IH. reflexivity.
Qed.

Lemma para_cost_app a b : para_cost (a ++ b) = (para_cost a + para_cost b)%nat.
Proof. unfold para_cost. rewrite List.map_app, list_sum_app. reflexivity. Qed.

(** The paragraphs and their separators hold no more newlines than the
    text they were cut from. *)
Lemma para_cost_cons p ps :
  para_cost (p :: ps) = (count_nl p + 2 + para_cost ps)%nat.
Proof. reflexivity. Qed.

Lemma split_paragraphs_from_cost : forall s,
  (para_cost (split_paragraphs_from true [] s)
   + match s with c :: _ => if (c =? nl)%N then 1 else 0 | [] => 0 end
   <= count_nl s + 2)%nat
  /\ forall cur,
       (para_cost (split_paragraphs_from false cur s)
        <= count_nl cur + count_nl s + 2)%nat.
Proof.
  assert (Hnil : count_nl [] = O) by reflexivity.
  assert (Hpnil : para_cost [] = O) by reflexivity.
  induction s as [|c s [IHt IHf]].
  - split.
    + cbn [split_paragraphs_from rev]. rewrite para_cost_cons, Hnil, Hpnil. lia.
    + intros cur. cbn [split_paragraphs_from].
      rewrite para_cost_cons, count_nl_rev, Hnil, Hpnil. lia.
  - split.
    + cbn [split_paragraphs_from]. rewrite count_nl_cons.
      destruct (c =? nl)%N eqn:Hc.
      * destruct s as [|c' s']; [|destruct (c' =? nl)%N]; lia.
      * specialize (IHf [c]). rewrite count_nl_cons, Hc, Hnil in IHf. lia.
    + intros cur. cbn [split_paragraphs_from]. rewrite (count_nl_cons c s).
      destruct s as [|c' s'].
      * specialize (IHf (c :: cur)). rewrite count_nl_cons in IHf. lia.
      * destruct (c =? nl)%N eqn:Hc; cbn [andb].
        -- destruct (c' =? nl)%N eqn:Hc'.
           ++ rewrite para_cost_cons, count_nl_rev. lia.
           ++ specialize (IHf (c :: cur)). rewrite count_nl_cons, Hc in IHf. lia.
        -- specialize (IHf (c :: cur)). rewrite count_nl_cons, Hc in IHf. lia.
Qed.

Lemma split_paragraphs_cost s :
  (para_cost (split_paragraphs s) <= count_nl s + 2)%nat.
Proof.
  destruct (split_paragraphs_from_cost s) as [_ H].
  specialize (H []). exact H.
Qed.

Lemma pack_join_nil_inv group : pack_join group <> [] -> group <> [].
Proof. intros H ->. apply H. reflexivity. Qed.

(** A buffer of paragraphs, with its separators, holds fewer newlines
    than the loop counts lines for them. *)
Lemma pack_join_cost : forall group,
  group <> [] -> (count_nl (pack_join group) + 2 <= para_cost group)%nat.
Proof.
  induction group as [|p group IH] using rev_ind; intros Hne; [congruence|].
  rewrite pack_join_snoc, para_cost_app.
  change (para_cost [p]) with (count_nl p + 2 + 0)%nat.
  unfold append_para. destruct (pack_join group) as [|b bs] eqn:Hbuf.
  - lia.
  - rewrite <- Hbuf in *.
    assert (Hg : group <> []) by (apply pack_join_nil_inv; rewrite Hbuf; discriminate).
    specialize (IH Hg). rewrite !count_nl_app.
    change (count_nl para_sep) with 2%nat. lia.
Qed.

Lemma pack_para_with_chunks filePath current cs st para :
  pack_para filePath current (with_chunks cs st) para
  = with_chunks cs (pack_para filePath current st para).
Proof.
  unfold pack_para, with_chunks. cbn [buf chunks bufStart lineOffset].
  destruct ((maxChars <? length (buf st) + length para)%nat
            && (100 <? length (buf st))%nat);
    cbn [buf chunks bufStart lineOffset]; rewrite <- ?app_assoc; reflexivity.
Qed.

Lemma fold_pack_para_with_chunks filePath current cs : forall paras st,
  fold_left (pack_para filePath current) paras (with_chunks cs st)
  = with_chunks cs (fold_left (pack_para filePath current) paras st).
Proof.
  induction paras as [|para paras IH]; intros st; simpl; [reflexivity|].
  rewrite pack_para_with_chunks. apply IH.
Qed.

(** [flush()] appends: what it pushes for a section does not depend on the
    chunks pushed before. *)
Lemma flush_app filePath chunks0 current :
  flush filePath chunks0 current = chunks0 ++ flush filePath [] current.
Proof.
  unfold flush.
  destruct (length (content current) <? 20)%nat; [rewrite app_nil_r; reflexivity|].
  destruct (maxChars <? length (content current))%nat; [|reflexivity].
  assert (H0 : mkPack chunks0 [] (Current.startLine current) 0
               = with_chunks chunks0 (mkPack [] [] (Current.startLine current) 0)).
  { unfold with_chunks. cbn [chunks buf bufStart lineOffset].
    rewrite app_nil_r. reflexivity. }
  rewrite H0. clear H0.
  rewrite fold_pack_para_with_chunks. unfold with_chunks.
  cbn [buf chunks bufStart lineOffset].
  destruct (20 <? _)%nat; [rewrite app_assoc|]; reflexivity.
Qed.

Lemma fold_flush_concat filePath : forall secs chunks0,
  fold_left (flush filePath) secs chunks0
  = chunks0 ++ List.flat_map (flush filePath []) secs.
Proof.
  induction secs as [|cur secs IH]; intros chunks0; simpl.
  - rewrite app_nil_r. reflexivity.
  - rewrite IH, flush_app, <- app_assoc. reflexivity.
Qed.

(** The invariant of the packing loop on line numbers: the buffer starts
    after the lines counted for the paragraphs before it, and every chunk
    pushed lies within the lines counted so far. *)
Lemma pack_para_within filePath current (total : nat) :
  forall paras done pre group st,
    (para_cost (done ++ paras) <= total)%nat ->
    done = pre ++ group ->
    buf st = pack_join group ->
    bufStart st = Current.startLine current + Z.of_nat (para_cost pre) ->
    lineOffset st = Z.of_nat (para_cost done) ->
    (forall c, In c (chunks st) ->
       Current.startLine current <= Chunk.startLine c
       /\ Chunk.startLine c <= Chunk.endLine c
       /\ Chunk.endLine c <= Current.startLine current + Z.of_nat total - 2) ->
    (forall c, In c (chunks (fold_left (pack_para filePath current) paras st)) ->
       Current.startLine current <= Chunk.startLine c
       /\ Chunk.startLine c <= Chunk.endLine c
       /\ Chunk.endLine c <= Current.startLine current + Z.of_nat total - 2)
    /\ exists pre' group',
         done ++ paras = pre' ++ group'
         /\ buf (fold_left (pack_para filePath current) paras st) = pack_join group'
         /\ bufStart (fold_left (pack_para filePath current) paras st)
            = Current.startLine current + Z.of_nat (para_cost pre').
Proof.
  induction paras as [|para paras IH];
    intros done pre group st Htotal Hdone Hbuf Hstart Hoff Hch; simpl.
  - split; [exact Hch|]. exists pre, group. rewrite app_nil_r. auto.
  - replace (done ++ para :: paras) with ((done ++ [para]) ++ paras) in *
      by (rewrite <- app_assoc; reflexivity).
    assert (Hcost : (para_cost (done ++ [para]) <= total)%nat)
      by (rewrite para_cost_app in Htotal; lia).
    assert (Hoff' : lineOffset st + Z.of_nat (length (split_lines para)) + 1
                    = Z.of_nat (para_cost (done ++ [para]))).
    { unfold split_lines. rewrite length_split_lines_from, Hoff, para_cost_app.
      change (para_cost [para]) with (count_nl para + 2 + 0)%nat. lia. }
    assert (Hstep :
      lineOffset (pack_para filePath current st para)
      = Z.of_nat (para_cost (done ++ [para]))
      /\ (exists pre' group',
            done ++ [para] = pre' ++ group'
            /\ buf (pack_para filePath current st para) = pack_join group'
            /\ bufStart (pack_para filePath current st para)
               = Current.startLine current + Z.of_nat (para_cost pre'))
      /\ forall c, In c (chunks (pack_para filePath current st para)) ->
           Current.startLine current <= Chunk.startLine c
           /\ Chunk.startLine c <= Chunk.endLine c
           /\ Chunk.endLine c <= Current.startLine current + Z.of_nat total - 2).
    { unfold pack_para.
      destruct ((maxChars <? length (buf st) + length para)%nat
                && (100 <? length (buf st))%nat) eqn:Hclose;
        cbn [chunks buf bufStart lineOffset].
      - apply andb_true_iff in Hclose. destruct Hclose as [_ Hlong].
        apply Nat.ltb_lt in Hlong.
        assert (Hg : group <> []).
        { apply pack_join_nil_inv. rewrite <- Hbuf. intros H0. rewrite H0 in Hlong.
          simpl in Hlong. lia. }
        pose proof (pack_join_cost group Hg) as Hjoin.
        split; [exact Hoff'|]. split.
        + exists done, [para]. split; [reflexivity|]. split; [reflexivity|].
          rewrite Hoff. reflexivity.
        + intros c Hc. apply in_app_or in Hc. destruct Hc as [Hc | [<- | []]];
            [apply Hch; exact Hc|].
          unfold buf_chunk. cbn [Chunk.startLine Chunk.endLine].
          unfold split_lines. rewrite length_split_lines_from, Hstart, Hbuf.
          rewrite Hdone, !para_cost_app in Hcost. lia.
      - split; [exact Hoff'|]. split; [|exact Hch].
        exists pre, (group ++ [para]). rewrite Hdone, <- app_assoc.
        split; [reflexivity|]. rewrite pack_join_snoc, Hbuf.
        split; [reflexivity | exact Hstart]. }
    destruct Hstep as (Hoff1 & (pre1 & group1 & Hdone1 & Hbuf1 & Hstart1) & Hch1).
    exact (IH (done ++ [para]) pre1 group1 _ Htotal Hdone1 Hbuf1 Hstart1 Hoff1 Hch1).
Qed.

(** The chunks of a section lie within its lines, when no line of the
    section holds a newline. *)
Lemma flush_within filePath current c :
  Forall (fun l => count_nl l = O) (Current.lines current) ->
  In c (flush filePath [] current) -> within current c.
Proof.
  intros Hlines. unfold flush, within, last_line.
  destruct (length (content current) <? 20)%nat eqn:Hmin; [intros []|].
  apply Nat.ltb_ge in Hmin.
  assert (Hnl : Z.of_nat (count_nl (content current))
                <= Z.of_nat (length (Current.lines current)) - 1).
  { unfold content in *. pose proof (count_nl_trim (join [nl] (Current.lines current))) as H.
    rewrite count_nl_join in H by exact Hlines.
    destruct (Current.lines current) as [|l ls]; [simpl in Hmin; lia|].
    simpl in *. lia. }
  destruct (maxChars <? length (content current))%nat.
  - assert (Hs0 : bufStart (mkPack [] [] (Current.startLine current) 0)
                  = Current.startLine current + Z.of_nat (para_cost []))
      by (cbn [bufStart]; change (para_cost []) with O; lia).
    destruct (pack_para_within filePath current (count_nl (content current) + 2)
                (split_paragraphs (content current)) [] [] []
                (mkPack [] [] (Current.startLine current) 0)
                (split_paragraphs_cost (content current))
                eq_refl eq_refl Hs0 eq_refl)
      as [Hch (pre & group & Hall & Hbuf & Hstart)].
    + intros c0 [].
    + destruct (20 <? length (trim (buf _)))%nat eqn:Hlast.
      * intros Hc. apply in_app_or in Hc. destruct Hc as [Hc | [<- | []]].
        -- destruct (Hch c Hc) as (H1 & H2 & H3). lia.
        -- cbn [Chunk.startLine Chunk.endLine]. rewrite Hstart.
           assert (Hg : group <> []).
           { apply pack_join_nil_inv. rewrite <- Hbuf. intros H0.
             rewrite H0 in Hlast. discriminate Hlast. }
           pose proof (pack_join_cost group Hg) as Hjoin.
           pose proof (split_paragraphs_cost (content current)) as Hcost.
           simpl in Hall. rewrite Hall, para_cost_app in Hcost. lia.
      * intros Hc. destruct (Hch c Hc) as (H1 & H2 & H3). lia.
  - intros [<- | []]. cbn [Chunk.startLine Chunk.endLine]. lia.
Qed.

Lemma split_lines_no_nl text :
  Forall (fun l => count_nl l = O) (split_lines text).
Proof. apply split_lines_from_no_nl. reflexivity. Qed.

Lemma flush_fields filePath current c :
  In c (flush filePath [] current) ->
  Chunk.file c = filePath /\ Chunk.heading c = Current.heading current.
Proof.
  intros Hc.
  destruct (flush_new filePath current
              (fun c => Chunk.file c = filePath
                        /\ Chunk.heading c = Current.heading current) [] c)
    as [[] | H]; [|exact Hc|exact H].
  intros text s e _. split; reflexivity.
Qed.

(** X1.  Heading attribution.  Every chunk of [chunkMarkdown(text,
    filePath)] comes from one block of consecutive lines of the document,
    which ends just before the next heading line (a line matching
    [/^#{1,3}\s/]) and holds no heading line after its first line.  The
    line range of the chunk lies within the lines of that block, and its
    text is cut from the text of that block (the trimmed block, or whole
    paragraphs of it).  The chunk carries [filePath]; its heading is the
    text of the heading line that opens the block, and the empty string
    for the first block of the document, even when the first line of the
    document is a heading line. *)
Theorem chunk_heading_attribution (text filePath : list N) (c : Chunk.t) :
  In c (chunkMarkdown text filePath) ->
  exists pre body post,
    section_block (split_lines text) pre body post
    /\ Chunk.file c = filePath
    /\ Chunk.heading c = block_heading pre body
    /\ Z.of_nat (length pre) + 1 <= Chunk.startLine c
    /\ Chunk.startLine c <= Chunk.endLine c
    /\ Chunk.endLine c <= Z.of_nat (length pre + length body)
    /\ chunk_of (Current.mk body (Z.of_nat (length pre) + 1)
                   (block_heading pre body)) c.
Proof.
  unfold chunkMarkdown. rewrite chunk_lines_sections, fold_flush_concat.
  intros Hc. simpl in Hc. apply in_flat_map in Hc.
  destruct Hc as (cur & Hin & Hc).
  destruct (sections_blocks text cur Hin) as (pre & post & Hblock & Hs & Hh).
  destruct (flush_fields _ _ _ Hc) as [Hfile Hheading].
  assert (Hlines : Forall (fun l => count_nl l = O) (Current.lines cur)).
  { pose proof (split_lines_no_nl text) as Hall.
    destruct Hblock as (Heq & _). rewrite Heq in Hall.
    apply Forall_app in Hall. destruct Hall as [_ Hall].
    apply Forall_app in Hall. apply Hall. }
  destruct (flush_within _ _ _ Hlines Hc) as (H1 & H2 & H3).
  destruct (flush_chunk_of filePath [] cur c Hc) as [[] | Hof].
  exists pre, (Current.lines cur), post.
  split; [exact Hblock|]. split; [exact Hfile|].
  split; [congruence|]. unfold last_line in H3.
  split; [lia|]. split; [exact H2|]. split; [lia|].
  rewrite <- Hs, <- Hh. destruct cur. exact Hof.
Qed.

(** X2.  Documents of at most 3000 characters.  No section is split: every
    chunk is one whole block of the document, its text is the trimmed text
    of the lines of the block and has at least 20 characters, and its line
    range is exactly the range of the block. *)
Theorem small_document_chunks (text filePath : list N) (c : Chunk.t) :
  (length text <= maxChars)%nat ->
  In c (chunkMarkdown text filePath) ->
  exists pre body post,
    section_block (split_lines text) pre body post
    /\ c = Chunk.mk (trim (join [nl] body)) filePath
             (Z.of_nat (length pre) + 1)
             (Z.of_nat (length pre + length body))
             (block_heading pre body)
    /\ (20 <= length (Chunk.text c))%nat.
Proof.
  intros Hsmall. unfold chunkMarkdown. rewrite chunk_lines_sections. intros Hc.
  apply fold_flush_small in Hc.
  - destruct Hc as [[] | (s & Hin & Hlen & ->)].
    destruct (sections_blocks text s Hin) as (pre & post & Hblock & Hs & Hh).
    exists pre, (Current.lines s), post.
    split; [exact Hblock|]. split; [|exact Hlen].
    unfold last_line, content. rewrite Hs, Hh. f_equal. lia.
  - intros s Hs. pose proof (block_content_length text s (sections_blocks text s Hs)).
    lia.
Qed.

(** X3.  A document without heading lines after its first line, whose
    trimmed text has between 20 and 3000 characters, yields exactly one
    chunk: the trimmed document, from line 1 to the last line, with an
    empty heading (also when line 1 is a heading line). *)
Theorem plain_document_one_chunk (text filePath : list N) :
  Forall (fun l => heading_re l = false) (tl (split_lines text)) ->
  (20 <= length (trim text))%nat ->
  (length (trim text) <= maxChars)%nat ->
  chunkMarkdown text filePath
  = [Chunk.mk (trim text) filePath 1
       (Z.of_nat (length (split_lines text))) []].
Proof.
  intros Hplain Hmin Hmax. unfold chunkMarkdown. rewrite chunk_lines_sections.
  destruct (split_lines text) as [|l0 ls] eqn:Hlines.
  - exfalso. exact (split_lines_from_nonempty text [] Hlines).
  - cbn [sections_from Current.lines length Nat.eqb negb andb].
    rewrite andb_false_r. rewrite sections_from_plain by exact Hplain.
    cbn [fold_left Current.lines Current.startLine Current.heading app].
    assert (Hcontent : content (Current.mk (l0 :: ls) 1 []) = trim text).
    { unfold content. cbn [Current.lines]. rewrite <- Hlines, join_split_lines.
      reflexivity. }
    rewrite flush_small by (rewrite Hcontent; exact Hmax).
    rewrite Hcontent. apply Nat.ltb_ge in Hmin. rewrite Hmin.
    unfold last_line. cbn [Current.lines Current.startLine Current.heading app].
    replace (1 + Z.of_nat (length (l0 :: ls)) - 1)
      with (Z.of_nat (length (l0 :: ls))) by lia.
    reflexivity.
Qed.

(** X4.  A document of fewer than 20 characters yields no chunk. *)
Theorem short_document_no_chunk (text filePath : list N) :
  (length text < 20)%nat -> chunkMarkdown text filePath = [].
Proof.
  intros Hshort. unfold chunkMarkdown. rewrite chunk_lines_sections.
  apply fold_flush_none. intros s Hs.
  pose proof (block_content_length text s (sections_blocks text s Hs)). lia.
Qed.

Lemma chunk_heading_attribution_witness :
  let c := Chunk.mk (js "## Details
The details of the note, at length.") (js "n.md") 3 4 (js "Details") in
  In c (chunkMarkdown two_sections (js "n.md"))
  /\ exists pre body post,
       section_block (split_lines two_sections) pre body post
       /\ Chunk.file c = js "n.md"
       /\ Chunk.heading c = block_heading pre body
       /\ Z.of_nat (length pre) + 1 <= Chunk.startLine c
       /\ Chunk.startLine c <= Chunk.endLine c
       /\ Chunk.endLine c <= Z.of_nat (length pre + length body)
       /\ chunk_of (Current.mk body (Z.of_nat (length pre) + 1)
                      (block_heading pre body)) c.
Proof.
  assert (H : In (Chunk.mk (js "## Details
The details of the note, at length.") (js "n.md") 3 4 (js "Details"))
                (chunkMarkdown two_sections (js "n.md")))
    by (vm_compute; right; left; reflexivity).
  split; [exact H | exact (chunk_heading_attribution _ _ _ H)].
Defined.

Lemma small_document_chunks_witness :
  let c := Chunk.mk (js "# Title
The introduction of the note.") (js "n.md") 1 2 [] in
  (length two_sections <= maxChars)%nat
  /\ In c (chunkMarkdown two_sections (js "n.md"))
  /\ exists pre body post,
       section_block (split_lines two_sections) pre body post
       /\ c = Chunk.mk (trim (join [nl] body)) (js "n.md")
                (Z.of_nat (length pre) + 1)
                (Z.of_nat (length pre + length body))
                (block_heading pre body)
       /\ (20 <= length (Chunk.text c))%nat.
Proof.
  assert (Hsmall : (length two_sections <= maxChars)%nat)
    by (vm_compute; lia).
  assert (H : In (Chunk.mk (js "# Title
The introduction of the note.") (js "n.md") 1 2 [])
                (chunkMarkdown two_sections (js "n.md")))
    by (vm_compute; left; reflexivity).
  split; [exact Hsmall|].
  split; [exact H | exact (small_document_chunks _ _ _ Hsmall H)].
Defined.

Lemma plain_document_one_chunk_witness :
  chunkMarkdown note_a a_md
  = [Chunk.mk (trim note_a) a_md 1 (Z.of_nat (length (split_lines note_a))) []].
Proof.
  apply plain_document_one_chunk.
  - vm_compute. repeat constructor.
  - vm_compute. lia.
  - vm_compute. lia.
Defined.

Lemma short_document_no_chunk_witness : chunkMarkdown (js "# Title") a_md = [].
Proof. apply short_document_no_chunk. vm_compute. lia. Defined.

(** X5.  The text of a chunk neither starts nor ends with a whitespace
    character. *)
Theorem chunk_text_trimmed (text filePath : list N) (c : Chunk.t) :
  In c (chunkMarkdown text filePath) ->
  (forall ch r, Chunk.text c = ch :: r -> is_space ch = false)
  /\ (forall r ch, Chunk.text c = r ++ [ch] -> is_space ch = false).
Proof.
  unfold chunkMarkdown. rewrite chunk_lines_sections. intros Hc.
  destruct (fold_flush_chunk_of _ _ _ _ Hc) as [[] | (cur & _ & Hof)].
  destruct Hof as [[_ ->] | (pre & group & post & _ & -> & _)]; apply trim_ends.
Qed.

Lemma chunk_text_trimmed_witness :
  let c := Chunk.mk (js "# Title
The introduction of the note.") (js "n.md") 1 2 [] in
  In c (chunkMarkdown two_sections (js "n.md"))
  /\ (forall ch r, Chunk.text c = ch :: r -> is_space ch = false)
  /\ (forall r ch, Chunk.text c = r ++ [ch] -> is_space ch = false).
Proof.
  assert (H : In (Chunk.mk (js "# Title
The introduction of the note.") (js "n.md") 1 2 [])
                (chunkMarkdown two_sections (js "n.md")))
    by (vm_compute; left; reflexivity).
  split; [exact H | exact (chunk_text_trimmed _ _ _ H)].
Defined.

(** ** Batches of the embedding client *)

Lemma firstn_firstn_skipn {A : Type} (n m : nat) : forall l : list A,
  firstn n l ++ firstn m (skipn n l) = firstn (n + m) l.
Proof.
  induction n as [|n IH]; intros l; [reflexivity|].
  destruct l as [|x l]; simpl.
  - rewrite firstn_nil. reflexivity.
  - f_equal. apply IH.
Qed.

Lemma concat_slices {A : Type} (size : nat) : forall n (l : list A),
  List.concat (slices size n l) = firstn (n * size) l.
Proof.
  induction n as [|n IH]; intros l; simpl; [reflexivity|].
  rewrite IH. apply firstn_firstn_skipn.
Qed.

Lemma slices_sizes {A : Type} (size : nat) : forall n (l : list A),
  (0 < size)%nat ->
  (pred n * size < length l \/ n = O)%nat ->
  Forall (fun b => (1 <= length b <= size)%nat) (slices size n l).
Proof.
  induction n as [|n IH]; intros l Hsize Hn; simpl; [constructor|].
  destruct Hn as [Hn | Hn]; [|discriminate]. simpl in Hn.
  constructor.
  - rewrite length_firstn. lia.
  - apply IH; [exact Hsize|]. rewrite length_skipn.
    destruct n as [|n]; [right; reflexivity|]. left. simpl in *. lia.
Qed.

(** The batches of [getEmbeddings] are consecutive slices of the texts:
    joined in order they give the texts back, and each holds between 1 and
    [size] texts. *)
Lemma in_batches_partition {A : Type} (size : nat) (l : list A) :
  (0 < size)%nat ->
  List.concat (in_batches size l) = l
  /\ Forall (fun b => (1 <= length b <= size)%nat) (in_batches size l).
Proof.
  intros Hsize. unfold in_batches.
  pose proof (Nat.div_mod_eq (length l + size - 1) size) as Hdiv.
  pose proof (Nat.mod_upper_bound (length l + size - 1) size) as Hmod.
  set (n := ((length l + size - 1) / size)%nat) in *.
  split.
  - rewrite concat_slices. apply firstn_all2. nia.
  - apply slices_sizes; [exact Hsize|].
    destruct n as [|n]; [right; reflexivity|]. left. simpl. nia.
Qed.

Lemma Forall2_concat {A B : Type} (R : A -> B -> Prop) :
  forall (ls : list (list A)) (ms : list (list B)),
    Forall2 (Forall2 R) ls ms -> Forall2 R (List.concat ls) (List.concat ms).
Proof.
  induction 1; simpl; [constructor|]. apply Forall2_app; assumption.
Qed.

Lemma getEmbeddings_Forall2 (R : list N -> vector -> Prop) create texts w embeddings :
  (forall batch answer, create batch = Some answer -> Forall2 R batch answer) ->
  fst (getEmbeddings create texts w) = Some embeddings ->
  Forall2 R texts embeddings.
Proof.
  intros Hcreate Hrun. unfold getEmbeddings in Hrun.
  pose proof (embed_batches_trace create (in_batches BATCH_SIZE texts) w) as Htrace.
  rewrite Hrun in Htrace. destruct Htrace as [_ (answers & Hall & ->)].
  destruct (in_batches_partition BATCH_SIZE texts) as [Hconcat _];
    [unfold BATCH_SIZE; lia|].
  rewrite <- Hconcat. apply Forall2_concat.
  eapply Forall2_impl; [exact Hall|]. intros batch answer. apply Hcreate.
Qed.

(** X6.  Alignment of the embeddings.  Whatever relation the provider
    guarantees between the texts of one batch and the vectors of its
    answer, position by position, holds between the texts given to
    [getEmbeddings] and the vectors it returns: batching keeps the order
    and the number of the vectors. *)
Theorem getEmbeddings_aligned (R : list N -> vector -> Prop)
    (create : provider) (texts : list (list N)) (w : world)
    (embeddings : list vector) :
  (forall batch answer, create batch = Some answer -> Forall2 R batch answer) ->
  fst (getEmbeddings create texts w) = Some embeddings ->
  Forall2 R texts embeddings.
Proof. apply getEmbeddings_Forall2. Qed.

Lemma getEmbeddings_aligned_witness :
  Forall2 (fun _ v => v = [1%float; 0%float])
    [js "one"; js "two"; js "three"]
    [[1%float; 0%float]; [1%float; 0%float]; [1%float; 0%float]].
Proof.
  apply (getEmbeddings_aligned (fun _ v => v = [1%float; 0%float])
           unit_provider [js "one"; js "two"; js "three"] empty_dir).
  - intros batch answer H. unfold unit_provider in H. inversion H; subst.
    clear H. induction batch; simpl; constructor; auto.
  - reflexivity.
Defined.

(** X7.  The requests of [getEmbeddings].  Whatever the provider answers,
    the only effects are requests; the batches requested are consecutive
    slices of the texts in order, each of 1 to 100 texts, and when the call
    returns they cover all the texts.  An empty list of texts sends no
    request. *)
Theorem getEmbeddings_requests (create : provider) (texts : list (list N))
    (w : world) :
  exists sent rest,
    events (snd (getEmbeddings create texts w))
    = events w ++ List.map Request sent
    /\ Forall (fun batch => (1 <= length batch <= 100)%nat) sent
    /\ texts = List.concat sent ++ rest
    /\ (fst (getEmbeddings create texts w) <> None -> rest = []).
Proof.
  unfold getEmbeddings.
  pose proof (embed_batches_trace create (in_batches BATCH_SIZE texts) w) as Htrace.
  destruct (in_batches_partition BATCH_SIZE texts) as [Hconcat Hsizes];
    [unfold BATCH_SIZE; lia|].
  change BATCH_SIZE with 100%nat in Hsizes at 1.
  destruct (fst (embed_batches create (in_batches BATCH_SIZE texts) w)) as [data|].
  - destruct Htrace as [Hev _].
    exists (in_batches BATCH_SIZE texts), [].
    rewrite app_nil_r. auto.
  - destruct Htrace as (sent & bad & rest & Hb & _ & _ & Hev).
    exists (sent ++ [bad]), (List.concat rest).
    split; [exact Hev|]. rewrite Hb in Hsizes, Hconcat.
    split.
    + apply Forall_app in Hsizes. destruct Hsizes as [Hs Hr].
      apply Forall_app. split; [exact Hs|].
      apply List.Forall_cons_iff in Hr. constructor; [apply Hr | constructor].
    + split; [|congruence].
      rewrite <- Hconcat, !concat_app. simpl. rewrite app_nil_r, <- app_assoc.
      reflexivity.
Qed.

(** X8.  A rejected call ends [getEmbeddings].  It throws exactly when
    the provider rejects one of the batches; the batches requested are then
    those up to the first rejected one, and no later batch is submitted. *)
Theorem getEmbeddings_stops_at_rejection (create : provider)
    (texts : list (list N)) (w : world) :
  match fst (getEmbeddings create texts w) with
  | Some _ =>
      Forall (fun batch => create batch <> None) (in_batches BATCH_SIZE texts)
  | None =>
      exists sent bad rest,
        in_batches BATCH_SIZE texts = sent ++ bad :: rest
        /\ create bad = None
        /\ Forall (fun batch => create batch <> None) sent
        /\ events (snd (getEmbeddings create texts w))
           = events w ++ List.map Request (sent ++ [bad])
  end.
Proof.
  unfold getEmbeddings.
  pose proof (embed_batches_trace create (in_batches BATCH_SIZE texts) w) as Htrace.
  destruct (fst (embed_batches create (in_batches BATCH_SIZE texts) w));
    [|exact Htrace].
  destruct Htrace as [_ (answers & Hall & _)].
  induction Hall; constructor; [congruence | assumption].
Qed.

(** ** Cosine similarity *)

Lemma SFmul_comm x y : SF64mul x y = SF64mul y x.
Proof.
  destruct x as [sx|sx| |sx mx ex], y as [sy|sy| |sy my ey]; simpl;
    try reflexivity; try (rewrite xorb_comm; reflexivity).
  rewrite xorb_comm, Pos.mul_comm, Z.add_comm. reflexivity.
Qed.

(** The product of two binary64 numbers does not depend on their order. *)
Lemma mul_comm (x y : float) : (x * y = y * x)%float.
Proof.
  apply FloatAxioms.Prim2SF_inj. rewrite !FloatAxioms.mul_spec. apply SFmul_comm.
Qed.

Lemma cosine_sums_swap : forall a b dot na nb,
  length a = length b ->
  cosine_sums b a dot nb na
  = let '(d, n1, n2) := cosine_sums a b dot na nb in (d, n2, n1).
Proof.
  induction a as [|x a IH]; intros [|y b] dot na nb Hlen; simpl in *;
    try discriminate; [reflexivity|].
  rewrite IH by congruence. rewrite (mul_comm y x). reflexivity.
Qed.

(** X9.  The similarity of two arrays of the same length does not depend
    on their order. *)
Theorem cosine_symmetric (a b : vector) :
  length a = length b -> cosine a b = cosine b a.
Proof.
  intros Hlen. unfold cosine. rewrite (cosine_sums_swap a b) by exact Hlen.
  destruct (cosine_sums a b 0 0 0) as [[d n1] n2].
  rewrite (mul_comm (sqrt n2) (sqrt n1)). reflexivity.
Qed.

Lemma cosine_symmetric_witness :
  cosine [1; 2]%float [0.5; 4]%float = cosine [0.5; 4]%float [1; 2]%float.
Proof. apply cosine_symmetric. reflexivity. Defined.

Lemma SFadd_nan_l y : SF64add S754_nan y = S754_nan.
Proof. reflexivity. Qed.

Lemma SFadd_nan_r x : SF64add x S754_nan = S754_nan.
Proof. destruct x; reflexivity. Qed.

Lemma SFmul_nan_r x : SF64mul x S754_nan = S754_nan.
Proof. destruct x; reflexivity. Qed.

(** Once the dot product is NaN it stays NaN. *)
Lemma cosine_sums_nan : forall a b dot na nb,
  Prim2SF dot = S754_nan ->
  Prim2SF (cosine_sums a b dot na nb).1.1 = S754_nan.
Proof.
  induction a as [|x a IH]; intros b dot na nb Hdot; simpl; [exact Hdot|].
  apply IH. rewrite FloatAxioms.add_spec, Hdot. apply SFadd_nan_l.
Qed.

Lemma cosine_sums_short : forall a b dot na nb,
  (length b < length a)%nat ->
  Prim2SF (cosine_sums a b dot na nb).1.1 = S754_nan.
Proof.
  induction a as [|x a IH]; intros b dot na nb Hlen; simpl in *; [lia|].
  destruct b as [|y b]; simpl in *.
  - apply cosine_sums_nan.
    rewrite FloatAxioms.add_spec, FloatAxioms.mul_spec.
    change (Prim2SF nan) with S754_nan.
    rewrite SFmul_nan_r. apply SFadd_nan_r.
  - apply IH. lia.
Qed.

(** X10.  Dimension mismatch.  When the stored array is shorter than the
    query array, the reads past its end are [undefined] and the score is
    NaN. *)
Theorem cosine_short_vector_nan (a b : vector) :
  (length b < length a)%nat -> PrimFloat.is_nan (cosine a b) = true.
Proof.
  intros Hlen. apply is_nan_spec. unfold cosine.
  pose proof (cosine_sums_short a b 0 0 0 Hlen) as Hdot.
  destruct (cosine_sums a b 0 0 0) as [[dot na] nb]. simpl in Hdot.
  rewrite FloatAxioms.div_spec, Hdot. reflexivity.
Qed.

Lemma cosine_short_vector_nan_witness :
  PrimFloat.is_nan (cosine [1; 2]%float [1]%float) = true.
Proof. apply cosine_short_vector_nan. simpl. lia. Defined.

Lemma cosine_sums_extra : forall a b extra dot na nb,
  (length a <= length b)%nat ->
  cosine_sums a (b ++ extra) dot na nb = cosine_sums a b dot na nb.
Proof.
  induction a as [|x a IH]; intros b extra dot na nb Hlen; simpl; [reflexivity|].
  destruct b as [|y b]; simpl in *; [lia|]. apply IH. lia.
Qed.

(** X11.  Dimension mismatch, the other way.  The components of the
    stored array past the length of the query array are not read: the
    score is that of the stored array cut to the length of the query. *)
Theorem cosine_ignores_extra (a b extra : vector) :
  (length a <= length b)%nat -> cosine a (b ++ extra) = cosine a b.
Proof.
  intros Hlen. unfold cosine. rewrite cosine_sums_extra by exact Hlen.
  reflexivity.
Qed.

Lemma cosine_ignores_extra_witness :
  cosine [1; 2]%float ([0.5; 4]%float ++ [8]%float) = cosine [1; 2]%float [0.5; 4]%float.
Proof. apply cosine_ignores_extra. simpl. lia. Defined.

(** ** Workspace indexer, continued *)

(** What [getEmbeddings] returns does not depend on the data directory. *)
Lemma embed_batches_fst create : forall batches w w',
  fst (embed_batches create batches w) = fst (embed_batches create batches w').
Proof.
  induction batches as [|batch batches IH]; intros w w'; simpl; [reflexivity|].
  destruct (create batch) as [data|]; [|reflexivity].
  specialize (IH (emit (Request batch) w) (emit (Request batch) w')).
  destruct (embed_batches create batches (emit (Request batch) w)) as [r w2].
  destruct (embed_batches create batches (emit (Request batch) w')) as [r' w2'].
  simpl in *. rewrite IH. reflexivity.
Qed.

Lemma getEmbeddings_fst create texts w w' :
  fst (getEmbeddings create texts w) = fst (getEmbeddings create texts w').
Proof. apply embed_batches_fst. Qed.

Lemma toIndex_full fileMeta files : Index.toIndex true fileMeta files = files.
Proof.
  unfold Index.toIndex. induction files as [|f files IH]; [reflexivity|].
  cbn [List.filter]. rewrite IH. reflexivity.
Qed.

(** X12.  A full rebuild reads neither the store nor the tracker: its
    report is the same whatever the data directory held, corrupt files
    included, it never ends with the error of [JSON.parse], and the store
    and the tracker it writes are the same too. *)
Theorem index_full_ignores_data_dir (files : list Crawled.t)
    (create : provider) (now : Z) (w w' : world) :
  let run := Index.main true files create now w in
  let run' := Index.main true files create now w' in
  fst run = fst run'
  /\ fst run <> Threw SyntaxError
  /\ (forall n, fst run = Ok (NoContent n) ->
        index_file (snd run) = index_file (snd run'))
  /\ (forall a b c fs, fst run = Ok (Indexed a b c fs) ->
        index_file (snd run) = index_file (snd run')
        /\ meta_file (snd run) = meta_file (snd run')).
Proof.
  unfold Index.main. rewrite toIndex_full.
  destruct files as [|f0 fs0]; [simpl; repeat split; discriminate|].
  destruct (Index.allChunks (f0 :: fs0)) as [|c0 cs];
    [simpl; repeat split; discriminate|].
  pose proof (getEmbeddings_fst create
                (List.map (fun c => slice0 EMBED_CHARS (Chunk.text c)) (c0 :: cs))
                w w') as Hfst.
  destruct (getEmbeddings create _ w) as [[embeddings|] w1];
    destruct (getEmbeddings create _ w') as [[embeddings'|] w1'];
    simpl in Hfst; try discriminate; simpl.
  - inversion Hfst; subst. repeat split; discriminate.
  - repeat split; discriminate.
Qed.

(** X13.  The report of an incremental run.  [totalChunks] is the number
    of records of the store as the run leaves it; [filesIndexed] counts
    the paths listed under [files], and [chunksAdded] never exceeds
    [totalChunks]. *)
Theorem index_report_counts (files : list Crawled.t) (create : provider)
    (now : Z) (w w' : world) (r : index_report) :
  Index.main false files create now w = (Ok r, w') ->
  totalChunks r = length (store_docs w')
  /\ match r with
     | Indexed a b c fs => a = length fs /\ (b <= c)%nat
     | _ => True
     end.
Proof.
  unfold Index.main, loadFileMeta, loadIndex, store_docs. intros Hrun.
  destruct (meta_file w) as [| |fileMeta]; try discriminate;
    destruct (index_file w) as [| |docs] eqn:Hindex; try discriminate;
    (destruct (Index.toIndex false _ files) as [|f0 fs0];
     [inversion Hrun; subst; rewrite Hindex; split; [reflexivity | exact I]|]);
    (destruct (Index.allChunks (f0 :: fs0)) as [|c0 cs];
     [inversion Hrun; subst; split; [reflexivity | exact I]|]);
    (destruct (getEmbeddings create _ w) as [[embeddings|] w1]; [|discriminate]);
    inversion Hrun; subst; simpl;
    (split; [reflexivity|]);
    rewrite ?length_app, ?length_map; simpl; split; try reflexivity; lia.
Qed.

Lemma index_report_counts_witness :
  totalChunks (Indexed 1 1 2 [b_md])
  = length (store_docs
              (snd (Index.main false
                      [Crawled.mk a_md 1 note_a; Crawled.mk b_md 5 note_b]
                      unit_provider 9 tracked_ab)))
  /\ (1%nat = length [b_md] /\ (1 <= 2)%nat).
Proof.
  apply (index_report_counts
           [Crawled.mk a_md 1 note_a; Crawled.mk b_md 5 note_b]
           unit_provider 9 tracked_ab _ (Indexed 1 1 2 [b_md])).
  vm_compute. reflexivity.
Defined.

Lemma index_newDocs_chunks (R : list N -> vector -> Prop) now :
  forall cs embs pre d,
    Forall2 R (List.map (fun c => slice0 EMBED_CHARS (Chunk.text c)) cs) embs ->
    In d (Index.newDocs_from now (pre ++ embs) (length pre) cs) ->
    exists c v,
      In c cs
      /\ d = Doc.mk (FileId (Chunk.file c) (Chunk.startLine c))
               (Chunk.file c) (Chunk.startLine c) (Chunk.endLine c)
               (Chunk.heading c) (Chunk.text c) (Some v) now None
      /\ R (slice0 EMBED_CHARS (Chunk.text c)) v.
Proof.
  induction cs as [|c cs IH]; intros embs pre d Hall Hd; simpl in *; [destruct Hd|].
  inversion Hall as [|t e ts embs' Hte Hrest]; subst.
  destruct Hd as [<- | Hd].
  - exists c, e. split; [left; reflexivity|]. split; [|exact Hte].
    rewrite nth_error_app2 by lia. rewrite Nat.sub_diag. reflexivity.
  - destruct (IH embs' (pre ++ [e]) d Hrest) as (c' & v & Hin & Hd' & HR).
    + rewrite <- app_assoc, length_app. simpl.
      replace (length pre + 1)%nat with (S (length pre)) by lia. exact Hd.
    + exists c', v. split; [right; exact Hin | split; assumption].
Qed.

(** The records that a run writes for the files it indexed: one per chunk
    of such a file, with the vector answered for the cut text. *)
Lemma index_main_new_records (R : list N -> vector -> Prop) full files create
    now w w' a b c fs :
  (forall batch answer, create batch = Some answer -> Forall2 R batch answer) ->
  Index.main full files create now w = (Ok (Indexed a b c fs), w') ->
  exists docs,
    index_file w' = Stored docs
    /\ c = length docs
    /\ forall d, In d docs -> In (Doc.file d) fs ->
         exists f chunk v,
           In f files
           /\ In chunk (chunkMarkdown (Crawled.content f) (Crawled.relPath f))
           /\ d = Doc.mk (FileId (Chunk.file chunk) (Chunk.startLine chunk))
                    (Chunk.file chunk) (Chunk.startLine chunk)
                    (Chunk.endLine chunk) (Chunk.heading chunk)
                    (Chunk.text chunk) (Some v) now None
           /\ R (slice0 EMBED_CHARS (Chunk.text chunk)) v.
Proof.
  intros Hcreate Hrun. unfold Index.main in Hrun.
  destruct (if full then Ok ∅ else loadFileMeta w) as [fileMeta|e]; [|discriminate].
  destruct (if full then Ok [] else loadIndex w) as [docs|e]; [|discriminate].
  destruct (Index.toIndex full fileMeta files) as [|f0 fs0] eqn:Hti; [discriminate|].
  rewrite <- Hti in *.
  destruct (Index.allChunks (Index.toIndex full fileMeta files)) as [|c0 cs] eqn:Hchunks;
    [discriminate|].
  rewrite <- Hchunks in *.
  pose proof (getEmbeddings_Forall2 R create
                (List.map (fun c => slice0 EMBED_CHARS (Chunk.text c))
                   (Index.allChunks (Index.toIndex full fileMeta files))) w) as Hal.
  destruct (getEmbeddings create _ w) as [[embeddings|] w1]; [|discriminate].
  inversion Hrun; subst. clear Hrun.
  eexists. split; [reflexivity|]. split; [reflexivity|]. intros d Hd Hfile.
  apply in_app_or in Hd. destruct Hd as [Hd | Hd].
  - apply in_keptDocs in Hd. destruct Hd as (_ & Hre & _).
    exfalso. apply Hre. apply elem_of_reindexPaths. exact Hfile.
  - destruct (index_newDocs_chunks R now
                (Index.allChunks (Index.toIndex full fileMeta files))
                embeddings [] d) as (chunk & v & Hin & Hd' & HR).
    + apply Hal; [exact Hcreate | reflexivity].
    + exact Hd.
    + unfold Index.allChunks in Hin. apply in_flat_map in Hin.
      destruct Hin as (f & Hf & Hchunk). apply in_toIndex in Hf.
      exists f, chunk, v. tauto.
Qed.

(** X14.  The vectors of the records.  Whatever relation the provider
    guarantees between a text and the vector it answers for it, after a
    run that indexed files every record of a file listed in the report
    holds a vector, and that vector is related to the first 8000
    characters of the text of the record. *)
Theorem index_records_embedded (R : list N -> vector -> Prop)
    (full : bool) (files : list Crawled.t) (create : provider) (now : Z)
    (w w' : world) (a b c : nat) (fs : list (list N)) :
  (forall batch answer, create batch = Some answer -> Forall2 R batch answer) ->
  Index.main full files create now w = (Ok (Indexed a b c fs), w') ->
  exists docs,
    index_file w' = Stored docs
    /\ forall d, In d docs -> In (Doc.file d) fs ->
         exists v, Doc.vector d = Some v
                   /\ R (slice0 EMBED_CHARS (Doc.text d)) v.
Proof.
  intros Hcreate Hrun.
  destruct (index_main_new_records R _ _ _ _ _ _ _ _ _ _ Hcreate Hrun)
    as (docs & Hstore & _ & Hnew).
  exists docs. split; [exact Hstore|]. intros d Hd Hfile.
  destruct (Hnew d Hd Hfile) as (f & chunk & v & _ & _ & -> & HR).
  exists v. split; [reflexivity | exact HR].
Qed.

Lemma index_records_embedded_witness :
  exists docs,
    index_file
      (snd (Index.main false
              [Crawled.mk a_md 1 note_a; Crawled.mk b_md 5 note_b]
              unit_provider 9 tracked_ab)) = Stored docs
    /\ forall d, In d docs -> In (Doc.file d) [b_md] ->
         exists v, Doc.vector d = Some v
                   /\ (fun _ v => v = [1%float; 0%float])
                        (slice0 EMBED_CHARS (Doc.text d)) v.
Proof.
  apply (index_records_embedded (fun _ v => v = [1%float; 0%float]) false
           [Crawled.mk a_md 1 note_a; Crawled.mk b_md 5 note_b]
           unit_provider 9 tracked_ab _ 1%nat 1%nat 2%nat [b_md]).
  - intros batch answer H. unfold unit_provider in H. inversion H; subst.
    clear H. induction batch; simpl; constructor; auto.
  - vm_compute. reflexivity.
Defined.

Lemma index_rerun_after_indexed_witness :
  let w' := snd (Index.main false [Crawled.mk a_md 5 note_a] unit_provider 9
                   empty_dir) in
  Index.main false [Crawled.mk a_md 5 note_a] failing_provider 10 w'
  = (Ok (NoFilesChanged 1), w').
Proof.
  apply (index_rerun_after_indexed false [Crawled.mk a_md 5 note_a]
           unit_provider 9 empty_dir _ 1%nat 1%nat 1%nat [a_md]).
  - constructor; [intros [] | constructor].
  - vm_compute. reflexivity.
Defined.

(** ** Ad-hoc ingestion, continued *)

Lemma loadIndex_same_files w w1 : same_files w w1 -> loadIndex w1 = loadIndex w.
Proof. intros (Hi & _ & _). unfold loadIndex. rewrite Hi. reflexivity. Qed.

Lemma ingest_newDocs_file now source embeddings : forall cs i,
  Forall (fun d => Doc.file d = Ingest.ingest_source source)
    (Ingest.newDocs_from now source embeddings i cs).
Proof.
  induction cs as [|c cs IH]; intros i; simpl; constructor; [reflexivity | apply IH].
Qed.

Lemma ingest_newDocs_text now source embeddings : forall cs i,
  List.map Doc.text (Ingest.newDocs_from now source embeddings i cs)
  = List.map Chunk.text cs.
Proof.
  induction cs as [|c cs IH]; intros i; simpl; [reflexivity|].
  rewrite IH. reflexivity.
Qed.

Lemma filter_idem {A : Type} (f : A -> bool) (l : list A) :
  List.filter f (List.filter f l) = List.filter f l.
Proof.
  apply filter_all. apply List.Forall_forall. intros x Hx.
  apply filter_In in Hx. apply Hx.
Qed.

(** The store that a run of ingest.js writes: the records of the other
    sources, then the new ones. *)
Lemma ingest_main_store source text create now w n total w' :
  Ingest.main source text create now w = (Ok (Ingested n total), w') ->
  exists embeddings,
    fst (getEmbeddings create
           (List.map (fun c => slice0 EMBED_CHARS (Chunk.text c))
              (chunkMarkdown text (Ingest.ingest_source source))) w)
    = Some embeddings
    /\ index_file w'
       = Stored
           (List.filter
              (fun d => negb (bool_decide (Doc.file d = Ingest.ingest_source source)))
              (store_docs w)
            ++ Ingest.newDocs_from now source embeddings 0
                 (chunkMarkdown text (Ingest.ingest_source source)))
    /\ n = length (chunkMarkdown text (Ingest.ingest_source source))
    /\ (total = length
                 (List.filter
                    (fun d => negb (bool_decide (Doc.file d = Ingest.ingest_source source)))
                    (store_docs w)) + n)%nat.
Proof.
  unfold Ingest.main. intros Hrun.
  destruct (chunkMarkdown text (Ingest.ingest_source source)) as [|c0 cs] eqn:Hchunks;
    [discriminate|].
  rewrite <- Hchunks in *.
  pose proof (getEmbeddings_files create
                (List.map (fun c => slice0 EMBED_CHARS (Chunk.text c))
                   (chunkMarkdown text (Ingest.ingest_source source))) w) as Hfiles.
  destruct (getEmbeddings create _ w) as [[embeddings|] w1]; [|discriminate].
  simpl in Hfiles. rewrite (loadIndex_same_files w w1 Hfiles) in Hrun.
  assert (Hlen : forall i cs',
            length (Ingest.newDocs_from now source embeddings i cs') = length cs').
  { intros i cs'. revert i. induction cs' as [|c cs' IH]; intros i; simpl;
      [reflexivity | rewrite IH; reflexivity]. }
  unfold loadIndex, store_docs in *.
  destruct (index_file w) as [| |docs]; try discriminate;
    inversion Hrun; subst; exists embeddings; rewrite !Hlen; simpl;
    repeat split; reflexivity.
Qed.

(** X16.  Replacement by source.  After a run of ingest.js that stored
    chunks under a source, the records of every other source are those of
    the store before the run, unchanged and in order, and the records of
    that source are the chunks of the text given, one record per chunk in
    order: the chunks stored earlier under the same source are gone. *)
Theorem ingest_replaces_source (source text : list N) (create : provider)
    (now : Z) (w w' : world) (n total : nat) :
  Ingest.main source text create now w = (Ok (Ingested n total), w') ->
  exists docs',
    index_file w' = Stored docs'
    /\ List.filter
         (fun d => negb (bool_decide (Doc.file d = Ingest.ingest_source source))) docs'
       = List.filter
           (fun d => negb (bool_decide (Doc.file d = Ingest.ingest_source source)))
           (store_docs w)
    /\ List.map Doc.text
         (List.filter
            (fun d => bool_decide (Doc.file d = Ingest.ingest_source source)) docs')
       = List.map Chunk.text (chunkMarkdown text (Ingest.ingest_source source))
    /\ n = length (chunkMarkdown text (Ingest.ingest_source source))
    /\ total = length docs'.
Proof.
  intros Hrun.
  destruct (ingest_main_store _ _ _ _ _ _ _ _ Hrun)
    as (embeddings & _ & Hstore & Hn & Htotal).
  eexists. split; [exact Hstore|].
  pose proof (ingest_newDocs_file now source embeddings
                (chunkMarkdown text (Ingest.ingest_source source)) 0) as Hnew.
  rewrite !List.filter_app. repeat split.
  - rewrite filter_idem, (filter_none _ (Ingest.newDocs_from _ _ _ _ _)).
    + apply app_nil_r.
    + intros d Hd. rewrite List.Forall_forall in Hnew.
      rewrite (Hnew d Hd). rewrite bool_decide_eq_true_2 by reflexivity.
      reflexivity.
  - rewrite (filter_none _ (List.filter _ _)).
    + simpl. rewrite filter_all.
      * apply ingest_newDocs_text.
      * eapply List.Forall_impl; [|exact Hnew]. intros d Hd. simpl in Hd.
        apply bool_decide_eq_true_2. exact Hd.
    + intros d Hd. apply filter_In in Hd. destruct Hd as [_ Hd].
      apply negb_true_iff in Hd. exact Hd.
  - exact Hn.
  - rewrite length_app, Htotal, Hn.
    f_equal. clear. generalize 0%nat.
    induction (chunkMarkdown text (Ingest.ingest_source source)) as [|c cs IH];
      intros i; simpl; [reflexivity | rewrite <- IH; reflexivity].
Qed.

Lemma ingest_replaces_source_witness :
  let w' := snd (Ingest.main (js "note") note_b unit_provider 9 tracked_ab) in
  exists docs',
    index_file w' = Stored docs'
    /\ List.filter
         (fun d => negb (bool_decide (Doc.file d = Ingest.ingest_source (js "note")))) docs'
       = List.filter
           (fun d => negb (bool_decide (Doc.file d = Ingest.ingest_source (js "note"))))
           (store_docs tracked_ab)
    /\ List.map Doc.text
         (List.filter
            (fun d => bool_decide (Doc.file d = Ingest.ingest_source (js "note"))) docs')
       = List.map Chunk.text (chunkMarkdown note_b (Ingest.ingest_source (js "note")))
    /\ 1%nat = length (chunkMarkdown note_b (Ingest.ingest_source (js "note")))
    /\ 3%nat = length docs'.
Proof.
  apply (ingest_replaces_source (js "note") note_b unit_provider 9 tracked_ab).
  vm_compute. reflexivity.
Defined.

(** X17.  Ingesting twice.  After a run of ingest.js that stored chunks, a
    second run with the same source and text gives the same report, so the
    store does not grow, and leaves the store as a single run at the later
    time would have left it. *)
Theorem ingest_twice (source text : list N) (create : provider)
    (now now' : Z) (w w1 : world) (n total : nat) :
  Ingest.main source text create now w = (Ok (Ingested n total), w1) ->
  fst (Ingest.main source text create now' w1) = Ok (Ingested n total)
  /\ index_file (snd (Ingest.main source text create now' w1))
     = index_file (snd (Ingest.main source text create now' w)).
Proof.
  intros Hrun.
  destruct (ingest_main_store _ _ _ _ _ _ _ _ Hrun)
    as (embeddings & Hemb & Hstore & Hn & Htotal).
  pose proof (ingest_newDocs_file now source embeddings
                (chunkMarkdown text (Ingest.ingest_source source)) 0) as Hnew.
  assert (Hlen : forall t i cs',
            length (Ingest.newDocs_from t source embeddings i cs') = length cs').
  { intros t i cs'. revert i. induction cs' as [|c cs' IH]; intros i; simpl;
      [reflexivity | rewrite IH; reflexivity]. }
  assert (Hfilter :
    List.filter
      (fun d => negb (bool_decide (Doc.file d = Ingest.ingest_source source)))
      (store_docs w1)
    = List.filter
        (fun d => negb (bool_decide (Doc.file d = Ingest.ingest_source source)))
        (store_docs w)).
  { unfold store_docs at 1. rewrite Hstore, List.filter_app, filter_idem.
    rewrite (filter_none _ (Ingest.newDocs_from _ _ _ _ _)); [apply app_nil_r|].
    intros d Hd. rewrite List.Forall_forall in Hnew.
    rewrite (Hnew d Hd). rewrite bool_decide_eq_true_2 by reflexivity.
    reflexivity. }
  assert (Hmain : forall v,
    (index_file v <> Corrupt) ->
    Ingest.main source text create now' v
    = (Ok (Ingested n
             (length (List.filter
                (fun d => negb (bool_decide (Doc.file d = Ingest.ingest_source source)))
                (store_docs v)) + n)),
       saveIndex
         (List.filter
            (fun d => negb (bool_decide (Doc.file d = Ingest.ingest_source source)))
            (store_docs v)
          ++ Ingest.newDocs_from now' source embeddings 0
               (chunkMarkdown text (Ingest.ingest_source source)))
         (snd (getEmbeddings create
                 (List.map (fun c => slice0 EMBED_CHARS (Chunk.text c))
                    (chunkMarkdown text (Ingest.ingest_source source))) v)))).
  { intros v Hv. unfold Ingest.main.
    destruct (chunkMarkdown text (Ingest.ingest_source source)) as [|c0 cs] eqn:Hchunks.
    { unfold Ingest.main in Hrun. rewrite Hchunks in Hrun. discriminate. }
    rewrite <- Hchunks in *.
    pose proof (getEmbeddings_files create
                  (List.map (fun c => slice0 EMBED_CHARS (Chunk.text c))
                     (chunkMarkdown text (Ingest.ingest_source source))) v) as Hfiles.
    pose proof (getEmbeddings_fst create
                  (List.map (fun c => slice0 EMBED_CHARS (Chunk.text c))
                     (chunkMarkdown text (Ingest.ingest_source source))) v w) as Hfst.
    rewrite Hemb in Hfst.
    destruct (getEmbeddings create _ v) as [r v1]. simpl in Hfst, Hfiles. subst r.
    rewrite (loadIndex_same_files v v1 Hfiles). unfold loadIndex, store_docs.
    simpl. destruct (index_file v) as [| |docs]; [| congruence |];
      rewrite Hlen, <- Hn; reflexivity. }
  assert (Hw : index_file w <> Corrupt).
  { intros Hc. unfold Ingest.main in Hrun.
    destruct (chunkMarkdown text (Ingest.ingest_source source)); [discriminate|].
    pose proof (getEmbeddings_files create
                  (List.map (fun c => slice0 EMBED_CHARS (Chunk.text c)) (t :: l)) w)
      as Hfiles.
    destruct (getEmbeddings create _ w) as [[e|] v1]; [|discriminate].
    simpl in Hfiles. rewrite (loadIndex_same_files w v1 Hfiles) in Hrun.
    unfold loadIndex in Hrun. rewrite Hc in Hrun. discriminate. }
  rewrite (Hmain w1) by (rewrite Hstore; discriminate).
  rewrite (Hmain w Hw). simpl. rewrite Hfilter. split; [|reflexivity].
  rewrite Htotal. reflexivity.
Qed.

Lemma ingest_twice_witness :
  let w1 := snd (Ingest.main (js "note") note_b unit_provider 9 tracked_ab) in
  fst (Ingest.main (js "note") note_b unit_provider 10 w1) = Ok (Ingested 1 3)
  /\ index_file (snd (Ingest.main (js "note") note_b unit_provider 10 w1))
     = index_file (snd (Ingest.main (js "note") note_b unit_provider 10 tracked_ab)).
Proof.
  apply (ingest_twice (js "note") note_b unit_provider 9 10 tracked_ab).
  vm_compute. reflexivity.
Defined.

(** ** Session ingestion, continued *)

Lemma startsWith_spec : forall p s,
  startsWith p s = true <-> exists post, s = p ++ post.
Proof.
  induction p as [|a p IH]; intros s; simpl.
  - split; [intros _; exists s; reflexivity | reflexivity].
  - destruct s as [|b s].
    + split; [discriminate | intros [post H]; discriminate H].
    + rewrite andb_true_iff, N.eqb_eq, IH. split.
      * intros [-> [post ->]]. exists post. reflexivity.
      * intros [post H]. inversion H; subst. split; [reflexivity|].
        exists post. reflexivity.
Qed.

Lemma includes_spec p : forall s, includes p s = true <-> occurs p s.
Proof.
  induction s as [|c s IH].
  - simpl. rewrite orb_false_r, startsWith_spec. split.
    + intros [post H]. exists [], post. exact H.
    + intros (pre & post & H). destruct pre; [|discriminate H].
      exists post. exact H.
  - cbn [includes]. rewrite orb_true_iff, startsWith_spec, IH. split.
    + intros [[post H] | (pre & post & H)].
      * exists [], post. exact H.
      * exists (c :: pre), post. rewrite H. reflexivity.
    + intros (pre & post & H). destruct pre as [|c' pre].
      * left. exists post. exact H.
      * right. inversion H; subst. exists pre, post. reflexivity.
Qed.

Lemma in_in_batches {A : Type} (size : nat) (l : list A) batch x :
  (0 < size)%nat -> In batch (in_batches size l) -> In x batch -> In x l.
Proof.
  intros Hsize Hb Hx.
  destruct (in_batches_partition size l Hsize) as [Hconcat _].
  rewrite <- Hconcat. apply in_concat. exists batch. split; assumption.
Qed.

(** X18.  What a session chunk renders.  Every text that a transcript
    contributes is the rendering, joined by blank lines, of 1 to 5 of its
    messages at or after the offset, and has at least 30 characters.  None
    of these messages is noise: its role is not [toolResult], [tool] or
    [system], its text has at least 10 characters, contains neither
    [HEARTBEAT_OK] nor the heartbeat prompt, and is not [NO_REPLY]. *)
Theorem session_chunk_renders_kept_messages (label text : list N)
    (offset : nat) (messages : list Message.t) :
  In text (IngestSessions.chunkTexts label
             (IngestSessions.newMessages offset messages)) ->
  (30 <= length text)%nat
  /\ exists batch,
       text = join para_sep
                (List.map (fun m => IngestSessions.formatMsg m label) batch)
       /\ (1 <= length batch <= 5)%nat
       /\ forall m, In m batch ->
            In m (skipn offset messages)
            /\ Message.role m <> js "toolResult"
            /\ Message.role m <> js "tool"
            /\ Message.role m <> js "system"
            /\ (10 <= length (IngestSessions.extractText (Message.content m)))%nat
            /\ ~ occurs (js "HEARTBEAT_OK")
                   (IngestSessions.extractText (Message.content m))
            /\ ~ occurs (js "Read HEARTBEAT.md if it exists")
                   (IngestSessions.extractText (Message.content m))
            /\ trim (IngestSessions.extractText (Message.content m))
               <> js "NO_REPLY".
Proof.
  unfold IngestSessions.chunkTexts. intros Hin.
  apply filter_In in Hin. destruct Hin as [Hin Hlen].
  apply negb_true_iff, Nat.ltb_ge in Hlen. split; [exact Hlen|].
  apply in_map_iff in Hin. destruct Hin as (batch & <- & Hbatch).
  exists batch. split; [reflexivity|].
  destruct (in_batches_partition IngestSessions.MSGS_PER_CHUNK
              (IngestSessions.newMessages offset messages)) as [_ Hsizes];
    [unfold IngestSessions.MSGS_PER_CHUNK; lia|].
  rewrite List.Forall_forall in Hsizes.
  split; [exact (Hsizes batch Hbatch)|].
  intros m Hm.
  apply (in_in_batches IngestSessions.MSGS_PER_CHUNK
           (IngestSessions.newMessages offset messages) batch m) in Hm;
    [| unfold IngestSessions.MSGS_PER_CHUNK; lia | exact Hbatch].
  unfold IngestSessions.newMessages in Hm. apply filter_In in Hm.
  destruct Hm as [Hskip Hkeep]. split; [exact Hskip|].
  apply negb_true_iff in Hkeep. unfold IngestSessions.shouldSkipMessage in Hkeep.
  destruct (bool_decide (Message.role m = js "toolResult")) eqn:H1;
    [discriminate|].
  destruct (bool_decide (Message.role m = js "tool")) eqn:H2; [discriminate|].
  destruct (bool_decide (Message.role m = js "system")) eqn:H3; [discriminate|].
  simpl in Hkeep.
  destruct (length (IngestSessions.extractText (Message.content m)) <? 10)%nat eqn:H4;
    [discriminate|].
  destruct (includes (js "HEARTBEAT_OK") _) eqn:H5; [discriminate|].
  destruct (includes (js "Read HEARTBEAT.md if it exists") _) eqn:H6; [discriminate|].
  destruct (bool_decide (trim _ = js "NO_REPLY")) eqn:H7; [discriminate|].
  apply bool_decide_eq_false in H1, H2, H3, H7. apply Nat.ltb_ge in H4.
  repeat split; try assumption.
  - intros Ho. apply includes_spec in Ho. congruence.
  - intros Ho. apply includes_spec in Ho. congruence.
Qed.

Lemma session_chunk_renders_kept_messages_witness :
  let messages :=
    IngestSessions.parseJSONL [chat 1; user_says (js "HEARTBEAT_OK"); chat 3] in
  let text := js "[main] Human: message number 1 of the session

[main] Human: message number 3 of the session" in
  (30 <= length text)%nat
  /\ exists batch,
       text = join para_sep
                (List.map (fun m => IngestSessions.formatMsg m (js "main")) batch)
       /\ (1 <= length batch <= 5)%nat
       /\ forall m, In m batch ->
            In m (skipn 0 messages)
            /\ Message.role m <> js "toolResult"
            /\ Message.role m <> js "tool"
            /\ Message.role m <> js "system"
            /\ (10 <= length (IngestSessions.extractText (Message.content m)))%nat
            /\ ~ occurs (js "HEARTBEAT_OK")
                   (IngestSessions.extractText (Message.content m))
            /\ ~ occurs (js "Read HEARTBEAT.md if it exists")
                   (IngestSessions.extractText (Message.content m))
            /\ trim (IngestSessions.extractText (Message.content m))
               <> js "NO_REPLY".
Proof.
  apply (session_chunk_renders_kept_messages (js "main") _ 0
           (IngestSessions.parseJSONL
              [chat 1; user_says (js "HEARTBEAT_OK"); chat 3])).
  vm_compute. left. reflexivity.
Defined.

(** The modification time recorded for a session never goes back in the
    loop over the session files, and after a file was visited it is at
    least that of the file. *)
Lemma ingest_file_lastMtime now a sf sid :
  IngestSessions.lastMtime (IngestSessions.state a) sid
  <= IngestSessions.lastMtime
       (IngestSessions.state (IngestSessions.ingest_file now a sf)) sid
  /\ (sid = SessionFile.sessionId sf ->
      SessionFile.mtime sf
      <= IngestSessions.lastMtime
           (IngestSessions.state (IngestSessions.ingest_file now a sf)) sid).
Proof.
  unfold IngestSessions.ingest_file.
  destruct (SessionFile.mtime sf
            <=? IngestSessions.lastMtime (IngestSessions.state a)
                  (SessionFile.sessionId sf)) eqn:Hle.
  - apply Z.leb_le in Hle. split; [lia | intros ->; exact Hle].
  - apply Z.leb_gt in Hle.
    assert (H : IngestSessions.lastMtime (IngestSessions.state a) sid
                <= IngestSessions.lastMtime
                     (IngestSessions.set_file (IngestSessions.state a)
                        (SessionFile.sessionId sf)
                        (FileState.mk (SessionFile.mtime sf)
                           (length (IngestSessions.parseJSONL (SessionFile.lines sf)))))
                     sid
                /\ (sid = SessionFile.sessionId sf ->
                    SessionFile.mtime sf
                    <= IngestSessions.lastMtime
                         (IngestSessions.set_file (IngestSessions.state a)
                            (SessionFile.sessionId sf)
                            (FileState.mk (SessionFile.mtime sf)
                               (length (IngestSessions.parseJSONL (SessionFile.lines sf)))))
                         sid)).
    { unfold IngestSessions.lastMtime, IngestSessions.set_file in *. simpl.
      destruct (decide (sid = SessionFile.sessionId sf)) as [-> | Hne].
      - rewrite lookup_insert_eq. simpl. split; [lia | intros _; lia].
      - rewrite lookup_insert_ne by congruence. split; [lia | congruence]. }
    destruct (IngestSessions.newMessages _ _); exact H.
Qed.

Lemma fold_ingest_file_seen now : forall sfs a,
  (forall sid,
      IngestSessions.lastMtime (IngestSessions.state a) sid
      <= IngestSessions.lastMtime
           (IngestSessions.state (fold_left (IngestSessions.ingest_file now) sfs a))
           sid)
  /\ forall sf, In sf sfs ->
       SessionFile.mtime sf
       <= IngestSessions.lastMtime
            (IngestSessions.state (fold_left (IngestSessions.ingest_file now) sfs a))
            (SessionFile.sessionId sf).
Proof.
  induction sfs as [|sf0 sfs IH]; intros a; simpl.
  - split; [intros; lia | intros sf []].
  - destruct (IH (IngestSessions.ingest_file now a sf0)) as [Hmono Hseen].
    split.
    + intros sid. etransitivity; [|apply Hmono].
      apply ingest_file_lastMtime.
    + intros sf [<- | Hin]; [|apply Hseen; exact Hin].
      etransitivity; [|apply Hmono].
      apply (ingest_file_lastMtime now a sf0 (SessionFile.sessionId sf0)).
      reflexivity.
Qed.

Lemma fold_ingest_file_noop now : forall sfs a,
  (forall sf, In sf sfs ->
     SessionFile.mtime sf
     <= IngestSessions.lastMtime (IngestSessions.state a) (SessionFile.sessionId sf)) ->
  fold_left (IngestSessions.ingest_file now) sfs a = a.
Proof.
  induction sfs as [|sf0 sfs IH]; intros a Hseen; simpl; [reflexivity|].
  assert (H0 : IngestSessions.ingest_file now a sf0 = a).
  { unfold IngestSessions.ingest_file.
    pose proof (Hseen sf0 (or_introl eq_refl)) as H. apply Z.leb_le in H.
    rewrite H. reflexivity. }
  rewrite H0. apply IH. intros sf Hin. apply Hseen. right. exact Hin.
Qed.

(** A session file that is active at a later time was active earlier. *)
Lemma active_file_earlier now now' dir e sf :
  now <= now' ->
  IngestSessions.active_file now' dir e = Some sf ->
  IngestSessions.active_file now dir e = Some sf.
Proof.
  unfold IngestSessions.active_file. intros Hle.
  destruct (IndexEntry.sessionId e) as [|c sid]; [discriminate|].
  destruct (transcripts dir !! (c :: sid)) as [f|]; [|discriminate].
  destruct (Jsonl.mtimeMs f <? now' - IngestSessions.day_ms) eqn:H'; [discriminate|].
  apply Z.ltb_ge in H'.
  destruct (Jsonl.mtimeMs f <? now - IngestSessions.day_ms) eqn:H; [|auto].
  apply Z.ltb_lt in H. lia.
Qed.

(** What a run that ends normally, and was not skipped, leaves behind: the
    state file holds the time of the run, and for every active session a
    modification time that is at least that of its transcript. *)
Lemma sessions_run_state iso dir create now w r w1 :
  IngestSessions.main iso dir create now w = (Ok r, w1) ->
  r <> Skipped ->
  exists st1 sfs,
    IngestSessions.getActiveSessionFiles now dir = Ok sfs
    /\ state_file w1
       = Stored (StateJson.mk (Some (State.files st1)) (Some now))
    /\ forall sf, In sf sfs ->
         SessionFile.mtime sf
         <= IngestSessions.lastMtime st1 (SessionFile.sessionId sf).
Proof.
  unfold IngestSessions.main. intros Hrun Hr.
  destruct (match State.lastRun (IngestSessions.loadState w) with
            | Some lastRun => now - lastRun <? 50000
            | None => false
            end); [inversion Hrun; subst; congruence|].
  destruct (IngestSessions.getActiveSessionFiles now dir) as [[|sf0 sfs]|e];
    [| |discriminate].
  - inversion Hrun; subst. exists (IngestSessions.loadState w), [].
    split; [reflexivity|]. split; [reflexivity | intros sf []].
  - pose proof (fold_ingest_file_seen now (sf0 :: sfs)
                  (IngestSessions.mkAcc (IngestSessions.loadState w) [] []))
      as [_ Hseen].
    destruct (IngestSessions.allNewTexts _) as [|t0 ts].
    + inversion Hrun; subst. eexists _, (sf0 :: sfs).
      split; [reflexivity|]. split; [reflexivity | exact Hseen].
    + destruct (getEmbeddings create _ w) as [[embeddings|] w2]; [|discriminate].
      destruct (loadIndex w2) as [docs|e]; [|discriminate].
      inversion Hrun; subst. eexists _, (sf0 :: sfs).
      split; [reflexivity|]. split; [reflexivity | exact Hseen].
Qed.

(** X19.  The cooldown.  After a run that ended normally and was not
    itself skipped, any run started less than 50 seconds later is skipped:
    it writes nothing, asks the provider nothing, and leaves the recorded
    time of the last run as it is. *)
Theorem sessions_cooldown (iso iso' : Z -> list N) (dir dir' : sessions_dir)
    (create create' : provider) (now now' : Z) (w w1 : world)
    (r : sessions_report) :
  IngestSessions.main iso dir create now w = (Ok r, w1) ->
  r <> Skipped ->
  now' - now < 50000 ->
  IngestSessions.main iso' dir' create' now' w1 = (Ok Skipped, w1).
Proof.
  intros Hrun Hr Hsoon.
  destruct (sessions_run_state _ _ _ _ _ _ _ Hrun Hr) as (st1 & sfs & _ & Hstate & _).
  unfold IngestSessions.main, IngestSessions.loadState. rewrite Hstate. simpl.
  apply Z.ltb_lt in Hsoon. rewrite Hsoon. reflexivity.
Qed.

Lemma sessions_cooldown_witness :
  IngestSessions.main iso_stub (one_session day1 []) failing_provider
    (day1 + 120000) after_three
  = (Ok Skipped, after_three).
Proof.
  apply (sessions_cooldown iso_stub iso_stub
           (one_session day1 [chat 1; chat 2; chat 3]) (one_session day1 [])
           unit_provider failing_provider (day1 + 100000) (day1 + 120000)
           empty_dir after_three (SessionsIngested 1 1 1)).
  - vm_compute. reflexivity.
  - discriminate.
  - vm_compute. reflexivity.
Defined.

(** X20.  Running again over unchanged transcripts.  After a run that
    ended normally and was not skipped, a later run over the same sessions
    directory ingests nothing: it is skipped, or finds no active session,
    or finds no new message; the store and the tracker are untouched, no
    request is sent, and at most the state file is written. *)
Theorem sessions_rerun_adds_nothing (iso iso' : Z -> list N)
    (dir : sessions_dir) (create create' : provider) (now now' : Z)
    (w w1 : world) (r : sessions_report) :
  IngestSessions.main iso dir create now w = (Ok r, w1) ->
  r <> Skipped ->
  now <= now' ->
  let run := IngestSessions.main iso' dir create' now' w1 in
  match fst run with
  | Ok Skipped | Ok NoActiveSessions | Ok (NoNewMessages _) => True
  | _ => False
  end
  /\ index_file (snd run) = index_file w1
  /\ meta_file (snd run) = meta_file w1
  /\ (events (snd run) = events w1 \/ events (snd run) = events w1 ++ [WriteState]).
Proof.
  intros Hrun Hr Hle.
  destruct (sessions_run_state _ _ _ _ _ _ _ Hrun Hr)
    as (st1 & sfs & Hactive & Hstate & Hseen).
  unfold IngestSessions.main.
  assert (Hload : IngestSessions.loadState w1 = State.mk (State.files st1) (Some now)).
  { unfold IngestSessions.loadState. rewrite Hstate. reflexivity. }
  rewrite Hload. cbn [State.lastRun].
  destruct (now' - now <? 50000); [simpl; auto|].
  unfold IngestSessions.getActiveSessionFiles in *.
  destruct (sessions_index dir) as [| |index]; [simpl; auto | discriminate |].
  inversion Hactive; subst sfs. clear Hactive.
  destruct (omap (IngestSessions.active_file now' dir) index) as [|sf0 sfs'] eqn:Hsfs';
    [simpl; auto|].
  rewrite <- Hsfs'.
  rewrite fold_ingest_file_noop.
  - rewrite Hsfs'. simpl. auto.
  - intros sf Hin. cbn [IngestSessions.state].
    change (IngestSessions.lastMtime (State.mk (State.files st1) (Some now))
              (SessionFile.sessionId sf))
      with (IngestSessions.lastMtime st1 (SessionFile.sessionId sf)).
    apply Hseen.
    apply list_elem_of_In, list_elem_of_omap in Hin.
    destruct Hin as (e & He & Hact).
    apply list_elem_of_In, list_elem_of_omap. exists e.
    split; [exact He|]. eapply active_file_earlier; eassumption.
Qed.

Lemma sessions_rerun_adds_nothing_witness :
  let run := IngestSessions.main iso_stub
               (one_session day1 [chat 1; chat 2; chat 3]) failing_provider
               (day1 + 200000) after_three in
  match fst run with
  | Ok Skipped | Ok NoActiveSessions | Ok (NoNewMessages _) => True
  | _ => False
  end
  /\ index_file (snd run) = index_file after_three
  /\ meta_file (snd run) = meta_file after_three
  /\ (events (snd run) = events after_three
      \/ events (snd run) = events after_three ++ [WriteState]).
Proof.
  apply (sessions_rerun_adds_nothing iso_stub iso_stub
           (one_session day1 [chat 1; chat 2; chat 3])
           unit_provider failing_provider (day1 + 100000) (day1 + 200000)
           empty_dir after_three (SessionsIngested 1 1 1)).
  - vm_compute. reflexivity.
  - discriminate.
  - vm_compute. discriminate.
Defined.

(** X21.  Stale transcripts.  When every transcript was last modified
    more than 24 hours before the run, no session is active: the run is
    skipped, or ends with the error of a sessions.json that does not
    parse, or reports no active session; it asks the provider nothing and
    leaves the store, the tracker and the stored offsets as they are. *)
Theorem sessions_stale_ignored (iso : Z -> list N) (dir : sessions_dir)
    (create : provider) (now : Z) (w : world) :
  (forall sid f, transcripts dir !! sid = Some f ->
     Jsonl.mtimeMs f < now - IngestSessions.day_ms) ->
  let run := IngestSessions.main iso dir create now w in
  (fst run = Ok Skipped \/ fst run = Ok NoActiveSessions
   \/ fst run = Threw SyntaxError)
  /\ index_file (snd run) = index_file w
  /\ meta_file (snd run) = meta_file w
  /\ (forall sid, offset_of (snd run) sid = offset_of w sid)
  /\ (events (snd run) = events w \/ events (snd run) = events w ++ [WriteState]).
Proof.
  intros Hstale. unfold IngestSessions.main.
  destruct (match State.lastRun (IngestSessions.loadState w) with
            | Some lastRun => now - lastRun <? 50000
            | None => false
            end); [simpl; auto 10|].
  unfold IngestSessions.getActiveSessionFiles.
  destruct (sessions_index dir) as [| |index]; simpl.
  - repeat split; auto.
  - auto 10.
  - assert (Hnone : omap (IngestSessions.active_file now dir) index = []).
    { induction index as [|e index IH]; simpl; [reflexivity|].
      assert (He : IngestSessions.active_file now dir e = None).
      { unfold IngestSessions.active_file.
        destruct (IndexEntry.sessionId e) as [|c sid]; [reflexivity|].
        destruct (transcripts dir !! (c :: sid)) as [f|] eqn:Hf; [|reflexivity].
        apply Hstale in Hf. apply Z.ltb_lt in Hf. rewrite Hf. reflexivity. }
      rewrite He. exact IH. }
    rewrite Hnone. simpl. repeat split; auto.
Qed.

Lemma sessions_stale_ignored_witness :
  let run := IngestSessions.main iso_stub (one_session day1 [chat 1])
               unit_provider (day1 + IngestSessions.day_ms + 1) empty_dir in
  (fst run = Ok Skipped \/ fst run = Ok NoActiveSessions
   \/ fst run = Threw SyntaxError)
  /\ index_file (snd run) = index_file empty_dir
  /\ meta_file (snd run) = meta_file empty_dir
  /\ (forall sid, offset_of (snd run) sid = offset_of empty_dir sid)
  /\ (events (snd run) = events empty_dir
      \/ events (snd run) = events empty_dir ++ [WriteState]).
Proof.
  apply (sessions_stale_ignored iso_stub (one_session day1 [chat 1])
           unit_provider (day1 + IngestSessions.day_ms + 1) empty_dir).
  intros sid f Hf. unfold one_session in Hf. simpl in Hf.
  destruct (decide (sid = sid1)) as [-> | Hne].
  - rewrite lookup_insert_eq in Hf. inversion Hf; subst. simpl. lia.
  - rewrite lookup_insert_ne in Hf by congruence.
    rewrite lookup_empty in Hf. discriminate.
Defined.

(** ** Search, continued *)

Lemma getEmbedding_run create query w :
  getEmbedding create query w
  = (option_map (fun answer => List.hd_error answer) (create [query]),
     emit (Request [query]) w).
Proof.
  unfold getEmbedding, getEmbeddings. simpl.
  destruct (create [query]) as [answer|]; simpl; [|reflexivity].
  rewrite app_nil_r. reflexivity.
Qed.

Lemma scored_threw_TypeError queryVec : forall docs e,
  Search.scored queryVec docs = Threw e -> e = TypeError.
Proof.
  induction docs as [|doc docs IH]; intros e H; simpl in H; [discriminate|].
  destruct (cosineSimilarity queryVec (Doc.vector doc)) as [s|e1] eqn:Hcos.
  - destruct (Search.scored queryVec docs) as [more|e2]; [discriminate|].
    inversion H; subst. apply IH. reflexivity.
  - inversion H; subst. unfold cosineSimilarity in Hcos.
    destruct (Doc.vector doc); [discriminate|].
    destruct queryVec; [discriminate|]. inversion Hcos. reflexivity.
Qed.

Lemma scored_entries queryVec : forall docs scored,
  Search.scored queryVec docs = Ok scored ->
  Forall2
    (fun doc r =>
       Scored.file r = Doc.file doc
       /\ Scored.startLine r = Doc.startLine doc
       /\ Scored.endLine r = Doc.endLine doc
       /\ Scored.heading r = Doc.heading doc
       /\ Scored.preview r = firstn 300 (Doc.text doc)
       /\ cosineSimilarity queryVec (Doc.vector doc) = Ok (Scored.score r))
    docs scored.
Proof.
  induction docs as [|doc docs IH]; intros scored H; simpl in H.
  - inversion H. constructor.
  - destruct (cosineSimilarity queryVec (Doc.vector doc)) as [s|e1] eqn:Hcos;
      [|discriminate].
    destruct (Search.scored queryVec docs) as [more|e2]; [|discriminate].
    inversion H; subst. constructor; [|apply IH; reflexivity].
    simpl. repeat split. exact Hcos.
Qed.

Lemma sift_in x : forall before y, In y (Search.sift x before) -> y = x \/ In y before.
Proof.
  induction before as [|b before IH]; intros y Hy; simpl in Hy.
  - destruct Hy as [<- | []]. left. reflexivity.
  - destruct (Search.sorts_after b x); simpl in Hy.
    + destruct Hy as [<- | Hy]; [right; left; reflexivity|].
      destruct (IH y Hy) as [-> | Hin]; [left; reflexivity | right; right; exact Hin].
    + destruct Hy as [<- | Hy]; [left; reflexivity | right; exact Hy].
Qed.

Lemma sort_in l y : In y (Search.sort l) -> In y l.
Proof.
  unfold Search.sort. rewrite <- in_rev.
  assert (H : forall before, In y (fold_left (fun before x => Search.sift x before) l before)
                             -> In y l \/ In y before).
  { induction l as [|x l IH]; intros before Hy; simpl in Hy; [right; exact Hy|].
    destruct (IH _ Hy) as [Hin | Hin]; [left; right; exact Hin|].
    destruct (sift_in _ _ _ Hin) as [-> | Hb]; [left; left; reflexivity | right; exact Hb]. }
  intros Hy. destruct (H [] Hy) as [Hin | []]. exact Hin.
Qed.

(** X22.  Search only reads.  A run of search.js writes no file; it sends
    the provider one request, holding the query alone, or none at all,
    and none when the store is empty or absent: it then answers that the
    index is empty. *)
Theorem search_read_only (query : list N) (limit : Z) (minScore : float)
    (create : provider) (w : world) :
  let run := Search.main query limit minScore create w in
  same_files w (snd run)
  /\ (events (snd run) = events w
      \/ events (snd run) = events w ++ [Request [query]])
  /\ (store_docs w = [] -> index_file w <> Corrupt ->
      run = (Ok IndexEmpty, w)).
Proof.
  unfold Search.main, loadIndex, store_docs.
  destruct (index_file w) as [| |[|d0 docs]] eqn:Hindex; simpl;
    try (split; [apply same_files_refl|]; split; [left; reflexivity|];
         intros; congruence).
  rewrite getEmbedding_run.
  destruct (create [query]) as [[|queryVec answer]|]; simpl;
    try (split; [repeat split|]; split; [right; reflexivity | discriminate]).
  destruct (cosineSimilarity queryVec (Doc.vector d0)); simpl;
    try (split; [repeat split|]; split; [right; reflexivity | discriminate]).
  destruct (Search.scored queryVec docs); simpl;
    split; try (repeat split); try (right; reflexivity); discriminate.
Qed.

(** What the entries of an answer are made from. *)
Lemma search_main_entries query limit minScore create w q rs n :
  fst (Search.main query limit minScore create w) = Ok (Results q rs n) ->
  q = query
  /\ n = length (store_docs w)
  /\ (0 <= limit -> (length rs <= Z.to_nat limit)%nat)
  /\ exists queryVec answer,
       create [query] = Some (queryVec :: answer)
       /\ forall r, In r rs ->
            (minScore <=? Scored.score r)%float = true
            /\ exists doc,
                 In doc (store_docs w)
                 /\ Scored.file r = Doc.file doc
                 /\ Scored.startLine r = Doc.startLine doc
                 /\ Scored.endLine r = Doc.endLine doc
                 /\ Scored.heading r = Doc.heading doc
                 /\ Scored.preview r = firstn 300 (Doc.text doc)
                 /\ cosineSimilarity queryVec (Doc.vector doc)
                    = Ok (Scored.score r).
Proof.
  unfold Search.main, loadIndex, store_docs.
  destruct (index_file w) as [| |[|d0 docs]]; try (simpl; discriminate).
  rewrite getEmbedding_run.
  destruct (create [query]) as [[|queryVec answer]|]; try (simpl; discriminate).
  cbn [option_map List.hd_error].
  destruct (Search.scored queryVec (d0 :: docs)) as [scored|e] eqn:Hscored;
    [|simpl; discriminate].
  cbn [fst]. intros H. inversion H; subst. clear H.
  split; [reflexivity|]. split; [reflexivity|]. split.
  - intros Hlimit. unfold Search.results, Search.slice_to.
    destruct (limit <? 0) eqn:Hneg; [apply Z.ltb_lt in Hneg; lia|].
    rewrite length_firstn. lia.
  - exists queryVec, answer. split; [reflexivity|].
    intros r Hr. split; [exact (results_meet_minScore _ _ _ _ Hr)|].
    unfold Search.results in Hr.
    apply in_slice_to, filter_In in Hr. destruct Hr as [Hr _].
    apply sort_in in Hr.
    pose proof (scored_entries queryVec (d0 :: docs) scored Hscored) as Hall.
    clear Hscored. revert Hr. generalize dependent (d0 :: docs).
    intros ds Hall. induction Hall as [|doc r0 ds scored' Hhd Htl IH]; intros Hr;
      [destruct Hr|].
    destruct Hr as [<- | Hr].
    + exists doc. split; [left; reflexivity | exact Hhd].
    + destruct (IH Hr) as (doc' & Hin & Hrest).
      exists doc'. split; [right; exact Hin | exact Hrest].
Qed.

(** X23.  Where the results come from.  In the answer of search.js,
    [totalIndexed] is the number of records of the store; with a limit
    that is not negative there are at most [limit] results; and every
    result is made from a record of the store: it has its source, line
    range and heading, its preview is the first 300 characters of its text,
    and its score is the similarity of its vector to the vector that the
    provider answered for the query. *)
Theorem search_results_from_store (query : list N) (limit : Z)
    (minScore : float) (create : provider) (w : world)
    (q : list N) (rs : list Scored.t) (n : nat) :
  fst (Search.main query limit minScore create w) = Ok (Results q rs n) ->
  q = query
  /\ n = length (store_docs w)
  /\ (0 <= limit -> (length rs <= Z.to_nat limit)%nat)
  /\ exists queryVec answer,
       create [query] = Some (queryVec :: answer)
       /\ forall r, In r rs ->
            exists doc,
              In doc (store_docs w)
              /\ Scored.file r = Doc.file doc
              /\ Scored.startLine r = Doc.startLine doc
              /\ Scored.endLine r = Doc.endLine doc
              /\ Scored.heading r = Doc.heading doc
              /\ Scored.preview r = firstn 300 (Doc.text doc)
              /\ (length (Scored.preview r) <= 300)%nat
              /\ cosineSimilarity queryVec (Doc.vector doc) = Ok (Scored.score r).
Proof.
  intros Hrun.
  destruct (search_main_entries _ _ _ _ _ _ _ _ Hrun)
    as (Hq & Hn & Hlimit & queryVec & answer & Hcreate & Hrs).
  split; [exact Hq|]. split; [exact Hn|]. split; [exact Hlimit|].
  exists queryVec, answer. split; [exact Hcreate|]. intros r Hr.
  destruct (Hrs r Hr) as (_ & doc & Hin & H1 & H2 & H3 & H4 & H5 & H6).
  exists doc. repeat split; try assumption.
  rewrite H5, length_firstn. lia.
Qed.

Lemma search_results_from_store_witness :
  let rs := [Scored.mk (js "b.md") 1 2 [] 1%float []] in
  js "q" = js "q"
  /\ 2%nat = length (store_docs store_ab)
  /\ (0 <= 10 -> (length rs <= Z.to_nat 10)%nat)
  /\ exists queryVec answer,
       unit_provider [js "q"] = Some (queryVec :: answer)
       /\ forall r, In r rs ->
            exists doc,
              In doc (store_docs store_ab)
              /\ Scored.file r = Doc.file doc
              /\ Scored.startLine r = Doc.startLine doc
              /\ Scored.endLine r = Doc.endLine doc
              /\ Scored.heading r = Doc.heading doc
              /\ Scored.preview r = firstn 300 (Doc.text doc)
              /\ (length (Scored.preview r) <= 300)%nat
              /\ cosineSimilarity queryVec (Doc.vector doc) = Ok (Scored.score r).
Proof.
  apply (search_results_from_store (js "q") 10 0.25%float unit_provider
           store_ab).
  vm_compute. reflexivity.
Defined.

(** X24.  A record without a vector.  When the store holds a record whose
    vector is missing and the provider answers the query with a vector
    that is not empty, search.js ends with a TypeError, whatever the other
    records are: no result is returned. *)
Theorem search_missing_vector_throws (query : list N) (limit : Z)
    (minScore : float) (create : provider) (w : world)
    (docs : list Doc.t) (doc : Doc.t) (x : float) (queryVec : vector)
    (answer : list vector) :
  index_file w = Stored docs ->
  In doc docs ->
  Doc.vector doc = None ->
  create [query] = Some ((x :: queryVec) :: answer) ->
  fst (Search.main query limit minScore create w) = Threw TypeError.
Proof.
  intros Hindex Hin Hvec Hcreate. unfold Search.main, loadIndex.
  rewrite Hindex. destruct docs as [|d0 docs0] eqn:Hdocs; [destruct Hin|].
  rewrite <- Hdocs in *. rewrite getEmbedding_run, Hcreate. simpl.
  destruct (Search.scored (x :: queryVec) docs) as [scored|e] eqn:Hscored.
  - exfalso. clear Hdocs Hindex. revert scored Hscored.
    induction docs as [|d ds IH]; intros scored Hscored; [destruct Hin|].
    simpl in Hscored.
    destruct (cosineSimilarity (x :: queryVec) (Doc.vector d)) as [s|e1] eqn:Hcos;
      [|discriminate].
    destruct (Search.scored (x :: queryVec) ds) as [more|e2] eqn:Hmore;
      [|discriminate].
    destruct Hin as [-> | Hin].
    + rewrite Hvec in Hcos. discriminate.
    + exact (IH Hin more eq_refl).
  - simpl. f_equal. eapply scored_threw_TypeError. exact Hscored.
Qed.

Lemma search_missing_vector_throws_witness :
  fst (Search.main (js "q") 10 0.25%float unit_provider
         (mkWorld (Stored [vec_doc "a.md" [1; 1]%float;
                           Doc.mk (FileId (js "b.md") 1) (js "b.md") 1 2 [] []
                             None 7 None])
            Missing Missing []))
  = Threw TypeError.
Proof.
  eapply (search_missing_vector_throws (js "q") 10 0.25%float unit_provider).
  - reflexivity.
  - right. left. reflexivity.
  - reflexivity.
  - reflexivity.
Defined.

(** X25.  Indexing, then searching.  Let the provider answer every text
    with the vector [embed] gives it.  After a run of the indexer that
    indexed files, every result of a search that belongs to one of the
    files listed in the report is a chunk of that file as [chunkMarkdown]
    cuts it: it has the line range and the heading of the chunk, its
    preview is the first 300 characters of the chunk, and its score, which
    is at least [minScore], is the similarity of the vector of the query
    to the vector of the first 8000 characters of the chunk.  The count
    [totalIndexed] of the search is the [totalChunks] of the report. *)
Theorem index_then_search (embed : list N -> vector) (full : bool)
    (files : list Crawled.t) (create : provider) (now : Z) (w w1 : world)
    (a b c : nat) (fs : list (list N)) (query : list N) (limit : Z)
    (minScore : float) (q : list N) (rs : list Scored.t) (n : nat) :
  (forall batch, create batch = Some (List.map embed batch)) ->
  Index.main full files create now w = (Ok (Indexed a b c fs), w1) ->
  fst (Search.main query limit minScore create w1) = Ok (Results q rs n) ->
  n = c
  /\ forall r, In r rs -> In (Scored.file r) fs ->
       exists f chunk,
         In f files
         /\ In chunk (chunkMarkdown (Crawled.content f) (Crawled.relPath f))
         /\ Scored.file r = Crawled.relPath f
         /\ Scored.startLine r = Chunk.startLine chunk
         /\ Scored.endLine r = Chunk.endLine chunk
         /\ Scored.heading r = Chunk.heading chunk
         /\ Scored.preview r = firstn 300 (Chunk.text chunk)
         /\ Scored.score r
            = cosine (embed query)
                (embed (slice0 EMBED_CHARS (Chunk.text chunk)))
         /\ (minScore <=? Scored.score r)%float = true.
Proof.
  intros Hcreate Hindex Hsearch.
  assert (Hpoint : forall batch answer, create batch = Some answer ->
            Forall2 (fun t v => v = embed t) batch answer).
  { intros batch answer H. rewrite Hcreate in H. inversion H; subst. clear.
    induction batch; simpl; constructor; auto. }
  destruct (index_main_new_records (fun t v => v = embed t)
              _ _ _ _ _ _ _ _ _ _ Hpoint Hindex)
    as (docs & Hstore & Hc & Hnew).
  destruct (search_main_entries _ _ _ _ _ _ _ _ Hsearch)
    as (_ & Hn & _ & queryVec & answer & Hq & Hrs).
  unfold store_docs in *. rewrite Hstore in *.
  split; [congruence|]. intros r Hr Hfile.
  destruct (Hrs r Hr) as (Hmin & doc & Hin & H1 & H2 & H3 & H4 & H5 & H6).
  rewrite H1 in Hfile.
  destruct (Hnew doc Hin Hfile) as (f & chunk & v & Hf & Hchunk & -> & ->).
  pose proof (chunkMarkdown_file (Crawled.content f) (Crawled.relPath f)) as Hpath.
  rewrite List.Forall_forall in Hpath. specialize (Hpath chunk Hchunk).
  rewrite Hcreate in Hq. cbn [List.map] in Hq. inversion Hq; subst queryVec.
  cbn [Doc.file Doc.startLine Doc.endLine Doc.heading Doc.text Doc.vector] in *.
  unfold cosineSimilarity in H6. inversion H6 as [Hscore].
  exists f, chunk.
  split; [exact Hf|]. split; [exact Hchunk|].
  split; [congruence|]. split; [exact H2|]. split; [exact H3|].
  split; [exact H4|]. split; [exact H5|]. split; [reflexivity|].
  rewrite Hscore. exact Hmin.
Qed.

Lemma index_then_search_witness :
  let w1 := snd (Index.main false [Crawled.mk a_md 5 note_a] unit_provider 9
                   empty_dir) in
  fst (Search.main (js "q") 10 0.25%float unit_provider w1)
  = Ok (Results (js "q") [Scored.mk a_md 1 2 [] 1%float note_a] 1)
  /\ 1%nat = 1%nat
  /\ forall r, In r [Scored.mk a_md 1 2 [] 1%float note_a] ->
       In (Scored.file r) [a_md] ->
       exists f chunk,
         In f [Crawled.mk a_md 5 note_a]
         /\ In chunk (chunkMarkdown (Crawled.content f) (Crawled.relPath f))
         /\ Scored.file r = Crawled.relPath f
         /\ Scored.startLine r = Chunk.startLine chunk
         /\ Scored.endLine r = Chunk.endLine chunk
         /\ Scored.heading r = Chunk.heading chunk
         /\ Scored.preview r = firstn 300 (Chunk.text chunk)
         /\ Scored.score r
            = cosine ((fun _ => [1%float; 0%float]) (js "q"))
                ((fun _ => [1%float; 0%float])
                   (slice0 EMBED_CHARS (Chunk.text chunk)))
         /\ (0.25 <=? Scored.score r)%float = true.
Proof.
  intros w1.
  assert (Hsearch : fst (Search.main (js "q") 10 0.25%float unit_provider w1)
                    = Ok (Results (js "q") [Scored.mk a_md 1 2 [] 1%float note_a] 1))
    by (vm_compute; reflexivity).
  split; [exact Hsearch|].
  apply (index_then_search (fun _ => [1%float; 0%float]) false
           [Crawled.mk a_md 5 note_a] unit_provider 9 empty_dir w1
           1%nat 1%nat 1%nat [a_md] (js "q") 10 0.25%float (js "q")).
  - intros batch. reflexivity.
  - vm_compute. reflexivity.
  - exact Hsearch.
Defined.

(** ** Configuration *)

Lemma is_set_spec e name :
  Env.is_set e name = true <-> exists v, e !! name = Some v /\ v <> [].
Proof.
  unfold Env.is_set. destruct (e !! name) as [[|c v]|]; split;
    try discriminate; try (intros (v' & H & Hv); congruence).
  intros _. exists (c :: v). split; [reflexivity | discriminate].
Qed.

Lemma load_line_keeps e line name v :
  e !! name = Some v -> v <> [] -> Env.load_line e line !! name = Some v.
Proof.
  intros He Hv. unfold Env.load_line.
  destruct (Env.match_line line) as [[n value]|]; [|exact He].
  destruct (Env.is_set e n) eqn:Hset; [exact He|].
  destruct (decide (n = name)) as [-> | Hne].
  - exfalso. assert (Env.is_set e name = true)
      by (apply is_set_spec; exists v; auto). congruence.
  - rewrite lookup_insert_ne by exact Hne. exact He.
Qed.

Lemma fold_load_line_keeps name v : forall lines e,
  e !! name = Some v -> v <> [] ->
  fold_left Env.load_line lines e !! name = Some v.
Proof.
  induction lines as [|line lines IH]; intros e He Hv; simpl; [exact He|].
  apply IH; [apply load_line_keeps; assumption | exact Hv].
Qed.

(** X26.  A variable that is set is never replaced.  When the environment
    gives a value that is not empty to a variable, [loadEnvFile] leaves it,
    whatever the file says. *)
Theorem loadEnvFile_keeps_set_variables (file : option (list N)) (e : env)
    (name v : list N) :
  e !! name = Some v -> v <> [] ->
  Env.loadEnvFile file e !! name = Some v.
Proof.
  intros He Hv. destruct file as [content|]; [|exact He].
  apply fold_load_line_keeps; assumption.
Qed.

Lemma loadEnvFile_keeps_set_variables_witness :
  Env.loadEnvFile (Some env_file) (<[js "HOME" := js "/root"]> ∅) !! js "HOME"
  = Some (js "/root").
Proof.
  apply loadEnvFile_keeps_set_variables.
  - vm_compute. reflexivity.
  - discriminate.
Defined.

Lemma load_line_other e line name :
  defines name line = None ->
  Env.load_line e line !! name = e !! name.
Proof.
  unfold defines, Env.load_line.
  destruct (Env.match_line line) as [[n value]|]; [|reflexivity].
  destruct (bool_decide (n = name)) eqn:Hn; [discriminate|].
  apply bool_decide_eq_false in Hn. intros _.
  destruct (Env.is_set e n); [reflexivity|].
  apply lookup_insert_ne. exact Hn.
Qed.

Lemma load_line_defines e line name v :
  defines name line = Some v -> Env.is_set e name = false ->
  Env.load_line e line !! name = Some v.
Proof.
  unfold defines, Env.load_line.
  destruct (Env.match_line line) as [[n value]|]; [|discriminate].
  destruct (bool_decide (n = name)) eqn:Hn; [|discriminate].
  apply bool_decide_eq_true in Hn. subst n. intros Hv Hset.
  inversion Hv; subst. rewrite Hset. apply lookup_insert_eq.
Qed.

Lemma is_set_lookup e e' name :
  e' !! name = e !! name -> Env.is_set e' name = Env.is_set e name.
Proof. unfold Env.is_set. intros ->. reflexivity. Qed.

(** The variable [name] after the lines of a file, when it was not set
    before: the first value that is not empty, and still not set when
    there is none. *)
Lemma fold_load_line_first name : forall lines e,
  Env.is_set e name = false ->
  match List.find (fun v => negb (bool_decide (v = [])))
          (omap (defines name) lines) with
  | Some v => fold_left Env.load_line lines e !! name = Some v
  | None => Env.is_set (fold_left Env.load_line lines e) name = false
  end.
Proof.
  induction lines as [|line lines IH]; intros e Hset; simpl; [exact Hset|].
  destruct (defines name line) as [v|] eqn:Hdef; simpl.
  - pose proof (load_line_defines e line name v Hdef Hset) as Hv.
    destruct (bool_decide (v = [])) eqn:Hempty; simpl.
    + apply bool_decide_eq_true in Hempty. subst v.
      apply IH. unfold Env.is_set. rewrite Hv. reflexivity.
    + apply bool_decide_eq_false in Hempty.
      apply fold_load_line_keeps; assumption.
  - apply IH. rewrite (is_set_lookup e); [exact Hset|].
    apply load_line_other. exact Hdef.
Qed.

Lemma loadEnvFile_first name file e :
  Env.is_set e name = false ->
  match first_value name file with
  | Some v => Env.loadEnvFile file e !! name = Some v
  | None => Env.is_set (Env.loadEnvFile file e) name = false
  end.
Proof.
  intros Hset. destruct file as [content|]; simpl; [|exact Hset].
  apply fold_load_line_first. exact Hset.
Qed.

Lemma first_value_not_empty name file v : first_value name file = Some v -> v <> [].
Proof.
  destruct file as [content|]; simpl; [|discriminate].
  intros H. apply find_some in H. destruct H as [_ H].
  apply negb_true_iff, bool_decide_eq_false in H. exact H.
Qed.

(** X27.  Where the API key comes from.  A key set in the environment is
    used as it is and no file is read.  Otherwise the key is the first
    value that is not empty given to [OPENAI_API_KEY] by the first of the
    files, in the order of [envPaths], that gives it one: a file later in
    the list never overrides an earlier one. *)
Theorem getOpenAI_key_priority (e : env)
    (before after : list (option (list N))) (file : option (list N))
    (v : list N) :
  (Env.is_set e Env.OPENAI_API_KEY = true ->
   forall envFiles, Env.getOpenAI envFiles e = e)
  /\ (Env.is_set e Env.OPENAI_API_KEY = false ->
      Forall (fun f => first_value Env.OPENAI_API_KEY f = None) before ->
      first_value Env.OPENAI_API_KEY file = Some v ->
      Env.apiKey (Env.getOpenAI (before ++ file :: after) e) = Some v).
Proof.
  split.
  - intros Hset envFiles. unfold Env.getOpenAI. rewrite Hset. reflexivity.
  - intros Hset Hbefore Hfile. unfold Env.getOpenAI, Env.apiKey.
    rewrite Hset, fold_left_app. simpl.
    assert (Hb : Env.is_set
                   (fold_left (fun e f => Env.loadEnvFile f e) before e)
                   Env.OPENAI_API_KEY = false).
    { clear Hfile. revert e Hset.
      induction Hbefore as [|f before Hf _ IH]; intros e Hset; simpl; [exact Hset|].
      apply IH. pose proof (loadEnvFile_first Env.OPENAI_API_KEY f e Hset) as H.
      rewrite Hf in H. exact H. }
    pose proof (loadEnvFile_first Env.OPENAI_API_KEY file _ Hb) as Hv.
    rewrite Hfile in Hv.
    pose proof (first_value_not_empty _ _ _ Hfile) as Hne.
    generalize dependent (Env.loadEnvFile file
                            (fold_left (fun e f => Env.loadEnvFile f e) before e)).
    intros e1 He1. clear Hb. revert e1 He1.
    induction after as [|f after IH]; intros e1 He1; simpl; [exact He1|].
    apply IH. destruct f as [content|]; [|exact He1].
    apply fold_load_line_keeps; assumption.
Qed.

Lemma getOpenAI_key_priority_witness :
  Env.getOpenAI [Some env_file]
    (<[Env.OPENAI_API_KEY := js "sk-env"]> ∅)
  = <[Env.OPENAI_API_KEY := js "sk-env"]> ∅
  /\ Env.apiKey
       (Env.getOpenAI
          ([None] ++ Some env_file :: [Some (js "OPENAI_API_KEY=sk-workspace")])
          ∅)
     = Some (js "sk-file").
Proof.
  split.
  - apply (getOpenAI_key_priority (<[Env.OPENAI_API_KEY := js "sk-env"]> ∅)
             [] [] None []).
    vm_compute. reflexivity.
  - apply (getOpenAI_key_priority ∅ [None]
             [Some (js "OPENAI_API_KEY=sk-workspace")] (Some env_file)
             (js "sk-file")).
    + vm_compute. reflexivity.
    + repeat constructor.
    + vm_compute. reflexivity.
Defined.

Lemma forallb_dot_cr value : In 13%N value -> forallb Env.dot value = false.
Proof.
  induction value as [|c value IH]; intros Hin; [destruct Hin|]. simpl.
  destruct Hin as [-> | Hin]; [reflexivity|].
  rewrite (IH Hin). apply andb_false_r.
Qed.

Lemma span_name_app : forall s, (Env.span_name s).1 ++ (Env.span_name s).2 = s.
Proof.
  induction s as [|c s IH]; simpl; [reflexivity|].
  destruct (Env.name_char c); [|reflexivity].
  destruct (Env.span_name s) as [name rest]. simpl in *. rewrite IH. reflexivity.
Qed.

Lemma span_name_chars : forall s, Forall (fun c => Env.name_char c = true) (Env.span_name s).1.
Proof.
  induction s as [|c s IH]; simpl; [constructor|].
  destruct (Env.name_char c) eqn:Hc; [|constructor].
  destruct (Env.span_name s) as [name rest]. simpl in *. constructor; assumption.
Qed.

Lemma match_line_cr line : In 13%N line -> Env.match_line line = None.
Proof.
  intros Hin. unfold Env.match_line.
  destruct line as [|c s]; [reflexivity|].
  destruct (Env.name_start c) eqn:Hstart; [|reflexivity].
  pose proof (span_name_app s) as Happ. pose proof (span_name_chars s) as Hchars.
  destruct (Env.span_name s) as [name rest]. simpl in *.
  destruct rest as [|e value]; [reflexivity|].
  destruct (e =? 61)%N eqn:He; [|reflexivity]. simpl.
  rewrite forallb_dot_cr; [reflexivity|].
  destruct Hin as [-> | Hin]; [vm_compute in Hstart; discriminate Hstart|].
  rewrite <- Happ in Hin. apply in_app_or in Hin. destruct Hin as [Hin | Hin].
  - rewrite List.Forall_forall in Hchars. apply Hchars in Hin.
    vm_compute in Hin. discriminate Hin.
  - destruct Hin as [-> | Hin]; [vm_compute in He; discriminate He | exact Hin].
Qed.

(** X28.  Lines with a carriage return.  A line that holds a carriage
    return sets nothing: [.] does not match it and [$] matches only at
    the end of the line.  So a file whose lines all end with a carriage
    return and a newline leaves the environment as it is. *)
Theorem loadEnvFile_ignores_carriage_return (content : list N) (e : env) :
  Forall (fun line => line = [] \/ In 13%N line) (split_lines content) ->
  Env.loadEnvFile (Some content) e = e.
Proof.
  unfold Env.loadEnvFile. generalize (split_lines content). intros lines Hlines.
  revert e. induction Hlines as [|line lines Hline _ IH]; intros e; simpl;
    [reflexivity|].
  assert (H : Env.load_line e line = e).
  { unfold Env.load_line. destruct Hline as [-> | Hcr]; [reflexivity|].
    rewrite match_line_cr by exact Hcr. reflexivity. }
  rewrite H. apply IH.
Qed.

Lemma loadEnvFile_ignores_carriage_return_witness :
  Env.loadEnvFile (Some env_file_crlf) ∅ = ∅.
Proof.
  apply loadEnvFile_ignores_carriage_return.
  vm_compute. repeat constructor; right; simpl; tauto.
Defined.

(** ** Workspace detection *)

Lemma walk_up_spec existsSync : forall n dir,
  match Workspace.walk_up existsSync n dir with
  | Some d =>
      exists k, (k < n)%nat /\ d = ancestor k dir
                /\ Workspace.has_marker existsSync d = true
                /\ forall j, (j < k)%nat ->
                     Workspace.has_marker existsSync (ancestor j dir) = false
  | None =>
      forall k, (k < n)%nat ->
        Workspace.has_marker existsSync (ancestor k dir) = false
  end.
Proof.
  assert (Hsucc : forall k dir, ancestor (S k) dir = ancestor k (Workspace.dirname dir)).
  { intros k dir. unfold ancestor. induction k as [|k IH]; [reflexivity|].
    simpl in *. rewrite IH. reflexivity. }
  assert (Hroot : forall k dir, Workspace.dirname dir = dir -> ancestor k dir = dir).
  { intros k dir Hd. unfold ancestor. induction k as [|k IH]; [reflexivity|].
    simpl. rewrite IH. exact Hd. }
  induction n as [|n IH]; intros dir; simpl.
  - intros k Hk. lia.
  - destruct (Workspace.has_marker existsSync dir) eqn:Hm.
    + exists O. split; [lia|]. split; [reflexivity|]. split; [exact Hm|].
      intros j Hj. lia.
    + destruct (bool_decide (Workspace.dirname dir = dir)) eqn:Hparent.
      * apply bool_decide_eq_true in Hparent. intros k _.
        rewrite Hroot by exact Hparent. exact Hm.
      * specialize (IH (Workspace.dirname dir)).
        destruct (Workspace.walk_up existsSync n (Workspace.dirname dir)) as [d|].
        -- destruct IH as (k & Hk & Hd & Hmark & Hnone).
           exists (S k). split; [lia|]. rewrite Hsucc.
           split; [exact Hd|]. split; [exact Hmark|].
           intros [|j] Hj; [exact Hm|]. rewrite Hsucc. apply Hnone. lia.
        -- intros [|k] Hk; [exact Hm|]. rewrite Hsucc. apply IH. lia.
Qed.

(** X29.  Workspace detection.  When [VECTOR_MEMORY_WORKSPACE] is not
    set, the workspace is the nearest directory with a marker
    ([AGENTS.md], [SOUL.md] or [memory]) among the working directory and
    its first 9 ancestors, and the working directory itself when none of
    these has a marker: a marker 10 or more levels up is not looked for. *)
Theorem detectWorkspace_nearest_marker (e : env)
    (existsSync : list (list N) -> bool) (cwd : list (list N)) :
  Env.is_set e Workspace.VECTOR_MEMORY_WORKSPACE = false ->
  (forall k, (k < 10)%nat ->
     Workspace.has_marker existsSync (ancestor k cwd) = true ->
     (forall j, (j < k)%nat ->
        Workspace.has_marker existsSync (ancestor j cwd) = false) ->
     Workspace.detectWorkspace e existsSync cwd = Dir (ancestor k cwd))
  /\ ((forall k, (k < 10)%nat ->
         Workspace.has_marker existsSync (ancestor k cwd) = false) ->
      Workspace.detectWorkspace e existsSync cwd = Dir cwd).
Proof.
  intros Hunset.
  assert (Hrun : Workspace.detectWorkspace e existsSync cwd
                 = match Workspace.walk_up existsSync 10 cwd with
                   | Some dir => Dir dir
                   | None => Dir cwd
                   end).
  { unfold Workspace.detectWorkspace. unfold Env.is_set in Hunset.
    destruct (e !! Workspace.VECTOR_MEMORY_WORKSPACE) as [[|c v]|];
      [reflexivity | discriminate | reflexivity]. }
  rewrite Hrun. pose proof (walk_up_spec existsSync 10 cwd) as Hspec.
  destruct (Workspace.walk_up existsSync 10 cwd) as [d|].
  - destruct Hspec as (k0 & Hk0 & -> & Hmark & Hnone). split.
    + intros k Hk Hm Hbelow.
      destruct (Nat.lt_trichotomy k k0) as [Hlt | [-> | Hgt]]; [| reflexivity |].
      * rewrite (Hnone k Hlt) in Hm. discriminate.
      * rewrite (Hbelow k0 Hgt) in Hmark. discriminate.
    + intros Hno. rewrite (Hno k0 Hk0) in Hmark. discriminate.
  - split; [|reflexivity].
    intros k Hk Hm _. rewrite (Hspec k Hk) in Hm. discriminate.
Qed.

Lemma detectWorkspace_nearest_marker_witness :
  let existsSync := fun p => bool_decide (p = [js "home"; js "AGENTS.md"]) in
  Workspace.detectWorkspace ∅ existsSync [js "home"; js "notes"; js "2026"]
  = Dir (ancestor 2 [js "home"; js "notes"; js "2026"])
  /\ Workspace.detectWorkspace ∅ (fun _ => false) [js "home"; js "notes"]
     = Dir [js "home"; js "notes"].
Proof.
  split.
  - apply (detectWorkspace_nearest_marker ∅
             (fun p => bool_decide (p = [js "home"; js "AGENTS.md"]))
             [js "home"; js "notes"; js "2026"]).
    + reflexivity.
    + lia.
    + vm_compute. reflexivity.
    + intros [|[|j]] Hj; [vm_compute; reflexivity | vm_compute; reflexivity | lia].
  - apply (detectWorkspace_nearest_marker ∅ (fun _ => false)
             [js "home"; js "notes"]).
    + reflexivity.
    + intros k _. reflexivity.
Defined.

(** ** The crawl *)

Lemma str_ltb_irrefl : forall x, Crawl.str_ltb x x = false.
Proof.
  induction x as [|a x IH]; simpl; [reflexivity|].
  rewrite N.ltb_irrefl, N.eqb_refl, IH. reflexivity.
Qed.

Lemma str_ltb_trans : forall x y z,
  Crawl.str_ltb x y = true -> Crawl.str_ltb y z = true -> Crawl.str_ltb x z = true.
Proof.
  induction x as [|a x IH]; intros [|b y] [|c z] Hxy Hyz; simpl in *;
    try discriminate; try reflexivity.
  apply orb_true_iff in Hxy, Hyz. apply orb_true_iff.
  destruct Hxy as [Hab | Hab], Hyz as [Hbc | Hbc].
  - left. apply N.ltb_lt in Hab, Hbc. apply N.ltb_lt. lia.
  - apply andb_true_iff in Hbc. destruct Hbc as [Hbc _].
    apply N.eqb_eq in Hbc. subst c. left. exact Hab.
  - apply andb_true_iff in Hab. destruct Hab as [Hab _].
    apply N.eqb_eq in Hab. subst b. left. exact Hbc.
  - apply andb_true_iff in Hab, Hbc. destruct Hab as [Hab Hxy], Hbc as [Hbc Hyz].
    apply N.eqb_eq in Hab, Hbc. subst b c. right.
    rewrite N.eqb_refl. simpl. exact (IH _ _ Hxy Hyz).
Qed.

Lemma str_ltb_total : forall x y,
  Crawl.str_ltb x y = false -> x = y \/ Crawl.str_ltb y x = true.
Proof.
  induction x as [|a x IH]; intros [|b y] H; simpl in *;
    try discriminate; auto.
  apply orb_false_iff in H. destruct H as [Hlt H].
  apply N.ltb_ge in Hlt.
  destruct (a =? b)%N eqn:Heq; simpl in H.
  - apply N.eqb_eq in Heq. subst b. rewrite N.ltb_irrefl, N.eqb_refl. simpl.
    destruct (IH y H) as [-> | Hyx]; [left; reflexivity | right; exact Hyx].
  - apply N.eqb_neq in Heq. right. apply orb_true_iff. left.
    apply N.ltb_lt. lia.
Qed.

Lemma in_fold_add : forall l acc f,
  In f (fold_left Crawl.add l acc) <-> In f acc \/ In f l.
Proof.
  induction l as [|g l IH]; intros acc f; simpl; [tauto|].
  rewrite IH. unfold Crawl.add.
  destruct (existsb _ acc) eqn:Hex.
  - apply existsb_exists in Hex. destruct Hex as (g' & Hin & Hg).
    apply bool_decide_eq_true in Hg. subst g'.
    split; [tauto|]. intros [H | [<- | H]]; auto.
  - rewrite in_app_iff. simpl. tauto.
Qed.

Lemma NoDup_fold_add : forall l acc,
  List.NoDup acc -> List.NoDup (fold_left Crawl.add l acc).
Proof.
  induction l as [|g l IH]; intros acc Hacc; simpl; [exact Hacc|].
  apply IH. unfold Crawl.add.
  destruct (existsb _ acc) eqn:Hex; [exact Hacc|].
  apply List.NoDup_app; [exact Hacc | constructor; [intros [] | constructor] |].
  intros x Hx [Heq | []]. subst x.
  assert (H : existsb (fun g' => bool_decide (g' = g)) acc = true).
  { apply existsb_exists. exists g. split; [exact Hx|].
    apply bool_decide_eq_true. reflexivity. }
  congruence.
Qed.

Lemma crawl_sift_in x : forall before y,
  In y (Crawl.sift x before) <-> y = x \/ In y before.
Proof.
  induction before as [|b before IH]; intros y; simpl.
  - split; [intros [<- | []]; auto | intros [-> | []]; auto].
  - destruct (Crawl.str_ltb x b); simpl; rewrite ?IH; split; intros H.
    + destruct H as [<- | [-> | H]]; auto.
    + destruct H as [-> | [<- | H]]; auto.
    + destruct H as [<- | [<- | H]]; auto.
    + destruct H as [-> | [<- | H]]; auto.
Qed.

Lemma crawl_sift_sorted x : forall before,
  descending_strings before -> ~ In x before ->
  descending_strings (Crawl.sift x before).
Proof.
  induction before as [|b before IH]; intros Hs Hx; simpl.
  - constructor; constructor.
  - apply StronglySorted_inv in Hs. destruct Hs as [Hs Hb].
    destruct (Crawl.str_ltb x b) eqn:Hlt.
    + constructor.
      * apply IH; [exact Hs | intros H; apply Hx; right; exact H].
      * apply List.Forall_forall. intros y Hy. apply crawl_sift_in in Hy.
        destruct Hy as [-> | Hy]; [exact Hlt|].
        rewrite List.Forall_forall in Hb. apply Hb. exact Hy.
    + assert (Hbx : Crawl.str_ltb b x = true).
      { destruct (str_ltb_total x b Hlt) as [-> | H]; [|exact H].
        exfalso. apply Hx. left. reflexivity. }
      constructor; [constructor; assumption|].
      constructor; [exact Hbx|].
      eapply List.Forall_impl; [|exact Hb]. intros y Hy. simpl in Hy.
      exact (str_ltb_trans _ _ _ Hy Hbx).
Qed.

Lemma crawl_fold_sift : forall l before,
  descending_strings before -> List.NoDup l ->
  (forall y, In y l -> ~ In y before) ->
  descending_strings (fold_left (fun before x => Crawl.sift x before) l before)
  /\ forall y, In y (fold_left (fun before x => Crawl.sift x before) l before)
               <-> In y before \/ In y l.
Proof.
  induction l as [|x l IH]; intros before Hs Hnd Hnew; simpl.
  - split; [exact Hs | tauto].
  - apply List.NoDup_cons_iff in Hnd. destruct Hnd as [Hx Hnd].
    destruct (IH (Crawl.sift x before)) as [Hsorted Hin].
    + apply crawl_sift_sorted; [exact Hs|]. apply Hnew. left. reflexivity.
    + exact Hnd.
    + intros y Hy H. apply crawl_sift_in in H. destruct H as [-> | H].
      * contradiction.
      * exact (Hnew y (or_intror Hy) H).
    + split; [exact Hsorted|]. intros y. rewrite Hin, crawl_sift_in.
      split; intros H.
      * destruct H as [[-> | H] | H]; auto.
      * destruct H as [H | [<- | H]]; auto.
Qed.

(** X30.  The crawl.  The list returned by [findFiles] holds exactly the
    paths matched by one of the patterns, each of them once, in ascending
    order of their code units. *)
Theorem findFiles_sorted_unique (matches : list (list (list N))) :
  StronglySorted (fun x y => Crawl.str_ltb x y = true) (Crawl.findFiles matches)
  /\ List.NoDup (Crawl.findFiles matches)
  /\ forall f, In f (Crawl.findFiles matches)
               <-> exists m, In m matches /\ In f m.
Proof.
  unfold Crawl.findFiles, Crawl.sort.
  pose proof (NoDup_fold_add (List.concat matches) [] (List.NoDup_nil _)) as Hnd.
  destruct (crawl_fold_sift (fold_left Crawl.add (List.concat matches) []) [])
    as [Hsorted Hin]; [constructor | exact Hnd | intros y _ []|].
  assert (Hmem : forall f,
            In f (rev (fold_left (fun before x => Crawl.sift x before)
                         (fold_left Crawl.add (List.concat matches) []) []))
            <-> exists m, In m matches /\ In f m).
  { intros f. rewrite <- in_rev, Hin, in_fold_add, in_concat. simpl.
    split.
    - intros [[] | [[] | (m & Hm & Hf)]]. exists m. auto.
    - intros (m & Hm & Hf). right. right. exists m. auto. }
  assert (Hasc : StronglySorted (fun x y => Crawl.str_ltb x y = true)
                   (rev (fold_left (fun before x => Crawl.sift x before)
                           (fold_left Crawl.add (List.concat matches) []) []))).
  { revert Hsorted. unfold descending_strings.
    generalize (fold_left (fun before x => Crawl.sift x before)
                  (fold_left Crawl.add (List.concat matches) []) []).
    induction 1 as [|y l Hl IH Hy]; simpl; [constructor|].
    apply StronglySorted_snoc; [exact IH|].
    apply List.Forall_forall. intros z Hz. apply in_rev in Hz.
    rewrite List.Forall_forall in Hy. apply Hy. exact Hz. }
  split; [exact Hasc|]. split; [|exact Hmem].
  clear Hmem. revert Hasc.
  generalize (rev (fold_left (fun before x => Crawl.sift x before)
                     (fold_left Crawl.add (List.concat matches) []) [])).
  induction 1 as [|y l Hl IH Hy]; constructor; [|exact IH].
  intros Hin'. rewrite List.Forall_forall in Hy.
  pose proof (Hy y Hin') as H. rewrite str_ltb_irrefl in H. discriminate.
Qed.

